(** * LogisticsGame: the truck logistics core of main.py

    A shallow embedding of the road grid, the breadth-first pathfinder, the
    production tick, the truck state machine and the build commands of
    [Game], and the properties of the specification stated over it. *)

From Stdlib Require Import ZArith QArith Qround Qminmax Qreduction Lia Lqa.
From Stdlib Require Import PrimFloat.
From stdpp Require Import gmap strings list fin_maps.

Local Open Scope Z_scope.

(** * Grid cells and the road grid (main.py, [Coord], [Game.road_grid]) *)

Definition Coord : Type := (Z * Z)%type.

(** [neighbors4]: the four axis neighbours, in the order of the source. *)
Definition neighbors4 (cell : Coord) : list Coord :=
  let '(x, y) := cell in [(x + 1, y); (x - 1, y); (x, y + 1); (x, y - 1)].

(** [is_driveable]: [self.road_grid.get(cell, 0) == 1]. *)
Definition is_driveable (road_grid : gmap Coord Z) (cell : Coord) : bool :=
  bool_decide (default 0 (road_grid !! cell) = 1).

(** ** [find_path_on_roads]

    The [while queue] loop.  [came] maps a discovered cell to its
    predecessor ([None] for the start cell), [queue] is the deque.  One
    unit of [fuel] is spent per [popleft]; [None] means the fuel ran out
    before the loop ended. *)

Definition visit (road_grid : gmap Coord Z) (cur : Coord)
    (st : gmap Coord (option Coord) * list Coord) (nb : Coord)
    : gmap Coord (option Coord) * list Coord :=
  if is_driveable road_grid nb && bool_decide (st.1 !! nb = None)
  then (<[nb := Some cur]> st.1, st.2 ++ [nb])
  else st.

Fixpoint bfs_loop (road_grid : gmap Coord Z) (goal : Coord) (fuel : nat)
    (came : gmap Coord (option Coord)) (queue : list Coord)
    : option (gmap Coord (option Coord)) :=
  match fuel with
  | O => None
  | S fuel' =>
      match queue with
      | [] => Some came
      | cur :: rest =>
          if bool_decide (cur = goal) then Some came
          else
            let st := fold_left (visit road_grid cur) (neighbors4 cur) (came, rest) in
            bfs_loop road_grid goal fuel' st.1 st.2
      end
  end.

(** The reconstruction loop [while cur is not None: path.append(cur);
    cur = came[cur]].  [None] stands for a [KeyError] or for fuel running
    out on a cyclic predecessor map. *)
Fixpoint reconstruct (came : gmap Coord (option Coord)) (fuel : nat)
    (cur : option Coord) (path : list Coord) : option (list Coord) :=
  match cur with
  | None => Some path
  | Some c =>
      match fuel with
      | O => None
      | S fuel' =>
          match came !! c with
          | Some prev => reconstruct came fuel' prev (path ++ [c])
          | None => None
          end
      end
  end.

(** The whole search, as an option: [None] only if one of the two loops
    does not finish within its fuel. *)
Definition bfs_search (road_grid : gmap Coord Z) (start goal : Coord)
    : option (list Coord) :=
  if bool_decide (start = goal) then Some [start]
  else
    came ← bfs_loop road_grid goal (2 + size road_grid) {[start := None]} [start];
    if bool_decide (came !! goal = None) then Some []
    else reverse <$> reconstruct came (size came) (Some goal) [].

Definition find_path_on_roads (road_grid : gmap Coord Z) (start goal : Coord)
    : list Coord :=
  default [] (bfs_search road_grid start goal).

(** ** What a road path is *)

(** Consecutive cells are 4-adjacent and every cell after the first is
    driveable. *)
Fixpoint road_path (road_grid : gmap Coord Z) (p : list Coord) : Prop :=
  match p with
  | a :: tl =>
      match tl with
      | b :: _ => b ∈ neighbors4 a ∧ is_driveable road_grid b = true ∧ road_path road_grid tl
      | [] => True
      end
  | [] => True
  end.

Definition path_from_to (road_grid : gmap Coord Z) (start goal : Coord)
    (p : list Coord) : Prop :=
  head p = Some start ∧ last p = Some goal ∧ road_path road_grid p.

Definition road_reachable (road_grid : gmap Coord Z) (start goal : Coord) : Prop :=
  ∃ p, path_from_to road_grid start goal p.

(** [walk rg a b n]: [b] is reached from [a] in [n] steps, each onto a
    driveable 4-neighbour. *)
Inductive walk (road_grid : gmap Coord Z) (a : Coord) : Coord → nat → Prop :=
  | walk_here : walk road_grid a a 0
  | walk_step b c n :
      walk road_grid a b n → c ∈ neighbors4 b → is_driveable road_grid c = true →
      walk road_grid a c (S n).

(** * Numbers

    Python's [float] quantities (storage, cargo, timers, [dt], pixel
    positions) are modelled as exact rationals kept in lowest terms, so
    that equal quantities are equal terms.  Rounding is outside the model:
    a single operation of the model is the operation of the program before
    rounding, and a property that follows several float operations in a row
    is stated for quantities whose exact results are binary64 numbers
    ([binary64] below), for which the program's arithmetic is exact too.
    A Python [int] stored next to floats is the rational with denominator
    one. *)

Definition fadd (a b : Q) : Q := Qred (a + b).
Definition fsub (a b : Q) : Q := Qred (a - b).
Definition fmul (a b : Q) : Q := Qred (a * b).
Definition fdiv (a b : Q) : Q := Qred (a / b).
Definition of_int (z : Z) : Q := inject_Z z.


(** [int(x)]: truncation towards zero. *)
Definition to_int (q : Q) : Z := Z.quot (Qnum q) (Zpos (Qden q)).

(** [a < b] as a boolean. *)
Definition Qltb (a b : Q) : bool := negb (Qle_bool b a).

(** [min(a, b, c)] and [max(a, b)] keep the first extremal argument. *)
Definition min3 (a b c : Q) : Q := Qmin (Qmin a b) c.

(** [x ** 0.5]: exact on squares of rationals, otherwise rounded down to a
    multiple of [2^-52 / den]. *)
Definition fsqrt (q : Q) : Q :=
  Qred (Z.sqrt (Qnum q * Zpos (Qden q) * 2 ^ 104) # (Qden q * 2 ^ 52)).

Definition GRID_SIZE : Z := 32.

(** * Exceptions *)

Inductive exn : Type :=
  | NameError (name : string)
  | KeyError (key : string).

Inductive result (A : Type) : Type :=
  | Ok (a : A)
  | Raise (e : exn).
Arguments Ok {A} a.
Arguments Raise {A} e.

Global Instance result_bind : MBind result := λ A B f m,
  match m with
  | Ok a => f a
  | Raise e => Raise e
  end.

(** * Data model (the dataclasses of main.py) *)

Inductive BuildingType : Type := lumber | quarry | refinery.

Inductive TruckState : Type :=
  | idle | to_source | loading | to_dest | unloading | waiting_for_bmats.

Global Instance BuildingType_eq_dec : EqDecision BuildingType.
Proof. solve_decision. Defined.
Global Instance TruckState_eq_dec : EqDecision TruckState.
Proof. solve_decision. Defined.

(** [conversion_timer] is the attribute a refinery gets on its first
    conversion tick ([None]: not set yet). *)
Record Building : Type := mkBuilding {
  type : BuildingType;
  cell : Coord;
  radius_cells : Z;
  production_rate_per_sec : Q;
  storage : gmap string Q;
  conversion_timer : option Q
}.

(** The drawing fields of [Truck] (colours, direction) are left out.  The
    last five fields are the attributes attached at run time:
    [_dest_cell] ([None]: absent), [refinery_loop] (only ever set to
    [True]; [false]: absent), [stone_delivered], [waiting_timer],
    [waiting_target]. *)
Record Truck : Type := mkTruck {
  truck_id : Z;
  position_px : Q * Q;
  current_cell : Coord;
  path_cells : list Coord;
  speed_px_per_sec : Q;
  state : TruckState;
  cargo_type : option string;
  cargo_amount : Q;
  cargo_capacity : Q;
  repeat_enabled : bool;
  saved_source : option Coord;
  saved_dest : option Coord;
  saved_resource : option string;
  _dest_cell : option Coord;
  refinery_loop : bool;
  stone_delivered : option Q;
  waiting_timer : option Q;
  waiting_target : option Q
}.

(** The world state of [Game]; [trucks_built] is the counter of the truck
    factory.  Camera, tools and the assignment dialogue are input handling
    and are represented by the commands below. *)
Record Game : Type := mkGame {
  roads : gset Coord;
  road_grid : gmap Coord Z;
  trees : gset Coord;
  stones : gset Coord;
  resources : gmap string Q;
  buildings : list Building;
  trucks : list Truck;
  next_truck_id : Z;
  base_cell : Coord;
  trucks_built : Z
}.

(** ** Field updates ([obj.field = v]) *)

Definition set_storage (v : gmap string Q) (b : Building) : Building :=
  mkBuilding (type b) (cell b) (radius_cells b) (production_rate_per_sec b)
    v (conversion_timer b).

Definition set_conversion_timer (v : option Q) (b : Building) : Building :=
  mkBuilding (type b) (cell b) (radius_cells b) (production_rate_per_sec b)
    (storage b) v.

Definition set_position_px (v : Q * Q) (t : Truck) : Truck :=
  mkTruck (truck_id t) v (current_cell t) (path_cells t)
    (speed_px_per_sec t) (state t) (cargo_type t) (cargo_amount t)
    (cargo_capacity t) (repeat_enabled t) (saved_source t) (saved_dest t)
    (saved_resource t) (_dest_cell t) (refinery_loop t) (stone_delivered t)
    (waiting_timer t) (waiting_target t).

Definition set_current_cell (v : Coord) (t : Truck) : Truck :=
  mkTruck (truck_id t) (position_px t) v (path_cells t) (speed_px_per_sec t)
    (state t) (cargo_type t) (cargo_amount t) (cargo_capacity t)
    (repeat_enabled t) (saved_source t) (saved_dest t) (saved_resource t)
    (_dest_cell t) (refinery_loop t) (stone_delivered t) (waiting_timer t)
    (waiting_target t).

Definition set_path_cells (v : list Coord) (t : Truck) : Truck :=
  mkTruck (truck_id t) (position_px t) (current_cell t) v
    (speed_px_per_sec t) (state t) (cargo_type t) (cargo_amount t)
    (cargo_capacity t) (repeat_enabled t) (saved_source t) (saved_dest t)
    (saved_resource t) (_dest_cell t) (refinery_loop t) (stone_delivered t)
    (waiting_timer t) (waiting_target t).

Definition set_state (v : TruckState) (t : Truck) : Truck :=
  mkTruck (truck_id t) (position_px t) (current_cell t) (path_cells t)
    (speed_px_per_sec t) v (cargo_type t) (cargo_amount t)
    (cargo_capacity t) (repeat_enabled t) (saved_source t) (saved_dest t)
    (saved_resource t) (_dest_cell t) (refinery_loop t) (stone_delivered t)
    (waiting_timer t) (waiting_target t).

Definition set_cargo_type (v : option string) (t : Truck) : Truck :=
  mkTruck (truck_id t) (position_px t) (current_cell t) (path_cells t)
    (speed_px_per_sec t) (state t) v (cargo_amount t) (cargo_capacity t)
    (repeat_enabled t) (saved_source t) (saved_dest t) (saved_resource t)
    (_dest_cell t) (refinery_loop t) (stone_delivered t) (waiting_timer t)
    (waiting_target t).

Definition set_cargo_amount (v : Q) (t : Truck) : Truck :=
  mkTruck (truck_id t) (position_px t) (current_cell t) (path_cells t)
    (speed_px_per_sec t) (state t) (cargo_type t) v (cargo_capacity t)
    (repeat_enabled t) (saved_source t) (saved_dest t) (saved_resource t)
    (_dest_cell t) (refinery_loop t) (stone_delivered t) (waiting_timer t)
    (waiting_target t).

Definition set_repeat_enabled (v : bool) (t : Truck) : Truck :=
  mkTruck (truck_id t) (position_px t) (current_cell t) (path_cells t)
    (speed_px_per_sec t) (state t) (cargo_type t) (cargo_amount t)
    (cargo_capacity t) v (saved_source t) (saved_dest t) (saved_resource t)
    (_dest_cell t) (refinery_loop t) (stone_delivered t) (waiting_timer t)
    (waiting_target t).

Definition set_saved_source (v : option Coord) (t : Truck) : Truck :=
  mkTruck (truck_id t) (position_px t) (current_cell t) (path_cells t)
    (speed_px_per_sec t) (state t) (cargo_type t) (cargo_amount t)
    (cargo_capacity t) (repeat_enabled t) v (saved_dest t)
    (saved_resource t) (_dest_cell t) (refinery_loop t) (stone_delivered t)
    (waiting_timer t) (waiting_target t).

Definition set_saved_dest (v : option Coord) (t : Truck) : Truck :=
  mkTruck (truck_id t) (position_px t) (current_cell t) (path_cells t)
    (speed_px_per_sec t) (state t) (cargo_type t) (cargo_amount t)
    (cargo_capacity t) (repeat_enabled t) (saved_source t) v
    (saved_resource t) (_dest_cell t) (refinery_loop t) (stone_delivered t)
    (waiting_timer t) (waiting_target t).

Definition set_saved_resource (v : option string) (t : Truck) : Truck :=
  mkTruck (truck_id t) (position_px t) (current_cell t) (path_cells t)
    (speed_px_per_sec t) (state t) (cargo_type t) (cargo_amount t)
    (cargo_capacity t) (repeat_enabled t) (saved_source t) (saved_dest t) v
    (_dest_cell t) (refinery_loop t) (stone_delivered t) (waiting_timer t)
    (waiting_target t).

Definition set_dest_cell (v : option Coord) (t : Truck) : Truck :=
  mkTruck (truck_id t) (position_px t) (current_cell t) (path_cells t)
    (speed_px_per_sec t) (state t) (cargo_type t) (cargo_amount t)
    (cargo_capacity t) (repeat_enabled t) (saved_source t) (saved_dest t)
    (saved_resource t) v (refinery_loop t) (stone_delivered t)
    (waiting_timer t) (waiting_target t).

Definition set_refinery_loop (v : bool) (t : Truck) : Truck :=
  mkTruck (truck_id t) (position_px t) (current_cell t) (path_cells t)
    (speed_px_per_sec t) (state t) (cargo_type t) (cargo_amount t)
    (cargo_capacity t) (repeat_enabled t) (saved_source t) (saved_dest t)
    (saved_resource t) (_dest_cell t) v (stone_delivered t)
    (waiting_timer t) (waiting_target t).

Definition set_stone_delivered (v : option Q) (t : Truck) : Truck :=
  mkTruck (truck_id t) (position_px t) (current_cell t) (path_cells t)
    (speed_px_per_sec t) (state t) (cargo_type t) (cargo_amount t)
    (cargo_capacity t) (repeat_enabled t) (saved_source t) (saved_dest t)
    (saved_resource t) (_dest_cell t) (refinery_loop t) v (waiting_timer t)
    (waiting_target t).

Definition set_waiting_timer (v : option Q) (t : Truck) : Truck :=
  mkTruck (truck_id t) (position_px t) (current_cell t) (path_cells t)
    (speed_px_per_sec t) (state t) (cargo_type t) (cargo_amount t)
    (cargo_capacity t) (repeat_enabled t) (saved_source t) (saved_dest t)
    (saved_resource t) (_dest_cell t) (refinery_loop t) (stone_delivered t)
    v (waiting_target t).

Definition set_waiting_target (v : option Q) (t : Truck) : Truck :=
  mkTruck (truck_id t) (position_px t) (current_cell t) (path_cells t)
    (speed_px_per_sec t) (state t) (cargo_type t) (cargo_amount t)
    (cargo_capacity t) (repeat_enabled t) (saved_source t) (saved_dest t)
    (saved_resource t) (_dest_cell t) (refinery_loop t) (stone_delivered t)
    (waiting_timer t) v.

Definition set_roads (v : gset Coord) (g : Game) : Game :=
  mkGame v (road_grid g) (trees g) (stones g) (resources g) (buildings g)
    (trucks g) (next_truck_id g) (base_cell g) (trucks_built g).

Definition set_road_grid (v : gmap Coord Z) (g : Game) : Game :=
  mkGame (roads g) v (trees g) (stones g) (resources g) (buildings g)
    (trucks g) (next_truck_id g) (base_cell g) (trucks_built g).

Definition set_resources (v : gmap string Q) (g : Game) : Game :=
  mkGame (roads g) (road_grid g) (trees g) (stones g) v (buildings g)
    (trucks g) (next_truck_id g) (base_cell g) (trucks_built g).

Definition set_buildings (v : list Building) (g : Game) : Game :=
  mkGame (roads g) (road_grid g) (trees g) (stones g) (resources g) v
    (trucks g) (next_truck_id g) (base_cell g) (trucks_built g).

Definition set_trucks (v : list Truck) (g : Game) : Game :=
  mkGame (roads g) (road_grid g) (trees g) (stones g) (resources g)
    (buildings g) v (next_truck_id g) (base_cell g) (trucks_built g).

Definition set_next_truck_id (v : Z) (g : Game) : Game :=
  mkGame (roads g) (road_grid g) (trees g) (stones g) (resources g)
    (buildings g) (trucks g) v (base_cell g) (trucks_built g).

Definition set_trucks_built (v : Z) (g : Game) : Game :=
  mkGame (roads g) (road_grid g) (trees g) (stones g) (resources g)
    (buildings g) (trucks g) (next_truck_id g) (base_cell g) v.

(** * Dictionaries of quantities *)

(** [m.get(k, d)] *)
Definition dict_get (k : string) (d : Q) (m : gmap string Q) : Q :=
  default d (m !! k).

(** [m[k] += d]; a missing key raises [KeyError]. *)
Definition dict_add (k : string) (d : Q) (m : gmap string Q)
    : result (gmap string Q) :=
  match m !! k with
  | Some v => Ok (<[k := fadd v d]> m)
  | None => Raise (KeyError k)
  end.

(** * World helpers *)

Definition is_cell_in_base_area (g : Game) (c : Coord) : bool :=
  (fst (base_cell g) <=? fst c) && (fst c <=? fst (base_cell g) + 1) &&
  (snd (base_cell g) <=? snd c) && (snd c <=? snd (base_cell g) + 1).

Definition is_cell_adjacent_to_base (g : Game) (c : Coord) : bool :=
  (fst (base_cell g) - 1 <=? fst c) && (fst c <=? fst (base_cell g) + 2) &&
  (snd (base_cell g) - 1 <=? snd c) && (snd c <=? snd (base_cell g) + 2).

Definition get_building_at_cell (g : Game) (c : Coord) : option Building :=
  List.find (λ b, bool_decide (cell b = c)) (buildings g).

Definition get_truck_by_id (g : Game) (id : Z) : option Truck :=
  List.find (λ t, bool_decide (truck_id t = id)) (trucks g).

(** In-place mutation of the object a lookup returned: the first element
    that satisfies [p] is replaced by its image under [f]. *)
Fixpoint update_first {A : Type} (p : A → bool) (f : A → A) (l : list A) : list A :=
  match l with
  | [] => []
  | x :: rest => if p x then f x :: rest else x :: update_first p f rest
  end.

Definition update_building_at (c : Coord) (f : Building → Building)
    (g : Game) : Game :=
  set_buildings (update_first (λ b, bool_decide (cell b = c)) f (buildings g)) g.

(** [del self.buildings[i]] for the first [i] whose building sits on [c]. *)
Fixpoint remove_first {A : Type} (p : A → bool) (l : list A) : list A :=
  match l with
  | [] => []
  | x :: rest => if p x then rest else x :: remove_first p rest
  end.

Definition world_pos_to_cell (pos_px : Q * Q) : Coord :=
  (to_int (fst pos_px) / GRID_SIZE, to_int (snd pos_px) / GRID_SIZE).

(** ** Nearest road *)

(** The candidates of [find_nearest_road_to_cell] in scan order: rings
    [d = 1 .. max_dist], and in each ring [dx = -d .. d] with
    [dy = d - |dx|] taken with sign [-1], then [1]. *)
Definition ring_cells (c : Coord) (max_dist : Z) : list Coord :=
  d ← seqZ 1 max_dist;
  dx ← seqZ (- d) (2 * d + 1);
  sy ← [-1; 1];
  [(fst c + dx, snd c + sy * (d - Z.abs dx))].

Definition find_nearest_road_to_cell (rg : gmap Coord Z) (c : Coord)
    (max_dist : Z) : option Coord :=
  if is_driveable rg c then Some c
  else List.find (is_driveable rg) (ring_cells c max_dist).

Definition is_cell_connected_to_base_by_roads (g : Game) (c : Coord) : bool :=
  match find_nearest_road_to_cell (road_grid g) c 12,
        find_nearest_road_to_cell (road_grid g) (base_cell g) 12 with
  | Some start, Some goal =>
      (0 <? length (find_path_on_roads (road_grid g) start goal))%nat
  | _, _ => false
  end.

(** * Building and bulldozing *)

Definition paint_cell (c : Coord) (g : Game) : Game :=
  if bool_decide (c ∈ trees g) || bool_decide (c ∈ stones g)
     || bool_decide (c ∈ roads g) then g
  else if Qle_bool (dict_get "bmats" 0 (resources g)) 0 then g
  else
    set_resources
      (<["bmats" := fsub (dict_get "bmats" 0 (resources g)) 1]> (resources g))
      (set_road_grid (<[c := 1]> (road_grid g))
         (set_roads ({[c]} ∪ roads g) g)).

Definition can_place_lumber (g : Game) (c : Coord) : bool :=
  if bool_decide (c ∈ trees g) || bool_decide (c ∈ stones g) then false
  else if bool_decide (c ∈ roads g) then false
  else if existsb (λ b, bool_decide (cell b = c)) (buildings g) then false
  else if is_cell_adjacent_to_base g c then false
  else true.

Definition can_place_quarry (g : Game) (c : Coord) : bool :=
  if bool_decide (c ∈ trees g) || bool_decide (c ∈ stones g) then false
  else if bool_decide (c ∈ roads g) then false
  else if existsb (λ b, bool_decide (cell b = c)) (buildings g) then false
  else if is_cell_adjacent_to_base g c then false
  else true.

Definition can_place_refinery (g : Game) (c : Coord) : bool :=
  if bool_decide (c ∈ trees g) || bool_decide (c ∈ stones g) then false
  else if bool_decide (c ∈ roads g) then false
  else if existsb (λ b, bool_decide (cell b = c)) (buildings g) then false
  else if is_cell_adjacent_to_base g c then false
  else true.

(** [count_trees_in_radius] and [count_stones_in_radius] run the same
    loop over their set. *)
Definition count_in_radius (nodes : gset Coord) (center : Coord)
    (radius : Z) : Z :=
  Z.of_nat (size (filter
    (λ n : Coord, (fst n - fst center) * (fst n - fst center) +
          (snd n - snd center) * (snd n - snd center) ≤ radius * radius)
    nodes)).

Definition count_trees_in_radius (g : Game) (center : Coord) (radius : Z) : Z :=
  count_in_radius (trees g) center radius.

Definition count_stones_in_radius (g : Game) (center : Coord) (radius : Z) : Z :=
  count_in_radius (stones g) center radius.

Definition add_building (b : Building) (g : Game) : Game :=
  set_road_grid (<[cell b := 1]> (road_grid g))
    (set_buildings (buildings g ++ [b]) g).

Definition place_lumber_camp (c : Coord) (g : Game) : Game :=
  if negb (can_place_lumber g c) then g
  else
    add_building
      (mkBuilding lumber c 5
         (fmul (of_int (count_trees_in_radius g c 5)) (1 # 5))
         {["wood" := 0%Q]} None) g.

Definition place_quarry (c : Coord) (g : Game) : Game :=
  if negb (can_place_quarry g c) then g
  else
    add_building
      (mkBuilding quarry c 5
         (fmul (of_int (count_stones_in_radius g c 5)) (1 # 5))
         {["stone" := 0%Q]} None) g.

Definition place_refinery (c : Coord) (g : Game) : Game :=
  if negb (can_place_refinery g c) then g
  else
    add_building
      (mkBuilding refinery c 0 (1 # 5)
         (<["stone" := 0%Q]> {["bmats" := 0%Q]}) None) g.

(** The body of the loop of [execute_bulldoze] for one highlighted cell. *)
Definition bulldoze_cell (c : Coord) (g : Game) : result Game :=
  if bool_decide (c ∈ roads g) then
    let g1 := set_road_grid (<[c := 0]> (road_grid g))
                (set_roads (roads g ∖ {[c]}) g) in
    res ← dict_add "bmats" 1 (resources g1);
    Ok (set_resources res g1)
  else
    match get_building_at_cell g c with
    | Some b =>
        let rg := if bool_decide (is_Some (road_grid g !! cell b))
                  then <[cell b := 0]> (road_grid g) else road_grid g in
        Ok (set_buildings
              (remove_first (λ b', bool_decide (cell b' = c)) (buildings g))
              (set_road_grid rg g))
    | None => Ok g
    end.

(** [execute_bulldoze]; [cells] is the highlighted set in iteration
    order. *)
Fixpoint execute_bulldoze (cells : list Coord) (g : Game) : result Game :=
  match cells with
  | [] => Ok g
  | c :: rest => g1 ← bulldoze_cell c g; execute_bulldoze rest g1
  end.

(** * Trucks *)

Definition spawn_truck_at_base (g : Game) : Game :=
  let px := fst (base_cell g) * GRID_SIZE + GRID_SIZE / 2 in
  let py := snd (base_cell g) * GRID_SIZE + GRID_SIZE / 2 in
  let truck :=
    mkTruck (next_truck_id g) (of_int px, of_int py) (base_cell g) []
      (fmul (of_int GRID_SIZE) (6 # 5)) idle None 0 20 false None None None
      None false None None None in
  set_trucks (trucks g ++ [truck]) (set_next_truck_id (next_truck_id g + 1) g).

(** [TruckFactory.get_truck_cost] *)
Definition get_truck_cost (g : Game) : Z := 10 + 15 * trucks_built g.

Definition build_new_truck (g : Game) : result Game :=
  let cost := get_truck_cost g in
  if Qle_bool (of_int cost) (dict_get "bmats" 0 (resources g)) then
    res ← dict_add "bmats" (- of_int cost) (resources g);
    let g1 := spawn_truck_at_base (set_resources res g) in
    Ok (set_trucks_built (trucks_built g1 + 1) g1)
  else Ok g.

(** [TruckSelector.reset_truck] *)
Definition reset_truck (t : Truck) : Truck :=
  set_dest_cell None
    (set_saved_resource None
       (set_saved_dest None
          (set_saved_source None
             (set_cargo_amount 0
                (set_cargo_type None
                   (set_path_cells [] (set_state idle t))))))).

(** ** Arrival handling ([on_truck_arrival]) *)

(** "[cur_road = nearest(t.current_cell) or t.current_cell]", the nearest
    road of the target, the path between them, and the target cell
    appended.  [None]: no road or no path. *)
Definition leg_to (g : Game) (t : Truck) (target : Coord) : option (list Coord) :=
  let cur_road :=
    default (current_cell t)
      (find_nearest_road_to_cell (road_grid g) (current_cell t) 12) in
  match find_nearest_road_to_cell (road_grid g) target 12 with
  | Some target_road =>
      match find_path_on_roads (road_grid g) cur_road target_road with
      | [] => None
      | path => Some (path ++ [target])
      end
  | None => None
  end.

(** [load_amount = min(5.0, amount_available, t.cargo_capacity - t.cargo_amount)] *)
Definition load_amount_of (amount_available : Q) (t : Truck) : Q :=
  min3 5 amount_available (fsub (cargo_capacity t) (cargo_amount t)).

(** Loading [res] from the base pool.  The result carries the load. *)
Definition load_from_base (res : string) (g : Game) (t : Truck)
    : Q * Game * Truck :=
  let amount_available := dict_get res 0 (resources g) in
  let load_amount := load_amount_of amount_available t in
  if Qltb 0 load_amount then
    (load_amount,
     set_resources
       (<[res := Qmax 0 (fsub amount_available load_amount)]> (resources g)) g,
     set_cargo_amount (fadd (cargo_amount t) load_amount) t)
  else (load_amount, g, t).

(** Loading [res] from the storage of the source building [b] on
    [src_cell], which must be of type [ty] to have anything on offer. *)
Definition load_from_building (ty : BuildingType) (res : string)
    (src_cell : Coord) (b : Building) (g : Game) (t : Truck)
    : Q * Game * Truck :=
  let amount_available :=
    if bool_decide (type b = ty) then dict_get res 0 (storage b) else 0%Q in
  let load_amount := load_amount_of amount_available t in
  if Qltb 0 load_amount then
    (load_amount,
     if bool_decide (type b = ty) then
       update_building_at src_cell
         (λ b', set_storage
            (<[res := Qmax 0 (fsub (dict_get res 0 (storage b')) load_amount)]>
               (storage b')) b') g
     else g,
     set_cargo_amount (fadd (cargo_amount t) load_amount) t)
  else (load_amount, g, t).

(** The loading block of the [to_source] branch.  The boolean tells
    whether the block returned from [on_truck_arrival] (the quarry case of
    a refinery loop). *)
Definition load_cargo (src_cell : Coord) (src_building : Building)
    (g : Game) (t : Truck) : Game * Truck * bool :=
  if bool_decide (cargo_type t = Some "wood") then
    if bool_decide (src_cell = base_cell g) then
      let '(_, g1, t1) := load_from_base "wood" g t in (g1, t1, false)
    else
      let '(_, g1, t1) := load_from_building lumber "wood" src_cell src_building g t in
      (g1, t1, false)
  else if bool_decide (cargo_type t = Some "stone") then
    if bool_decide (src_cell = base_cell g) then
      let '(load_amount, g1, t1) := load_from_base "stone" g t in
      if Qltb 0 load_amount then
        match _dest_cell t1 with
        | Some dest =>
            match get_building_at_cell g1 dest with
            | Some dest_building =>
                if bool_decide (type dest_building = refinery) then
                  (g1, set_stone_delivered (Some load_amount)
                         (set_refinery_loop true t1), false)
                else (g1, t1, false)
            | None => (g1, t1, false)
            end
        | None => (g1, t1, false)
        end
      else (g1, t1, false)
    else
      let '(load_amount, g1, t1) :=
        load_from_building quarry "stone" src_cell src_building g t in
      if Qltb 0 load_amount && refinery_loop t1 then
        match _dest_cell t1 with
        | Some dest =>
            match leg_to g1 t1 dest with
            | Some path2 => (g1, set_state to_dest (set_path_cells path2 t1), true)
            | None => (g1, t1, false)
            end
        | None => (g1, t1, false)
        end
      else (g1, t1, false)
  else if bool_decide (cargo_type t = Some "bmats") then
    if bool_decide (src_cell = base_cell g) then
      let '(_, g1, t1) := load_from_base "bmats" g t in (g1, t1, false)
    else
      let '(_, g1, t1) := load_from_building refinery "bmats" src_cell src_building g t in
      (g1, t1, false)
  else
    (g,
     set_cargo_type
       (Some match type src_building with
             | lumber => "wood"
             | quarry => "stone"
             | refinery => "bmats"
             end) t,
     false).

(** "Now go to destination": both arms of [if dest == self.base_cell]
    run the same steps. *)
Definition go_to_destination (g : Game) (t : Truck) : Truck :=
  match _dest_cell t with
  | Some dest =>
      if bool_decide (dest = base_cell g) then
        match leg_to g t dest with
        | Some path2 => set_state to_dest (set_path_cells path2 t)
        | None => t
        end
      else
        match leg_to g t dest with
        | Some path2 => set_state to_dest (set_path_cells path2 t)
        | None => t
        end
  | None => t
  end.

(** The [to_source] branch. *)
Definition arrive_at_source (g : Game) (t : Truck) : Game * Truck :=
  match saved_source t with
  | None => (g, set_state idle t)
  | Some src_cell =>
      if bool_decide (current_cell t = src_cell) then
        match get_building_at_cell g src_cell with
        | None => (g, set_state idle t)
        | Some src_building =>
            let '(g1, t1, returned) := load_cargo src_cell src_building g t in
            if returned then (g1, t1) else (g1, go_to_destination g1 t1)
        end
      else (g, t)
  end.

(** The body of the [waiting_for_bmats] branch, for a given value of the
    name [dt] that its first statement reads. *)
Definition wait_for_bmats (dt : Q) (g : Game) (t : Truck) : Game * Truck :=
  let t0 := set_waiting_timer (Some (fadd (default 0%Q (waiting_timer t)) dt)) t in
  match _dest_cell t0 with
  | Some dest_cell =>
      match get_building_at_cell g dest_cell with
      | Some dest_building =>
          if bool_decide (type dest_building = refinery) then
            let bmat_available := dict_get "bmats" 0 (storage dest_building) in
            let target := default 5%Q (waiting_target t0) in
            if Qle_bool target bmat_available then
              let t1 := set_cargo_amount target (set_cargo_type (Some "bmats") t0) in
              let g1 :=
                update_building_at dest_cell
                  (λ b, set_storage
                     (<["bmats" := fsub bmat_available target]> (storage b)) b) g in
              match leg_to g1 t1 (base_cell g1) with
              | Some path_to_base =>
                  (g1, set_dest_cell (Some (base_cell g1))
                         (set_state to_dest (set_path_cells path_to_base t1)))
              | None => (g1, set_state idle t1)
              end
            else (g, t0)
          else (g, t0)
      | None => (g, t0)
      end
  | None => (g, t0)
  end.

(** [on_truck_arrival] has the parameters [self] and [t] only and main.py
    binds no module-level [dt]: reading the name raises [NameError]. *)
Definition global_dt : result Q := Raise (NameError "dt").

(** "Repeat or return to idle", the tail of the [to_dest] branch. *)
Definition stop_truck (t : Truck) : Truck :=
  set_dest_cell None (set_cargo_type None (set_state idle t)).

Definition repeat_or_idle (g : Game) (t : Truck) : Truck :=
  match saved_source t, saved_dest t, saved_resource t with
  | Some saved_src, Some saved_dst, Some saved_res =>
      if repeat_enabled t && negb (bool_decide (saved_res = EmptyString)) then
        match leg_to g t saved_src with
        | Some path_back =>
            set_dest_cell (Some saved_dst)
              (set_cargo_type (Some saved_res)
                 (set_state to_source (set_path_cells path_back t)))
        | None => stop_truck t
        end
      else stop_truck t
  | _, _, _ => stop_truck t
  end.

(** [t.cargo_type in kinds and t.cargo_amount > 0]: the cargo type when
    the test succeeds. *)
Definition deliverable (t : Truck) (kinds : list string) : option string :=
  match cargo_type t with
  | Some k =>
      if bool_decide (k ∈ kinds) && Qltb 0 (cargo_amount t) then Some k else None
  | None => None
  end.

(** [self.resources[t.cargo_type] += delivered; t.cargo_amount = 0.0] *)
Definition deliver_to_pool (k : string) (g : Game) (t : Truck)
    : result (Game * Truck) :=
  let delivered := to_int (cargo_amount t) in
  res ← dict_add k (of_int delivered) (resources g);
  Ok (set_resources res g, set_cargo_amount 0 t).

(** Stone handed to the refinery on [dest_cell]. *)
Definition deliver_to_refinery (dest_cell : Coord) (g : Game) (t : Truck)
    : Z * Game * Truck :=
  let delivered := to_int (cargo_amount t) in
  (delivered,
   update_building_at dest_cell
     (λ b, set_storage
        (<["stone" := fadd (dict_get "stone" 0 (storage b)) (of_int delivered)]>
           (storage b)) b) g,
   set_cargo_amount 0 t).

(** The [to_dest] branch. *)
Definition arrive_at_dest (g : Game) (t : Truck) : result (Game * Truck) :=
  match _dest_cell t with
  | None => Ok (g, set_state idle t)
  | Some dest_cell =>
      if bool_decide (current_cell t = dest_cell) then
        if bool_decide (dest_cell = base_cell g) then
          match deliverable t ["wood"; "stone"; "bmats"] with
          | Some k =>
              '(g1, t1) ← deliver_to_pool k g t;
              Ok (g1, repeat_or_idle g1 t1)
          | None => Ok (g, repeat_or_idle g t)
          end
        else
          match get_building_at_cell g dest_cell with
          | Some dest_building =>
              if bool_decide (is_Some (deliverable t ["stone"]))
                 && bool_decide (type dest_building = refinery) then
                let '(delivered, g1, t1) := deliver_to_refinery dest_cell g t in
                if 0 <? delivered then
                  Ok (g1, set_waiting_target (Some (of_int delivered))
                            (set_waiting_timer (Some 0%Q)
                               (set_state waiting_for_bmats t1)))
                else Ok (g1, repeat_or_idle g1 t1)
              else
                match deliverable t ["wood"; "bmats"] with
                | Some k =>
                    '(g1, t1) ← deliver_to_pool k g t;
                    Ok (g1, repeat_or_idle g1 t1)
                | None => Ok (g, repeat_or_idle g t)
                end
          | None => Ok (g, repeat_or_idle g t)
          end
      else
        if refinery_loop t && bool_decide (cargo_type t = Some "stone")
           && Qeq_bool (cargo_amount t) 0 then
          if is_cell_in_base_area g (current_cell t) then
            let '(load_amount, g1, t1) := load_from_base "stone" g t in
            if Qltb 0 load_amount then Ok (g1, repeat_or_idle g1 t1)
            else Ok (g, set_state idle t)
          else Ok (g, repeat_or_idle g t)
        else Ok (g, repeat_or_idle g t)
  end.

Definition on_truck_arrival (g : Game) (t : Truck) : result (Game * Truck) :=
  match state t with
  | to_source => Ok (arrive_at_source g t)
  | waiting_for_bmats => dt ← global_dt; Ok (wait_for_bmats dt g t)
  | to_dest => arrive_at_dest g t
  | _ => Ok (g, t)
  end.

(** ** Movement ([update_truck]) *)

Definition cell_center (c : Coord) : Q * Q :=
  (of_int (fst c * GRID_SIZE + GRID_SIZE / 2),
   of_int (snd c * GRID_SIZE + GRID_SIZE / 2)).

Definition update_truck (g : Game) (t : Truck) (dt : Q) : result (Game * Truck) :=
  match path_cells t with
  | [] => Ok (g, t)
  | next_cell :: rest =>
      let target_px := cell_center next_cell in
      let vx := fsub (fst target_px) (fst (position_px t)) in
      let vy := fsub (snd target_px) (snd (position_px t)) in
      let dist := fsqrt (fadd (fmul vx vx) (fmul vy vy)) in
      if Qltb dist (1 # 1000) then
        let t1 :=
          set_path_cells rest
            (set_current_cell next_cell (set_position_px target_px t)) in
        match rest with
        | [] => on_truck_arrival g t1
        | _ :: _ => Ok (g, t1)
        end
      else
        let ux := fdiv vx dist in
        let uy := fdiv vy dist in
        let step := fmul (speed_px_per_sec t) dt in
        if Qle_bool dist step then Ok (g, set_position_px target_px t)
        else
          Ok (g, set_position_px
                   (fadd (fst (position_px t)) (fmul ux step),
                    fadd (snd (position_px t)) (fmul uy step)) t)
  end.

(** * The simulation tick ([update]) *)

(** The body of the production loop for one building. *)
Definition produce (g : Game) (dt : Q) (b : Building) : Building :=
  if Qle_bool (production_rate_per_sec b) 0 then b
  else if negb (is_cell_connected_to_base_by_roads g (cell b)) then b
  else
    match type b with
    | lumber =>
        set_storage
          (<["wood" := fadd (dict_get "wood" 0 (storage b))
                            (fmul (production_rate_per_sec b) dt)]> (storage b)) b
    | quarry =>
        set_storage
          (<["stone" := fadd (dict_get "stone" 0 (storage b))
                             (fmul (production_rate_per_sec b) dt)]> (storage b)) b
    | refinery =>
        let stone_available := dict_get "stone" 0 (storage b) in
        if Qltb 0 stone_available then
          let timer := fadd (default 0%Q (conversion_timer b)) dt in
          if Qle_bool 5 timer then
            set_conversion_timer (Some 0%Q)
              (set_storage
                 (<["bmats" := fadd (dict_get "bmats" 0 (storage b)) 1]>
                    (<["stone" := fsub stone_available 1]> (storage b))) b)
          else set_conversion_timer (Some timer) b
        else b
    end.

(** The truck loop: the world is threaded through the trucks in list
    order, every truck is replaced by its updated self. *)
Fixpoint update_trucks (g : Game) (dt : Q) (ts : list Truck)
    : result (Game * list Truck) :=
  match ts with
  | [] => Ok (g, [])
  | t :: rest =>
      '(g1, t1) ← update_truck g t dt;
      '(g2, rest') ← update_trucks g1 dt rest;
      Ok (g2, t1 :: rest')
  end.

Definition update (dt : Q) (g : Game) : result Game :=
  let g1 := set_buildings (map (produce g dt) (buildings g)) g in
  '(g2, ts) ← update_trucks g1 dt (trucks g1);
  Ok (set_trucks ts g2).

(** * Assignments ([start_assignment]) *)

(** The assignments every successful branch of [start_assignment] makes. *)
Definition routed (path : list Coord) (st : TruckState) (start_cell : Coord)
    (source dest : Coord) (resource : string) (t : Truck) : Truck :=
  set_saved_resource (Some resource)
    (set_saved_dest (Some dest)
       (set_saved_source (Some source)
          (set_dest_cell (Some dest)
             (set_current_cell start_cell
                (set_cargo_type (Some resource)
                   (set_state st (set_path_cells path t))))))).

(** "Building close to base": [Some] is the truck the branch returned
    with, [None] means control falls through to the normal pathfinding. *)
Definition assign_close (g : Game) (truck : Truck)
    (start_cell source_road dest_road : Coord)
    (source dest : Coord) (resource : string) : option Truck :=
  if Z.abs (fst source - fst (base_cell g))
     + Z.abs (snd source - snd (base_cell g)) <=? 3 then
    if bool_decide (source_road = dest_road) then
      match find_nearest_road_to_cell (road_grid g) (base_cell g) 12 with
      | Some base_road =>
          if bool_decide (base_road ≠ source_road) then
            match find_path_on_roads (road_grid g) start_cell base_road with
            | [] => None
            | path1 =>
                Some (routed (path1 ++ [source]) to_source start_cell
                        source dest resource truck)
            end
          else Some truck
      | None => Some truck
      end
    else None
  else None.

Definition dest_is_refinery (g : Game) (dest : Coord) : bool :=
  match get_building_at_cell g dest with
  | Some dest_building => bool_decide (type dest_building = refinery)
  | None => false
  end.

(** What [start_assignment] does to the truck it found. *)
Definition assign (g : Game) (source dest : Coord) (resource : string)
    (truck : Truck) : Truck :=
  match find_nearest_road_to_cell (road_grid g)
          (world_pos_to_cell (position_px truck)) 12,
        find_nearest_road_to_cell (road_grid g) source 12,
        find_nearest_road_to_cell (road_grid g) dest 12 with
  | Some start_cell, Some source_road, Some dest_road =>
      if bool_decide (source = base_cell g) && bool_decide (resource = "stone") then
        if negb (is_cell_in_base_area g (current_cell truck)) then
          match find_nearest_road_to_cell (road_grid g) (base_cell g) 12 with
          | Some base_road =>
              match find_path_on_roads (road_grid g) start_cell base_road with
              | [] => truck
              | path_to_base =>
                  set_refinery_loop true
                    (routed (path_to_base ++ [base_cell g]) to_source start_cell
                       source dest resource truck)
              end
          | None => truck
          end
        else
          match find_nearest_road_to_cell (road_grid g) dest 12 with
          | Some refinery_road =>
              match find_path_on_roads (road_grid g) start_cell refinery_road with
              | [] => truck
              | path_to_refinery =>
                  set_refinery_loop true
                    (routed (path_to_refinery ++ [dest]) to_dest start_cell
                       source dest resource truck)
              end
          | None => truck
          end
      else
        match assign_close g truck start_cell source_road dest_road
                source dest resource with
        | Some truck' => truck'
        | None =>
            match find_path_on_roads (road_grid g) start_cell source_road with
            | [] => truck
            | path1 =>
                let t1 := routed path1 to_source start_cell source dest resource truck in
                let t2 :=
                  if bool_decide (source = base_cell g)
                     && bool_decide (resource = "stone")
                     && dest_is_refinery g dest
                  then set_refinery_loop true t1 else t1 in
                if bool_decide (resource = "stone")
                   && bool_decide (dest ≠ base_cell g)
                   && dest_is_refinery g dest
                then set_refinery_loop true t2 else t2
            end
        end
  | _, _, _ => truck
  end.

Definition start_assignment (id : Z) (source dest : Coord) (resource : string)
    (g : Game) : Game :=
  set_trucks
    (update_first (λ t, bool_decide (truck_id t = id))
       (assign g source dest resource) (trucks g)) g.

(** The repeat button of the confirm panel. *)
Definition toggle_repeat (id : Z) (g : Game) : Game :=
  set_trucks
    (update_first (λ t, bool_decide (truck_id t = id))
       (λ t, set_repeat_enabled (negb (repeat_enabled t)) t) (trucks g)) g.

(** The reset button of the truck panel. *)
Definition reset_truck_by_id (id : Z) (g : Game) : Game :=
  set_trucks
    (update_first (λ t, bool_decide (truck_id t = id)) reset_truck (trucks g)) g.

(** * The game as a transition system *)

(** [Game.__init__] for the base cell and the tree and stone sets that
    the random generator produced. *)
Definition new_game (base : Coord) (trees0 stones0 : gset Coord) : Game :=
  let g0 :=
    mkGame ∅
      (<[(fst base + 1, snd base + 1) := 1]>
         (<[(fst base + 1, snd base) := 1]>
            (<[(fst base, snd base + 1) := 1]>
               (<[(fst base, snd base) := 1]> ∅))))
      trees0 stones0
      (list_to_map [("oil", 0%Q); ("steel", 0%Q); ("wood", 0%Q);
                    ("stone", 0%Q); ("bmats", 10%Q)])
      [] [] 1 base 0 in
  set_trucks_built 2 (spawn_truck_at_base (spawn_truck_at_base g0)).

(** What [_generate_resources_around_view] guarantees: no tree or stone
    in the base area, no stone on a tree. *)
Definition resources_generated (base : Coord) (trees0 stones0 : gset Coord) : Prop :=
  (∀ c, c ∈ trees0 → is_cell_in_base_area (new_game base trees0 stones0) c = false) ∧
  (∀ c, c ∈ stones0 → is_cell_in_base_area (new_game base trees0 stones0) c = false) ∧
  (∀ c, c ∈ stones0 → c ∉ trees0).

(** The commands the input layer issues, and the tick. *)
Inductive Command : Type :=
  | PaintCell (c : Coord)
  | PlaceLumberCamp (c : Coord)
  | PlaceQuarry (c : Coord)
  | PlaceRefinery (c : Coord)
  | ExecuteBulldoze (cells : list Coord)
  | BuildNewTruck
  | StartAssignment (id : Z) (source dest : Coord) (resource : string)
  | ToggleRepeat (id : Z)
  | ResetTruck (id : Z)
  | Update (dt : Q).

Definition run_command (cmd : Command) (g : Game) : result Game :=
  match cmd with
  | PaintCell c => Ok (paint_cell c g)
  | PlaceLumberCamp c => Ok (place_lumber_camp c g)
  | PlaceQuarry c => Ok (place_quarry c g)
  | PlaceRefinery c => Ok (place_refinery c g)
  | ExecuteBulldoze cells => execute_bulldoze cells g
  | BuildNewTruck => build_new_truck g
  | StartAssignment id source dest resource =>
      Ok (start_assignment id source dest resource g)
  | ToggleRepeat id => Ok (toggle_repeat id g)
  | ResetTruck id => Ok (reset_truck_by_id id g)
  | Update dt => update dt g
  end.

Fixpoint run_commands (cmds : list Command) (g : Game) : result Game :=
  match cmds with
  | [] => Ok g
  | cmd :: rest => g1 ← run_command cmd g; run_commands rest g1
  end.

Inductive reachable : Game → Prop :=
  | reachable_init base trees0 stones0 :
      resources_generated base trees0 stones0 →
      reachable (new_game base trees0 stones0)
  | reachable_step g cmd g' :
      reachable g → run_command cmd g = Ok g' → reachable g'.

(** * Specification-side definitions *)

(** ** The loop invariant

    [lvl] is a ghost labelling of the discovered cells by their hop
    count, [k] the level of the cell being expanded, [pend] the cell
    popped from the queue whose neighbours are being visited. *)

Record bfs_inv (rg : gmap Coord Z) (start : Coord)
    (lvl : Coord → nat) (k : nat)
    (came : gmap Coord (option Coord)) (queue : list Coord)
    (pend : option Coord) : Prop := {
  inv_start : came !! start = Some None;
  inv_lvl0 : lvl start = 0%nat;
  inv_root : ∀ c, came !! c = Some None → c = start;
  inv_parent : ∀ c p, came !! c = Some (Some p) →
    is_Some (came !! p) ∧ c ∈ neighbors4 p ∧
    is_driveable rg c = true ∧ lvl c = S (lvl p);
  inv_min : ∀ c n, is_Some (came !! c) → walk rg start c n → (lvl c ≤ n)%nat;
  inv_bound : ∀ c, is_Some (came !! c) → (lvl c < size came)%nat;
  inv_queue_in : ∀ c, c ∈ queue → is_Some (came !! c);
  inv_queue_lvl : ∃ q1 q2, queue = q1 ++ q2 ∧
    Forall (λ c, lvl c = k) q1 ∧ Forall (λ c, lvl c = S k) q2;
  inv_pend : ∀ c, pend = Some c → is_Some (came !! c) ∧ lvl c = k;
  inv_complete : ∀ c n, walk rg start c n → (n ≤ k)%nat → is_Some (came !! c);
  inv_closed : ∀ c, is_Some (came !! c) → c ∉ queue → pend ≠ Some c →
    ∀ nb, nb ∈ neighbors4 c → is_driveable rg nb = true → is_Some (came !! nb)
}.


(** The driveable cells the search has not discovered yet. *)
Definition unvisited (rg : gmap Coord Z) (came : gmap Coord (option Coord))
    : gset Coord :=
  filter (λ c, is_driveable rg c = true ∧ came !! c = None) (dom rg).


(** ** Running the simulation *)

Global Instance result_fmap : FMap result := λ A B f m,
  match m with
  | Ok a => Ok (f a)
  | Raise e => Raise e
  end.

(** [n] calls of [update(dt)]. *)
Fixpoint run_ticks (n : nat) (dt : Q) (g : Game) : result Game :=
  match n with
  | O => Ok g
  | S n' => g1 ← update dt g; run_ticks n' dt g1
  end.


(** The truck stands on the last cell of its path: the next tick pops it
    and calls [on_truck_arrival]. *)
Definition arrives_now (t : Truck) : bool :=
  match path_cells t with
  | [next_cell] =>
      let target_px := cell_center next_cell in
      let vx := fsub (fst target_px) (fst (position_px t)) in
      let vy := fsub (snd target_px) (snd (position_px t)) in
      Qltb (fsqrt (fadd (fmul vx vx) (fmul vy vy))) (1 # 1000)
  | _ => false
  end.

(** What is read off a world in the examples: the storage of the building
    on a cell, and the trip data of a truck. *)
Definition stock (c : Coord) (k : string) (g : Game) : option Q :=
  b ← get_building_at_cell g c; storage b !! k.

Definition trip (id : Z) (g : Game)
    : option (TruckState * Coord * list Coord * option string * Q) :=
  t ← get_truck_by_id g id;
  Some (state t, current_cell t, path_cells t, cargo_type t, cargo_amount t).

(** The world after a sequence of commands (the world it started from, should
    a command raise). *)
Definition world_after (cmds : list Command) (g0 : Game) : Game :=
  match run_commands cmds g0 with
  | Ok g => g
  | Raise _ => g0
  end.

(** ** Example worlds

    The base is on (5,5)..(6,6); five trees and five stones lie within
    five cells of (8,5). *)

Definition ex_trees : gset Coord :=
  list_to_set [(10, 5); (10, 6); (10, 7); (11, 5); (11, 6)].

Definition ex_stones : gset Coord :=
  list_to_set [(9, 8); (9, 9); (10, 8); (10, 9); (11, 8)].

Definition ex_start : Game := new_game (5, 5) ex_trees ex_stones.

(** A quarry and a refinery next to each other, one road cell to the base;
    truck 1 hauls stone from the quarry to the refinery; 36 ticks of one
    second. *)
Definition c1_world : Game :=
  world_after
    ([PaintCell (7, 5); PlaceQuarry (8, 5); PlaceRefinery (8, 6);
      StartAssignment 1 (8, 5) (8, 6) "stone"] ++ replicate 36 (Update 1))
    ex_start.

(** Truck 1 as it stands in [c1_world]. *)
Definition c1_truck : Truck :=
  mkTruck 1 (272, 208)%Q (8, 6) [] (192 # 5) waiting_for_bmats (Some "stone")
    0 20 false (Some (8, 5)) (Some (8, 6)) (Some "stone") (Some (8, 6)) true
    None (Some 0%Q) (Some 5%Q).

(** A refinery one road cell away from the base, holding three stone. *)
Definition c3_world : Game :=
  update_building_at (8, 5)
    (set_storage (<["stone" := 3%Q]> {["bmats" := 0%Q]}))
    (world_after [PaintCell (7, 5); PlaceRefinery (8, 5)] ex_start).

(** A lumber camp with a road painted over its cell. *)
Definition c4_world : Game :=
  world_after [PlaceLumberCamp (10, 3); PaintCell (10, 3)] ex_start.

(** Truck 1 fetches wood from a lumber camp; the road cell between the
    camp and the base is bulldozed while the truck stands in front of the
    camp. *)
Definition c6_world : Game :=
  world_after
    ([PaintCell (7, 5); PlaceLumberCamp (8, 5);
      StartAssignment 1 (8, 5) (5, 5) "wood"]
     ++ replicate 6 (Update 1) ++ [ExecuteBulldoze [(7, 5)]])
    ex_start.

(** Truck 1 repeats a wood trip; the road cell is bulldozed behind it on
    its way back, two ticks later it stands on the base with one path cell
    left. *)
Definition c7_world : Game :=
  world_after
    ([PaintCell (7, 5); PlaceLumberCamp (8, 5);
      StartAssignment 1 (8, 5) (5, 5) "wood"; ToggleRepeat 1]
     ++ replicate 12 (Update 1) ++ [ExecuteBulldoze [(7, 5)]]
     ++ replicate 2 (Update 1))
    ex_start.

(** Truck 1 as it stands in [c7_world]. *)
Definition c7_truck : Truck :=
  mkTruck 1 (176, 176)%Q (5, 5) [(5, 5)] (192 # 5) to_dest (Some "wood")
    5 20 true (Some (8, 5)) (Some (5, 5)) (Some "wood") (Some (5, 5)) false
    None None None.

(** The lumber camp of [c4_world] and the refinery of [c3_world]. *)
Definition c4_camp : Building :=
  mkBuilding lumber (10, 3) 5 1 {["wood" := 0%Q]} None.

Definition c3_refinery : Building :=
  mkBuilding refinery (8, 5) 0 (1 # 5) (<["stone" := 3%Q]> {["bmats" := 0%Q]}) None.

(** Truck 1 of [c7_world] once the tick has popped its last path cell, and
    what [on_truck_arrival] turns it and the world into. *)
Definition c7_arriving : Truck := set_path_cells [] c7_truck.

Definition c7_world_after : Game :=
  set_resources (<["wood" := 5%Q]> (resources c7_world)) c7_world.

Definition c7_truck_after : Truck :=
  stop_truck (set_cargo_amount 0 c7_arriving).

(** ** Refineries *)



(** ** Invariants of the reachable worlds *)

(** A truck's cargo stays between zero and its capacity, the capacity is
    the 20 units every truck is spawned with, and a recorded waiting target
    lies in the same range. *)
Definition truck_ok (t : Truck) : Prop :=
  (0 <= cargo_amount t)%Q ∧ (cargo_amount t <= cargo_capacity t)%Q ∧
  cargo_capacity t = 20%Q ∧
  match waiting_target t with
  | Some w => (0 <= w)%Q ∧ (w <= cargo_capacity t)%Q
  | None => True
  end.

(** Every entry of a pool is a non-negative integer. *)
Definition pool_ok (pool : gmap string Q) : Prop :=
  ∀ k v, pool !! k = Some v → ∃ z : Z, 0 ≤ z ∧ v = inject_Z z.

Record world_ok (g : Game) : Prop := {
  ok_pool : pool_ok (resources g);
  ok_trucks : Forall truck_ok (trucks g);
  ok_buildings :
    Forall (λ b, is_cell_adjacent_to_base g (cell b) = false) (buildings g)
}.

(** The part of a truck [truck_ok] talks about. *)
Definition cargo_view (t : Truck) : Q * Q * option Q :=
  (cargo_amount t, cargo_capacity t, waiting_target t).

(** Two worlds with the same base and the same building sites. *)
Definition same_site (g g' : Game) : Prop :=
  base_cell g' = base_cell g ∧
  map cell (buildings g') = map cell (buildings g).

(** [0 <= cargo_amount <= cargo_capacity] *)
Definition cargo_within (t : Truck) : Prop :=
  (0 <= cargo_amount t)%Q ∧ (cargo_amount t <= cargo_capacity t)%Q.

(** ** The production step in binary64

    The statements of [update] that compute with [dt], replayed on
    binary64 numbers, to show where rounding makes the program differ
    from the exact model: the refinery branch on the stone, the bmats and
    the conversion timer of a refinery, and the stock of a lumber camp or
    a quarry. *)
Definition refinery_tick_float (dt : float) (st : float * float * float)
    : float * float * float :=
  let '(stone_available, bmats, conversion_timer) := st in
  if (0 <? stone_available)%float then
    let conversion_timer := (conversion_timer + dt)%float in
    if (5 <=? conversion_timer)%float then
      ((stone_available - 1)%float, (bmats + 1)%float, 0%float)
    else (stone_available, bmats, conversion_timer)
  else st.

Definition stock_tick_float (production_rate_per_sec dt stock : float) : float :=
  (stock + production_rate_per_sec * dt)%float.

(** The binary64 numbers nearest to 0.1, 0.2 and 0.3. *)
Definition float_0_1 : float := 0x1.999999999999ap-4%float.
Definition float_0_2 : float := 0x1.999999999999ap-3%float.
Definition float_0_3 : float := 0x1.3333333333333p-2%float.

(** * Further definitions for the properties below *)

(** The Manhattan distance of two cells. *)
Definition manhattan (a b : Coord) : Z :=
  Z.abs (fst b - fst a) + Z.abs (snd b - snd a).

(** The bmats the pool holds ([self.resources.get("bmats", 0)]). *)
Definition bmats_of (g : Game) : Q := dict_get "bmats" 0 (resources g).

(** The build tools of [handle_events]: a click with the lumber, quarry
    or refinery tool. *)
Definition place_building (ty : BuildingType) (c : Coord) (g : Game) : Game :=
  match ty with
  | lumber => place_lumber_camp c g
  | quarry => place_quarry c g
  | refinery => place_refinery c g
  end.

(** What the map of a reachable world satisfies. *)
Record map_ok (g : Game) : Prop := {
  ok_roads_trees : ∀ c, c ∈ roads g → c ∉ trees g;
  ok_roads_stones : ∀ c, c ∈ roads g → c ∉ stones g;
  ok_stones_trees : ∀ c, c ∈ stones g → c ∉ trees g;
  ok_sites : ∀ c, c ∈ map cell (buildings g) → (c ∉ trees g) ∧ (c ∉ stones g);
  ok_one_building : NoDup (map cell (buildings g));
  ok_roads_driveable : ∀ c, c ∈ roads g → is_driveable (road_grid g) c = true;
  ok_grid_binary : ∀ c v, road_grid g !! c = Some v → v = 0 ∨ v = 1
}.

(** Two worlds with the same map, base and truck factory. *)
Definition same_map (g g' : Game) : Prop :=
  roads g' = roads g ∧ road_grid g' = road_grid g ∧ trees g' = trees g ∧
  stones g' = stones g ∧ base_cell g' = base_cell g ∧
  next_truck_id g' = next_truck_id g ∧ trucks_built g' = trucks_built g.

(** What a tick never changes of a building: type, cell, radius and
    production rate. *)
Definition site_view (b : Building) : BuildingType * Coord * Z * Q :=
  (type b, cell b, radius_cells b, production_rate_per_sec b).

(** What a tick never changes of a truck: its number, speed and
    capacity, the repeat flag and the saved assignment. *)
Definition truck_fixed (t : Truck)
    : Z * Q * Q * bool * option Coord * option Coord * option string :=
  (truck_id t, speed_px_per_sec t, cargo_capacity t, repeat_enabled t,
   saved_source t, saved_dest t, saved_resource t).

Definition route_view (t : Truck) : TruckState * list Coord :=
  (state t, path_cells t).

(** What a tick leaves of the world: the map, the sites of the buildings
    and the keys of the pool. *)
Record tick_frame (g g' : Game) : Prop := {
  tf_map : same_map g g';
  tf_sites : map site_view (buildings g') = map site_view (buildings g);
  tf_keys : ∀ k, is_Some (resources g !! k) → is_Some (resources g' !! k)
}.

(** A truck that waits for bmats has no path left. *)
Definition waiting_parked (t : Truck) : Prop :=
  state t = waiting_for_bmats → path_cells t = [].

(** The pool has the keys the deliveries index. *)
Definition pool_keys (g : Game) : Prop :=
  ∀ k, k ∈ ["wood"; "stone"; "bmats"] → is_Some (resources g !! k).

(** The trucks carry the numbers 1, 2, ... in list order, and the
    counters of the game and of the truck factory agree with their
    number. *)
Definition fleet_ok (g : Game) : Prop :=
  map truck_id (trucks g) = seqZ 1 (Z.of_nat (length (trucks g))) ∧
  next_truck_id g = Z.of_nat (length (trucks g)) + 1 ∧
  trucks_built g = Z.of_nat (length (trucks g)) ∧
  (2 ≤ length (trucks g))%nat.

Record game_ok (g : Game) : Prop := {
  gk_keys : pool_keys g;
  gk_parked : Forall waiting_parked (trucks g);
  gk_fleet : fleet_ok g;
  gk_map : map_ok g
}.

(** * The bulldoze tool ([bulldoze.py])

    [BulldozeManager] without its button rectangle. *)
Record BulldozeManager : Type := mkBulldozeManager {
  is_dragging : bool;
  drag_start_cell : option Coord;
  drag_end_cell : option Coord;
  highlighted_cells : gset Coord
}.

Definition start_drag (c : Coord) (m : BulldozeManager) : BulldozeManager :=
  mkBulldozeManager true (Some c) (Some c) {[c]}.

Definition update_drag (c : Coord) (m : BulldozeManager) : BulldozeManager :=
  if negb (is_dragging m) || bool_decide (drag_start_cell m = None) then m
  else
    mkBulldozeManager (is_dragging m) (drag_start_cell m) (Some c)
      ({[c]} ∪ highlighted_cells m).

Definition end_drag (m : BulldozeManager) : BulldozeManager :=
  mkBulldozeManager false (drag_start_cell m) (drag_end_cell m)
    (highlighted_cells m).

Definition clear_highlight (m : BulldozeManager) : BulldozeManager :=
  mkBulldozeManager (is_dragging m) None None ∅.

(** The mouse motions of a drag, in order. *)
Definition drag_over (cells : list Coord) (m : BulldozeManager) : BulldozeManager :=
  foldl (λ m' c, update_drag c m') m cells.

(** * Lines of cells *)

(** The [while True] loop of [cells_on_line] (Bresenham), with fuel; the
    cells are listed in the order in which the loop adds them to its set.
    [None]: the fuel ran out before the loop reached the end cell. *)
Fixpoint line_loop (fuel : nat) (x1 y1 dx dy sx sy : Z) (x y err : Z)
    : option (list Coord) :=
  match fuel with
  | O => None
  | S fuel' =>
      if bool_decide (x = x1) && bool_decide (y = y1) then Some [(x, y)]
      else
        let e2 := 2 * err in
        let '(err1, x') := if dy <=? e2 then (err + dy, x + sx) else (err, x) in
        let '(err2, y') := if e2 <=? dx then (err1 + dx, y + sy) else (err1, y) in
        cons (x, y) <$> line_loop fuel' x1 y1 dx dy sx sy x' y' err2
  end.

Definition line_cells (fuel : nat) (start end_ : Coord) : option (list Coord) :=
  let dx := Z.abs (fst end_ - fst start) in
  let dy := - Z.abs (snd end_ - snd start) in
  let sx := if fst start <? fst end_ then 1 else -1 in
  let sy := if snd start <? snd end_ then 1 else -1 in
  line_loop fuel (fst end_) (snd end_) dx dy sx sy (fst start) (snd start) (dx + dy).

Definition cells_on_line (fuel : nat) (start end_ : Coord) : option (gset Coord) :=
  list_to_set <$> line_cells fuel start end_.

(** [BulldozeManager._get_cells_between]: the [for _ in range(n)] loop,
    the cells in the order in which they are added. *)
Fixpoint between_loop (n : nat) (x1 y1 dx2 dy2 x_inc y_inc : Z) (x y error : Z)
    : list Coord :=
  match n with
  | O => []
  | S n' =>
      (x, y) ::
      if bool_decide (x = x1) && bool_decide (y = y1) then []
      else if 0 <? error then
        between_loop n' x1 y1 dx2 dy2 x_inc y_inc (x + x_inc) y (error - dy2)
      else
        between_loop n' x1 y1 dx2 dy2 x_inc y_inc x (y + y_inc) (error + dx2)
  end.

Definition cells_between (start end_ : Coord) : list Coord :=
  let dx := Z.abs (fst end_ - fst start) in
  let dy := Z.abs (snd end_ - snd start) in
  let n := Z.to_nat (1 + dx + dy) in
  let x_inc := if fst start <? fst end_ then 1 else -1 in
  let y_inc := if snd start <? snd end_ then 1 else -1 in
  between_loop n (fst end_) (snd end_) (dx * 2) (dy * 2) x_inc y_inc
    (fst start) (snd start) (dx - dy).

Definition _get_cells_between (start end_ : Coord) : gset Coord :=
  list_to_set (cells_between start end_).

(** Consecutive cells of a list touch, at least at a corner. *)
Fixpoint touching_chain (l : list Coord) : Prop :=
  match l with
  | c :: (c' :: _) as l' =>
      Z.max (Z.abs (fst c' - fst c)) (Z.abs (snd c' - snd c)) = 1 ∧
      touching_chain l'
  | _ => True
  end.

(** Consecutive cells of a list share an edge. *)
Fixpoint edge_chain (l : list Coord) : Prop :=
  match l with
  | c :: (c' :: _) as l' => manhattan c c' = 1 ∧ edge_chain l'
  | _ => True
  end.

(** What the loop of [cells_on_line] returns from the state after [a]
    steps in x and [b] steps in y, for a line from [(x0, y0)] to
    [(x1, y1)] with the lengths [D], [A] and the directions [sx], [sy]. *)
Definition line_from (x0 y0 x1 y1 D A sx sy : Z) (major_x : bool) (a b : Z)
    (cells : list Coord) : Prop :=
  head cells = Some (x0 + a * sx, y0 + b * sy) ∧
  last cells = Some (x1, y1) ∧
  touching_chain cells ∧
  ∀ (i : nat) c, cells !! i = Some c →
    ∃ a' b', c = (x0 + a' * sx, y0 + b' * sy) ∧
      0 ≤ a' ≤ D ∧ 0 ≤ b' ≤ A ∧
      (if major_x then a' = a + Z.of_nat i else b' = b + Z.of_nat i) ∧
      Z.abs (2 * (b' * D - a' * A)) ≤ Z.max D A.

(** [c] lies [i] steps from [start] along the longer side of the
    rectangle spanned by [start] and [end_], and as close to the straight
    line between them as a cell can: half a cell at most. *)
Definition on_ideal_line (start end_ : Coord) (i : Z) (c : Coord) : Prop :=
  let dx := Z.abs (fst end_ - fst start) in
  let dy := Z.abs (snd end_ - snd start) in
  let sx := if fst start <? fst end_ then 1 else -1 in
  let sy := if snd start <? snd end_ then 1 else -1 in
  ∃ a b, c = (fst start + a * sx, snd start + b * sy) ∧
    0 ≤ a ≤ dx ∧ 0 ≤ b ≤ dy ∧
    (if dy <=? dx then a = i else b = i) ∧
    Z.abs (2 * (b * dx - a * dy)) ≤ Z.max dx dy.

(** * The start world ([_generate_resources_around_view])

    The values that [random.randint] returns are a parameter: [draw i] is
    the cell made of the two numbers drawn in round [i].  One [while]
    loop: at most [attempts] rounds, as long as fewer than [target] cells
    are placed; a blocked cell is skipped. *)
Fixpoint scatter (attempts target : nat) (blocked : Coord → bool)
    (draw : nat → Coord) (i : nat) (cells : gset Coord) : gset Coord * nat :=
  match attempts with
  | O => (cells, i)
  | S attempts' =>
      if bool_decide (size cells < target)%nat then
        scatter attempts' target blocked draw (S i)
          (if blocked (draw i) then cells else {[draw i]} ∪ cells)
      else (cells, i)
  end.

Definition generate_resources (base : Coord) (view_cells_x view_cells_y : Z)
    (draw : nat → Coord) : gset Coord * gset Coord :=
  let in_base := is_cell_in_base_area (new_game base ∅ ∅) in
  let num_trees := Z.to_nat (Z.max 75 (view_cells_x * view_cells_y / 4)) in
  let '(trees0, i) := scatter (num_trees * 10) num_trees in_base draw 0 ∅ in
  let target_stones := Nat.max 10 (size trees0 / 4) in
  let '(stones0, _) :=
    scatter (target_stones * 20) target_stones
      (λ c, in_base c || bool_decide (c ∈ trees0)) draw i ∅ in
  (trees0, stones0).

(** * Runs in which time moves forward

    [run] calls [update] with [dt = clock.tick(FPS) / 1000.0], which is
    never negative. *)
Definition forward (cmd : Command) : Prop :=
  match cmd with
  | Update dt => (0 <= dt)%Q
  | _ => True
  end.

Inductive reachable_forward : Game → Prop :=
  | reachable_forward_init base trees0 stones0 :
      resources_generated base trees0 stones0 →
      reachable_forward (new_game base trees0 stones0)
  | reachable_forward_step g cmd g' :
      reachable_forward g → forward cmd → run_command cmd g = Ok g' →
      reachable_forward g'.

(** No entry of the storage is negative, and the stone of a refinery is
    a whole number. *)
Definition store_ok (b : Building) : Prop :=
  (∀ k v, storage b !! k = Some v → (0 <= v)%Q) ∧
  (type b = refinery → ∃ z : Z, dict_get "stone" 0 (storage b) = inject_Z z).

(** * Production rates *)

(** The rate a building of the given type gets when it is placed on
    [c]: a fifth of the trees (stones) within radius 5 per second for a
    lumber camp (quarry), and the fixed 0.2 of [place_refinery]. *)
Definition placement_rate (trees0 stones0 : gset Coord) (ty : BuildingType)
    (c : Coord) : Q :=
  match ty with
  | lumber => fmul (of_int (count_in_radius trees0 c 5)) (1 # 5)
  | quarry => fmul (of_int (count_in_radius stones0 c 5)) (1 # 5)
  | refinery => 1 # 5
  end.

Definition rate_rule (trees0 stones0 : gset Coord)
    (v : BuildingType * Coord * Z * Q) : Prop :=
  v.2 = placement_rate trees0 stones0 v.1.1.1 v.1.1.2.

(** * Screen and cells

    [world_to_cell] and [cell_to_rect] for the camera offset
    [(camera_x, camera_y)]; a rectangle is [(left, top, width, height)].
    Python's integers are unbounded; the fields of a [pygame.Rect] are
    32-bit signed integers and wrap around. *)
Definition world_to_cell (camera : Z * Z) (pos : Z * Z) : Coord :=
  ((fst pos + fst camera) / GRID_SIZE, (snd pos + snd camera) / GRID_SIZE).

Definition wrap32 (z : Z) : Z := (z + 2 ^ 31) mod 2 ^ 32 - 2 ^ 31.

Definition cell_to_rect (camera : Z * Z) (c : Coord) : Z * Z * Z * Z :=
  (wrap32 (fst c * GRID_SIZE - fst camera),
   wrap32 (snd c * GRID_SIZE - snd camera),
   wrap32 GRID_SIZE, wrap32 GRID_SIZE).

(** * Breadth-first search: [find_path_on_roads] *)

Section bfs_correct.
Context (rg : gmap Coord Z) (start goal : Coord).

(** ** Paths as lists and walks as step counts *)

Lemma walk_prepend a b c n :
  b ∈ neighbors4 a → is_driveable rg b = true →
  walk rg b c n → walk rg a c (S n).
Proof.
  intros Hab Hb Hw. induction Hw as [|x y m Hw IH Hxy Hy].
  - eapply walk_step; [apply walk_here | done | done].
  - eapply walk_step; eauto.
Qed.

Lemma path_walk p a b :
  path_from_to rg a b p → walk rg a b (length p - 1).
Proof.
  revert a. induction p as [|x tl IH]; intros a (Hh & Hl & Hp); [done|].
  simpl in Hh. injection Hh as ->.
  destruct tl as [|y tl'].
  - simpl in Hl. injection Hl as ->. apply walk_here.
  - destruct Hp as (Hadj & Hdr & Hp).
    assert (Hw : walk rg y b (length (y :: tl') - 1)).
    { apply IH. split; [done|]. split; [|done].
      by rewrite last_cons_cons in Hl. }
    replace (length (a :: y :: tl') - 1)%nat with (S (length (y :: tl') - 1))
      by (simpl; lia).
    by eapply walk_prepend.
Qed.

Lemma road_path_snoc p b c :
  road_path rg p → last p = Some b →
  c ∈ neighbors4 b → is_driveable rg c = true →
  road_path rg (p ++ [c]).
Proof.
  induction p as [|x tl IH]; intros Hp Hl Hadj Hdr; [done|].
  destruct tl as [|y tl'].
  - simpl in Hl. injection Hl as ->. simpl. done.
  - destruct Hp as (H1 & H2 & Hp). rewrite last_cons_cons in Hl.
    change (y ∈ neighbors4 x ∧ is_driveable rg y = true ∧
            road_path rg ((y :: tl') ++ [c])).
    split; [done|]. split; [done|]. by apply IH.
Qed.

Lemma bfs_inv_init :
  bfs_inv rg start (λ _, 0%nat) 0 {[start := None]} [start] None.
Proof.
  split.
  - apply lookup_singleton_eq.
  - done.
  - intros c Hc. apply lookup_singleton_Some in Hc. by destruct Hc.
  - intros c p Hc. apply lookup_singleton_Some in Hc. by destruct Hc.
  - intros; lia.
  - intros c _. rewrite map_size_singleton. lia.
  - intros c Hc. apply list_elem_of_singleton in Hc as ->.
    rewrite lookup_singleton_eq. by eexists.
  - exists [start], []. split; [done|]. split; by repeat constructor.
  - done.
  - intros c n Hw Hn. assert (n = 0%nat) as -> by lia.
    inversion Hw; subst. rewrite lookup_singleton_eq. by eexists.
  - intros c [v Hc] Hq _. apply lookup_singleton_Some in Hc as [<- _].
    exfalso. apply Hq. by apply list_elem_of_singleton.
Qed.

(** When no cell of level [k] is left in the queue, the search moves on
    to level [S k]. *)
Lemma bfs_inv_shift lvl k came queue :
  bfs_inv rg start lvl k came queue None →
  Forall (λ c, lvl c = S k) queue →
  bfs_inv rg start lvl (S k) came queue None.
Proof.
  intros I Hq. destruct I. split; try done.
  - exists queue, []. rewrite app_nil_r. split; [done|]. split; [done|constructor].
  - intros c n Hw Hn.
    destruct (decide (n ≤ k)%nat) as [Hle|Hgt]; [by eapply inv_complete0|].
    assert (n = S k) as -> by lia.
    inversion Hw as [|b c' m Hwb Hadj Hdr]; subst.
    assert (Hb : is_Some (came !! b)) by (by eapply inv_complete0).
    eapply (inv_closed0 b); try done.
    intros Hin. rewrite Forall_forall in Hq. specialize (Hq _ Hin).
    specialize (inv_min0 _ _ Hb Hwb). lia.
Qed.

Lemma bfs_inv_pop lvl k came cur rest :
  bfs_inv rg start lvl k came (cur :: rest) None →
  ∃ k', bfs_inv rg start lvl k' came rest (Some cur).
Proof.
  intros I.
  assert (∃ k' q1 q2, bfs_inv rg start lvl k' came (cur :: rest) None ∧
            cur :: rest = (cur :: q1) ++ q2 ∧
            Forall (λ c, lvl c = k') (cur :: q1) ∧
            Forall (λ c, lvl c = S k') q2) as (k' & q1 & q2 & I' & Heq & H1 & H2).
  { destruct (inv_queue_lvl _ _ _ _ _ _ _ I) as (q1 & q2 & Heq & H1 & H2).
    destruct q1 as [|x q1].
    - simpl in Heq. subst q2. exists (S k), rest, [].
      split; [by apply bfs_inv_shift|]. rewrite app_nil_r.
      split; [done|]. split; [done|constructor].
    - simpl in Heq. injection Heq as <- Heq. exists k, q1, q2.
      split; [done|]. split; [by rewrite Heq|]. done. }
  exists k'. simpl in Heq. injection Heq as Heq.
  destruct I'. split; try done.
  - intros c Hc. apply inv_queue_in0. by right.
  - exists q1, q2. split; [done|]. split; [by inversion H1|done].
  - intros c [= <-]. split; [apply inv_queue_in0; by left|by inversion H1].
  - intros c Hc Hq Hp. apply inv_closed0; [done| |done].
    intros Hin. apply elem_of_cons in Hin as [->|Hin]; [by apply Hp|by apply Hq].
Qed.

Lemma bfs_inv_visit lvl k came queue cur nb :
  bfs_inv rg start lvl k came queue (Some cur) →
  nb ∈ neighbors4 cur →
  ∃ lvl', bfs_inv rg start lvl' k (visit rg cur (came, queue) nb).1
                       (visit rg cur (came, queue) nb).2 (Some cur) ∧
    (∀ c, is_Some (came !! c) → is_Some ((visit rg cur (came, queue) nb).1 !! c)) ∧
    (is_driveable rg nb = true → is_Some ((visit rg cur (came, queue) nb).1 !! nb)).
Proof.
  intros I Hadj. unfold visit. simpl.
  destruct (is_driveable rg nb) eqn:Hdr; simpl; last first.
  { exists lvl. split; [done|]. split; [done|]. done. }
  case_bool_decide as Hnone; simpl; last first.
  { exists lvl. split; [done|]. split; [done|].
    intros _. by apply not_eq_None_Some. }
  destruct (inv_pend _ _ _ _ _ _ _ I cur eq_refl) as [Hcur Hlc].
  assert (Hne : cur ≠ nb).
  { intros ->. rewrite Hnone in Hcur. by destruct Hcur. }
  assert (Hns : nb ≠ start).
  { intros ->. rewrite (inv_start _ _ _ _ _ _ _ I) in Hnone. done. }
  set (lvl' := λ c, if decide (c = nb) then S k else lvl c).
  assert (Hold : ∀ c, is_Some (came !! c) → lvl' c = lvl c).
  { intros c Hc. unfold lvl'. case_decide as E; [|done].
    subst c. rewrite Hnone in Hc. by destruct Hc. }
  assert (Hins : ∀ c, is_Some (<[nb:=Some cur]> came !! c) →
                      c = nb ∨ (c ≠ nb ∧ is_Some (came !! c))).
  { intros c Hc. destruct (decide (c = nb)) as [->|E]; [by left|].
    right. split; [done|]. by rewrite lookup_insert_ne in Hc. }
  exists lvl'. split; [|split].
  - destruct I. split.
    + by rewrite lookup_insert_ne.
    + unfold lvl'. by rewrite decide_False.
    + intros c Hc. destruct (decide (c = nb)) as [->|E].
      * rewrite lookup_insert_eq in Hc. done.
      * rewrite lookup_insert_ne in Hc by done. by apply inv_root0.
    + intros c p Hc. destruct (decide (c = nb)) as [->|E].
      * rewrite lookup_insert_eq in Hc. injection Hc as <-.
        split; [by rewrite lookup_insert_ne|]. split; [done|]. split; [done|].
        rewrite (Hold cur Hcur). unfold lvl'. rewrite decide_True by done. lia.
      * rewrite lookup_insert_ne in Hc by done.
        destruct (inv_parent0 _ _ Hc) as (Hp & H2 & H3 & H4).
        split.
        { rewrite lookup_insert_ne; [done|]. intros ->.
          rewrite Hnone in Hp. by destruct Hp. }
        split; [done|]. split; [done|].
        rewrite (Hold p Hp). rewrite (Hold c); [done|]. by rewrite Hc.
    + intros c n Hc Hw. apply Hins in Hc as [->|[E Hc]].
      * unfold lvl'. rewrite decide_True by done.
        destruct (decide (n ≤ k)%nat) as [Hle|]; [|lia].
        pose proof (inv_complete0 _ _ Hw Hle) as Hx.
        rewrite Hnone in Hx. by destruct Hx.
      * rewrite (Hold c Hc). by apply inv_min0.
    + intros c Hc. rewrite map_size_insert_None by done.
      apply Hins in Hc as [->|[E Hc]].
      * unfold lvl'. rewrite decide_True by done.
        specialize (inv_bound0 _ Hcur). lia.
      * rewrite (Hold c Hc). specialize (inv_bound0 _ Hc). lia.
    + intros c Hc. apply elem_of_app in Hc as [Hc|Hc].
      * rewrite lookup_insert_ne; [by apply inv_queue_in0|].
        intros ->. specialize (inv_queue_in0 _ Hc).
        rewrite Hnone in inv_queue_in0. by destruct inv_queue_in0.
      * apply list_elem_of_singleton in Hc as ->.
        rewrite lookup_insert_eq. by eexists.
    + destruct inv_queue_lvl0 as (q1 & q2 & -> & H1 & H2).
      exists q1, (q2 ++ [nb]). split; [by rewrite app_assoc|].
      assert (Hq : ∀ c, c ∈ q1 ++ q2 → lvl' c = lvl c).
      { intros c Hc. apply Hold. by apply inv_queue_in0. }
      split.
      * rewrite Forall_forall in H1 |- *. intros c Hc.
        rewrite Hq; [by apply H1|]. apply elem_of_app. by left.
      * apply Forall_app. split.
        -- rewrite Forall_forall in H2 |- *. intros c Hc.
           rewrite Hq; [by apply H2|]. apply elem_of_app. by right.
        -- constructor; [|constructor]. unfold lvl'. by rewrite decide_True.
    + intros c [= <-]. split.
      * by rewrite lookup_insert_ne.
      * by rewrite (Hold cur Hcur).
    + intros c n Hw Hn. specialize (inv_complete0 _ _ Hw Hn).
      destruct (decide (c = nb)) as [->|E].
      * rewrite lookup_insert_eq. by eexists.
      * by rewrite lookup_insert_ne.
    + intros c Hc Hq Hp x Hx Hdx.
      destruct (decide (x = nb)) as [->|Ex].
      { rewrite lookup_insert_eq. by eexists. }
      rewrite lookup_insert_ne by done.
      apply Hins in Hc as [->|[E Hc]].
      * exfalso. apply Hq. apply elem_of_app. right. by apply list_elem_of_singleton.
      * eapply (inv_closed0 c); try done.
        intros Hin. apply Hq. apply elem_of_app. by left.
  - intros c Hc. destruct (decide (c = nb)) as [->|E].
    + rewrite lookup_insert_eq. by eexists.
    + by rewrite lookup_insert_ne.
  - intros _. rewrite lookup_insert_eq. by eexists.
Qed.

Lemma bfs_inv_fold cur l :
  ∀ lvl k came queue,
  bfs_inv rg start lvl k came queue (Some cur) →
  (∀ nb, nb ∈ l → nb ∈ neighbors4 cur) →
  ∃ lvl', bfs_inv rg start lvl' k (fold_left (visit rg cur) l (came, queue)).1
                       (fold_left (visit rg cur) l (came, queue)).2 (Some cur) ∧
    (∀ c, is_Some (came !! c) →
          is_Some ((fold_left (visit rg cur) l (came, queue)).1 !! c)) ∧
    (∀ nb, nb ∈ l → is_driveable rg nb = true →
          is_Some ((fold_left (visit rg cur) l (came, queue)).1 !! nb)).
Proof.
  induction l as [|nb l IH]; intros lvl k came queue I Hl.
  - exists lvl. simpl. split; [done|]. split; [done|]. intros nb Hnb. by apply elem_of_nil in Hnb.
  - simpl.
    destruct (bfs_inv_visit lvl k came queue cur nb I) as (lvl1 & I1 & Hm1 & Hnb1).
    { apply Hl. by left. }
    destruct (visit rg cur (came, queue) nb) as [came1 queue1] eqn:Ev.
    simpl in I1, Hm1, Hnb1.
    destruct (IH lvl1 k came1 queue1 I1) as (lvl2 & I2 & Hm2 & Hnb2).
    { intros x Hx. apply Hl. by right. }
    exists lvl2. split; [done|]. split.
    + intros c Hc. by apply Hm2, Hm1.
    + intros x Hx Hdx. apply elem_of_cons in Hx as [->|Hx].
      * by apply Hm2, Hnb1.
      * by apply Hnb2.
Qed.

Lemma bfs_inv_release lvl k came queue cur :
  bfs_inv rg start lvl k came queue (Some cur) →
  (∀ nb, nb ∈ neighbors4 cur → is_driveable rg nb = true → is_Some (came !! nb)) →
  bfs_inv rg start lvl k came queue None.
Proof.
  intros I Hcl. destruct I. split; try done.
  intros c Hc Hq _ nb Hnb Hdr.
  destruct (decide (c = cur)) as [->|E]; [by apply Hcl|].
  eapply inv_closed0; try done. congruence.
Qed.

Lemma bfs_loop_inv fuel :
  ∀ lvl k came queue res,
  bfs_inv rg start lvl k came queue None →
  bfs_loop rg goal fuel came queue = Some res →
  ∃ lvl' k' queue', bfs_inv rg start lvl' k' res queue' None ∧
    (queue' = [] ∨ is_Some (res !! goal)).
Proof.
  induction fuel as [|fuel IH]; intros lvl k came queue res I Hrun; [done|].
  simpl in Hrun. destruct queue as [|cur rest].
  - injection Hrun as <-. exists lvl, k, []. split; [done|by left].
  - case_bool_decide as Hg.
    + injection Hrun as <-. exists lvl, k, (cur :: rest). split; [done|].
      right. subst cur. apply (inv_queue_in _ _ _ _ _ _ _ I). by left.
    + destruct (bfs_inv_pop _ _ _ _ _ I) as (k' & I1).
      destruct (bfs_inv_fold cur (neighbors4 cur) lvl k' came rest I1)
        as (lvl2 & I2 & _ & Hcl); [done|].
      eapply IH; [|exact Hrun].
      eapply bfs_inv_release; [exact I2|]. intros nb Hnb Hdr. by apply Hcl.
Qed.

Lemma bfs_inv_closed_all lvl k came :
  bfs_inv rg start lvl k came [] None →
  ∀ c n, walk rg start c n → is_Some (came !! c).
Proof.
  intros I c n Hw. induction Hw as [|b c m Hw IH Hadj Hdr].
  - rewrite (inv_start _ _ _ _ _ _ _ I). by eexists.
  - eapply (inv_closed _ _ _ _ _ _ _ I b); try done. by intros ?%elem_of_nil.
Qed.

(** ** Fuel: the loop ends within [2 + size rg] iterations *)

Lemma driveable_in_dom c : is_driveable rg c = true → c ∈ dom rg.
Proof.
  unfold is_driveable. intros H%bool_decide_eq_true.
  apply elem_of_dom. destruct (rg !! c); [by eexists|done].
Qed.

Lemma visit_measure cur came queue nb :
  (length (visit rg cur (came, queue) nb).2 +
     size (unvisited rg (visit rg cur (came, queue) nb).1)
   = length queue + size (unvisited rg came))%nat.
Proof.
  unfold visit. simpl.
  destruct (is_driveable rg nb) eqn:Hdr; simpl; [|done].
  case_bool_decide as Hnone; simpl; [|done].
  rewrite length_app. simpl.
  assert (Hin : nb ∈ unvisited rg came).
  { apply elem_of_filter. split; [done|]. by apply driveable_in_dom. }
  assert (Heq : unvisited rg came = {[nb]} ∪ unvisited rg (<[nb:=Some cur]> came)).
  { apply set_eq. intros c. unfold unvisited.
    rewrite elem_of_union, !elem_of_filter, elem_of_singleton.
    destruct (decide (c = nb)) as [->|E].
    - rewrite lookup_insert_eq. split; [by left|]. intros _.
      split; [done|]. by apply driveable_in_dom.
    - rewrite lookup_insert_ne by done. tauto. }
  assert (Hsz : size (unvisited rg came) = S (size (unvisited rg (<[nb:=Some cur]> came)))).
  { rewrite Heq at 1. rewrite size_union.
    - by rewrite size_singleton.
    - intros c Hc1 Hc2. apply elem_of_singleton in Hc1 as ->.
      apply elem_of_filter in Hc2 as [[_ Hc2] _].
      by rewrite lookup_insert_eq in Hc2. }
  lia.
Qed.

Lemma fold_visit_measure cur l :
  ∀ came queue,
  (length (fold_left (visit rg cur) l (came, queue)).2 +
     size (unvisited rg (fold_left (visit rg cur) l (came, queue)).1)
   = length queue + size (unvisited rg came))%nat.
Proof.
  induction l as [|nb l IH]; intros came queue; [done|].
  simpl. pose proof (visit_measure cur came queue nb) as Hv.
  destruct (visit rg cur (came, queue) nb) as [c1 q1]. simpl in Hv.
  rewrite IH. done.
Qed.

Lemma bfs_loop_fuel fuel :
  ∀ came queue,
  (length queue + size (unvisited rg came) < fuel)%nat →
  is_Some (bfs_loop rg goal fuel came queue).
Proof.
  induction fuel as [|fuel IH]; intros came queue Hlt; [lia|].
  simpl. destruct queue as [|cur rest]; [by eexists|].
  case_bool_decide; [by eexists|].
  apply IH. rewrite fold_visit_measure. simpl in Hlt. lia.
Qed.

Lemma bfs_loop_total :
  is_Some (bfs_loop rg goal (2 + size rg) {[start := None]} [start]).
Proof.
  apply bfs_loop_fuel. simpl.
  assert (size (unvisited rg {[start := None]}) ≤ size rg)%nat; [|lia].
  rewrite <- size_dom. apply subseteq_size.
  intros c Hc. by apply elem_of_filter in Hc as [_ Hc].
Qed.

(** ** Walking the predecessor map back to the start *)

Lemma reconstruct_chain lvl k came queue n :
  bfs_inv rg start lvl k came queue None →
  ∀ c acc fuel,
  is_Some (came !! c) → lvl c = n → (n < fuel)%nat →
  ∃ l, reconstruct came fuel (Some c) acc = Some (acc ++ l) ∧
       length l = S n ∧ path_from_to rg start c (reverse l).
Proof.
  intros I. induction n as [|n IH]; intros c acc fuel [v Hc] Hl Hf;
    (destruct fuel as [|fuel]; [lia|]); simpl; rewrite Hc;
    destruct v as [p|].
  - destruct (inv_parent _ _ _ _ _ _ _ I _ _ Hc) as (_ & _ & _ & E). lia.
  - exists [c]. split; [by destruct fuel|]. split; [done|].
    rewrite (inv_root _ _ _ _ _ _ _ I _ Hc). done.
  - destruct (inv_parent _ _ _ _ _ _ _ I _ _ Hc) as (Hp & Hadj & Hdr & E).
    destruct (IH p (acc ++ [c]) fuel Hp) as (l & Hr & Hlen & Hh & Hla & Hpa);
      [lia|lia|].
    exists (c :: l). split; [by rewrite Hr, <- app_assoc|].
    split; [simpl; lia|].
    rewrite reverse_cons. split; [|split].
    + destruct (reverse l); [done|done].
    + by rewrite last_snoc.
    + by eapply road_path_snoc.
  - rewrite (inv_root _ _ _ _ _ _ _ I _ Hc) in Hl.
    rewrite (inv_lvl0 _ _ _ _ _ _ _ I) in Hl. done.
Qed.

(** ** The search as a whole *)

Lemma bfs_search_total : is_Some (bfs_search rg start goal).
Proof.
  unfold bfs_search. case_bool_decide; [by eexists|].
  destruct bfs_loop_total as [came Hrun]. rewrite Hrun. simpl.
  case_bool_decide as Hg; [by eexists|].
  destruct (bfs_loop_inv _ _ _ _ _ _ bfs_inv_init Hrun) as (lvl & k & q & I & _).
  apply not_eq_None_Some in Hg.
  destruct (reconstruct_chain lvl k came q (lvl goal) I goal [] (size came))
    as (l & -> & _); [done|done|by eapply inv_bound|].
  by eexists.
Qed.

Lemma bfs_search_found p :
  bfs_search rg start goal = Some p → p ≠ [] →
  path_from_to rg start goal p ∧
  ∀ q, path_from_to rg start goal q → (length p ≤ length q)%nat.
Proof.
  unfold bfs_search. case_bool_decide as Hsg.
  - intros [= <-] _. subst goal. split; [done|].
    intros q (Hh & _). destruct q; [done|simpl; lia].
  - destruct (bfs_loop rg goal _ _ _) as [came|] eqn:Hrun; [|done]. simpl.
    case_bool_decide as Hg; [by intros [= <-]|].
    destruct (bfs_loop_inv _ _ _ _ _ _ bfs_inv_init Hrun) as (lvl & k & q & I & _).
    apply not_eq_None_Some in Hg.
    destruct (reconstruct_chain lvl k came q (lvl goal) I goal [] (size came))
      as (l & -> & Hlen & Hp); [done|done|by eapply inv_bound|].
    simpl. intros [= <-] _. split; [done|].
    intros q' Hq'. rewrite length_reverse, Hlen.
    pose proof (path_walk _ _ _ Hq') as Hw.
    pose proof (inv_min _ _ _ _ _ _ _ I _ _ Hg Hw) as Hm.
    destruct Hq' as (Hh & _). destruct q'; [done|]. simpl in *. lia.
Qed.

Lemma bfs_search_empty :
  bfs_search rg start goal = Some [] → ¬ road_reachable rg start goal.
Proof.
  unfold bfs_search. case_bool_decide as Hsg; [done|].
  destruct (bfs_loop rg goal _ _ _) as [came|] eqn:Hrun; [|done]. simpl.
  destruct (bfs_loop_inv _ _ _ _ _ _ bfs_inv_init Hrun) as (lvl & k & q & I & Hend).
  case_bool_decide as Hg.
  - intros _ (p & Hp). apply path_walk in Hp.
    destruct Hend as [->|Hs].
    + pose proof (bfs_inv_closed_all _ _ _ I _ _ Hp) as Hx.
      rewrite Hg in Hx. by destruct Hx.
    + rewrite Hg in Hs. by destruct Hs.
  - apply not_eq_None_Some in Hg.
    destruct (reconstruct_chain lvl k came q (lvl goal) I goal [] (size came))
      as (l & -> & Hlen & _); [done|done|by eapply inv_bound|].
    simpl. intros [= E]. apply (f_equal length) in E.
    rewrite length_reverse in E. simpl in E. lia.
Qed.

End bfs_correct.

(** C2: [find_path_on_roads] is a breadth-first search over driveable
  4-neighbours.  The search always finishes; [start == goal] gives the
  single-cell path; when the goal can be reached the result is a path from
  [start] to [goal] whose consecutive cells are 4-adjacent, whose cells
  after the first are all driveable, and which is no longer than any other
  such path; when the goal cannot be reached the result is empty. *)
Theorem find_path_on_roads_bfs (road_grid : gmap Coord Z) (start goal : Coord) :
bfs_search road_grid start goal = Some (find_path_on_roads road_grid start goal) ∧
(start = goal → find_path_on_roads road_grid start goal = [start]) ∧
(road_reachable road_grid start goal →
   path_from_to road_grid start goal (find_path_on_roads road_grid start goal) ∧
   ∀ q, path_from_to road_grid start goal q →
        (length (find_path_on_roads road_grid start goal) ≤ length q)%nat) ∧
(¬ road_reachable road_grid start goal →
   find_path_on_roads road_grid start goal = []).
Proof.
unfold find_path_on_roads.
destruct (bfs_search_total road_grid start goal) as [p Hp]. rewrite Hp. simpl.
split; [done|]. split; [|split].
- intros ->. unfold bfs_search in Hp. rewrite bool_decide_eq_true_2 in Hp by done.
  by injection Hp as <-.
- intros Hr. destruct p as [|x p'].
  + by apply bfs_search_empty in Hp.
  + by apply bfs_search_found.
- intros Hn. destruct p as [|x p']; [done|].
  exfalso. apply Hn. exists (x :: p'). by apply bfs_search_found.
Qed.

(** * Arithmetic of the modelled floats *)

Lemma fadd_eq a b : (fadd a b == a + b)%Q.
Proof. apply Qred_correct. Qed.

Lemma fsub_eq a b : (fsub a b == a - b)%Q.
Proof. apply Qred_correct. Qed.

Lemma fmul_eq a b : (fmul a b == a * b)%Q.
Proof. apply Qred_correct. Qed.

Lemma Qltb_lt a b : Qltb a b = true ↔ (a < b)%Q.
Proof.
  unfold Qltb. rewrite negb_true_iff. split.
  - intros H. apply Qnot_le_lt. intros Hle. apply Qle_bool_iff in Hle. congruence.
  - intros H. destruct (Qle_bool b a) eqn:E; [|done].
    apply Qle_bool_iff in E. exfalso. by apply (Qlt_not_le a b).
Qed.

Lemma Qltb_ge a b : Qltb a b = false ↔ (b <= a)%Q.
Proof.
  unfold Qltb. rewrite negb_false_iff. apply Qle_bool_iff.
Qed.

Lemma Qle_bool_false a b : Qle_bool a b = false ↔ (b < a)%Q.
Proof.
  split.
  - intros H. apply Qnot_le_lt. intros Hle. apply Qle_bool_iff in Hle. congruence.
  - intros H. destruct (Qle_bool a b) eqn:E; [|done].
    apply Qle_bool_iff in E. exfalso. by apply (Qlt_not_le b a).
Qed.

(** * Records and list updates *)

Lemma set_trucks_same g : set_trucks (trucks g) g = g.
Proof. by destruct g. Qed.

Lemma find_map_preserved {A : Type} (p : A → bool) (f : A → A) (l : list A) :
  (∀ x, p (f x) = p x) →
  List.find p (map f l) = f <$> List.find p l.
Proof.
  intros Hp. induction l as [|x l IH]; [done|].
  simpl. rewrite Hp. by destruct (p x).
Qed.

Lemma get_building_cell g c b : get_building_at_cell g c = Some b → cell b = c.
Proof.
  unfold get_building_at_cell. intros H. apply find_some in H as [_ H].
  by apply bool_decide_eq_true in H.
Qed.

(** * The tick when no truck arrives *)

Lemma update_truck_empty_path g t dt :
  path_cells t = [] → update_truck g t dt = Ok (g, t).
Proof. unfold update_truck. by intros ->. Qed.

Lemma update_truck_no_arrival g t dt :
  arrives_now t = false → ∃ t', update_truck g t dt = Ok (g, t').
Proof.
  unfold arrives_now, update_truck.
  destruct (path_cells t) as [|c rest]; [by eexists|].
  cbv zeta. destruct (Qltb _ _) eqn:E.
  - destruct rest; [done|]. by eexists.
  - intros _. destruct (Qle_bool _ _); by eexists.
Qed.

Lemma update_trucks_no_arrival g dt ts :
  Forall (λ t, arrives_now t = false) ts →
  ∃ ts', update_trucks g dt ts = Ok (g, ts').
Proof.
  induction 1 as [|t ts Ht _ [ts' IH]]; [by eexists|].
  destruct (update_truck_no_arrival g t dt Ht) as [t' Ht'].
  simpl. rewrite Ht'. simpl. rewrite IH. simpl. by eexists.
Qed.



(** * Production *)

Lemma produce_cell g dt b : cell (produce g dt b) = cell b.
Proof.
  unfold produce. repeat case_match; done.
Qed.




Lemma produce_disconnected g dt b :
  is_cell_connected_to_base_by_roads g (cell b) = false → produce g dt b = b.
Proof.
  intros H. unfold produce. rewrite H. simpl. by destruct (Qle_bool _ _).
Qed.

Lemma get_building_after_production g dt c :
  get_building_at_cell
    (set_buildings (map (produce g dt) (buildings g)) g) c
  = produce g dt <$> get_building_at_cell g c.
Proof.
  unfold get_building_at_cell. simpl.
  apply find_map_preserved. intros b. by rewrite produce_cell.
Qed.

(** * The example worlds *)

Lemma run_commands_reachable cmds :
  ∀ g g', reachable g → run_commands cmds g = Ok g' → reachable g'.
Proof.
  induction cmds as [|cmd cmds IH]; intros g g' Hg Hrun.
  - by injection Hrun as <-.
  - simpl in Hrun. destruct (run_command cmd g) as [g1|e] eqn:E; [|done].
    simpl in Hrun. eapply IH; [|exact Hrun]. by eapply reachable_step.
Qed.

Lemma world_after_reachable cmds g :
  reachable g → reachable (world_after cmds g).
Proof.
  intros Hg. unfold world_after.
  destruct (run_commands cmds g) as [g'|e] eqn:E; [|done].
  by eapply run_commands_reachable.
Qed.

Lemma ex_start_reachable : reachable ex_start.
Proof.
  apply reachable_init. unfold ex_trees, ex_stones. split; [|split].
  - intros c Hc. apply elem_of_list_to_set in Hc.
    repeat (apply elem_of_cons in Hc as [->|Hc]; [done|]).
    by apply elem_of_nil in Hc.
  - intros c Hc. apply elem_of_list_to_set in Hc.
    repeat (apply elem_of_cons in Hc as [->|Hc]; [done|]).
    by apply elem_of_nil in Hc.
  - intros c Hc. apply elem_of_list_to_set in Hc.
    repeat (apply elem_of_cons in Hc as [->|Hc]; [by vm_compute|]).
    by apply elem_of_nil in Hc.
Qed.

Lemma c1_world_reachable : reachable c1_world.
Proof. apply world_after_reachable, ex_start_reachable. Qed.

(** In [c1_world] truck 1 waits at the refinery for 5 bmats and the
    refinery holds 5 bmats. *)
Lemma c1_world_waiting :
  get_truck_by_id c1_world 1 = Some c1_truck ∧
  stock (8, 6) "bmats" c1_world = Some 5%Q.
Proof. split; by vm_compute. Qed.

(** A hundred ticks later nothing has moved. *)
Lemma c1_world_still_waiting :
  (λ g, (get_truck_by_id g 1, stock (8, 6) "bmats" g))
    <$> run_ticks 100 1 c1_world
  = Ok (Some c1_truck, Some 5%Q).
Proof. by vm_compute. Qed.

(** * C1: the refinery wait *)

(** C1 (the code departs from it): a truck in state [waiting_for_bmats] is
    never served.  [on_truck_arrival] is the only place that withdraws the
    bmats, it raises [NameError] in that state, and [update_truck] does not
    even call it for a truck whose path is empty, as the path of a waiting
    truck is: the tick leaves world and truck as they are, whatever the
    refinery holds.  Whenever the tick of such a truck succeeds, the world
    is unchanged and the truck is still waiting with the cargo it had. *)
Theorem waiting_truck_is_never_served (g : Game) (t : Truck) (dt : Q) :
  state t = waiting_for_bmats →
  on_truck_arrival g t = Raise (NameError "dt") ∧
  (path_cells t = [] → update_truck g t dt = Ok (g, t)) ∧
  (∀ g' t', update_truck g t dt = Ok (g', t') →
     g' = g ∧ state t' = waiting_for_bmats ∧
     cargo_type t' = cargo_type t ∧ cargo_amount t' = cargo_amount t ∧
     _dest_cell t' = _dest_cell t).
Proof.
  intros Hs. split; [|split].
  - unfold on_truck_arrival. by rewrite Hs.
  - apply update_truck_empty_path.
  - intros g' t'. unfold update_truck.
    destruct (path_cells t) as [|c rest]; [by intros [= <- <-]|].
    cbv zeta. destruct (Qltb _ _).
    + destruct rest.
      * unfold on_truck_arrival. simpl. by rewrite Hs.
      * by intros [= <- <-].
    + destruct (Qle_bool _ _); by intros [= <- <-].
Qed.

Lemma waiting_truck_is_never_served_witness :
  state c1_truck = waiting_for_bmats ∧
  update_truck c1_world c1_truck 1 = Ok (c1_world, c1_truck).
Proof.
  split; [reflexivity|].
  apply (waiting_truck_is_never_served c1_world c1_truck 1 eq_refl).
  reflexivity.
Defined.

(** * C4: bulldozing a road cell *)




(** * C9: one occupant per cell *)

(** C9 (the code departs from it): [paint_cell] does not look at the
    buildings.  [c4_world] is reached by placing a lumber camp on (10,3)
    and painting a road on the same cell: the cell is a road and a building
    footprint at once. *)
Theorem road_painted_on_building :
  reachable c4_world ∧
  run_commands [PlaceLumberCamp (10, 3); PaintCell (10, 3)] ex_start = Ok c4_world ∧
  (10, 3) ∈ roads c4_world ∧
  type <$> get_building_at_cell c4_world (10, 3) = Some lumber.
Proof.
  split; [apply world_after_reachable, ex_start_reachable|].
  split; [by vm_compute|]. split; by vm_compute.
Qed.

(** * C6: production of a disconnected building *)

(** C6 (as amended): for a building with positive production rate that
    is not road-connected to the base, the production pass of [update(dt)]
    leaves the building as it is for any [dt] (storage and conversion timer
    included), and so does the whole tick when no truck reaches the end of
    its path in it. *)
Theorem disconnected_building_frozen (g : Game) (dt : Q) (c : Coord) (b : Building) :
  get_building_at_cell g c = Some b →
  (0 < production_rate_per_sec b)%Q →
  is_cell_connected_to_base_by_roads g c = false →
  produce g dt b = b ∧
  (Forall (λ t, arrives_now t = false) (trucks g) →
   ∃ g', update dt g = Ok g' ∧ get_building_at_cell g' c = Some b).
Proof.
  intros Hb _ Hc. pose proof (get_building_cell _ _ _ Hb) as Hcell.
  assert (Hp : produce g dt b = b).
  { apply produce_disconnected. by rewrite Hcell. }
  split; [done|]. intros Hq. unfold update. cbv zeta.
  destruct (update_trucks_no_arrival
              (set_buildings (map (produce g dt) (buildings g)) g) dt (trucks g) Hq)
    as [ts Hts].
  replace (trucks (set_buildings (map (produce g dt) (buildings g)) g))
    with (trucks g) by (by destruct g).
  rewrite Hts. simpl. eexists. split; [done|].
  pose proof (get_building_after_production g dt c) as Hg.
  rewrite Hb in Hg. simpl in Hg. rewrite Hp in Hg.
  unfold get_building_at_cell in *. by destruct g.
Qed.

Lemma disconnected_building_frozen_witness :
  produce c4_world 1 c4_camp = c4_camp ∧
  ∃ g', update 1 c4_world = Ok g' ∧
        get_building_at_cell g' (10, 3) = Some c4_camp.
Proof.
  destruct (disconnected_building_frozen c4_world 1 (10, 3) c4_camp) as [H1 H2].
  - by vm_compute.
  - reflexivity.
  - by vm_compute.
  - split; [exact H1|]. apply H2. repeat constructor.
Defined.

(** Counterexample to C6 as stated: in [c6_world] the lumber camp on
    (8,5) produces one wood per second and is cut off from the base; truck
    1 stands in front of it.  The tick takes the wood from 6 to 1: the truck
    arrives and loads 5. *)
Lemma truck_loads_from_disconnected_camp :
  is_cell_connected_to_base_by_roads c6_world (8, 5) = false ∧
  production_rate_per_sec <$> get_building_at_cell c6_world (8, 5) = Some 1%Q ∧
  stock (8, 5) "wood" c6_world = Some 6%Q ∧
  (λ g, (stock (8, 5) "wood" g, trip 1 g)) <$> update 1 c6_world
  = Ok (Some 1%Q, Some (to_source, (8, 5), [], Some "wood", 5%Q)).
Proof. repeat split; by vm_compute. Qed.

(** * C3: refinery conversion *)











(** The same 15 seconds on binary64 numbers.  In 15 ticks of 1 second,
    30 ticks of 0.5 seconds or 60 ticks of 0.25 seconds, whose sums are
    exact, the refinery ends with 3 bmats and no stone, as in the exact
    model.  In 150 ticks of 0.1 seconds it does not: 50 times 0.1 is 5.0,
    but 50 additions of 0.1 stay below 5.0, every conversion comes one
    tick late and the refinery holds 2 bmats and 1 stone. *)
Lemma refinery_timer_in_binary64 :
  Nat.iter 15 (refinery_tick_float 1) (3, 0, 0)%float = (0, 3, 0)%float ∧
  Nat.iter 30 (refinery_tick_float 0.5) (3, 0, 0)%float = (0, 3, 0)%float ∧
  Nat.iter 60 (refinery_tick_float 0.25) (3, 0, 0)%float = (0, 3, 0)%float ∧
  (50 * float_0_1 =? 5)%float = true ∧
  (Nat.iter 50 (λ timer, timer + float_0_1)%float 0 <? 5)%float = true ∧
  fst (Nat.iter 150 (refinery_tick_float float_0_1) (3, 0, 0)%float)
  = (1, 2)%float.
Proof. repeat split; by vm_compute. Qed.

(** * C7: the repeat leg *)

Lemma leg_to_last g t target p :
  leg_to g t target = Some p → last p = Some target.
Proof.
  unfold leg_to. destruct (find_nearest_road_to_cell _ target _); [|done].
  destruct (find_path_on_roads _ _ _) as [|x l]; [done|].
  intros [= <-]. apply (last_snoc target (x :: l)).
Qed.

Lemma leg_to_frame g g1 t t1 target :
  road_grid g1 = road_grid g → current_cell t1 = current_cell t →
  leg_to g1 t1 target = leg_to g t target.
Proof. intros H1 H2. unfold leg_to. by rewrite H1, H2. Qed.

(** What "repeat or return to idle" does to a truck [t1] that differs from
    [t] in its cargo amount at most, in a world [g1] with the road grid of
    [g]. *)
Lemma repeat_or_idle_cases g g1 t t1 :
  road_grid g1 = road_grid g → current_cell t1 = current_cell t →
  repeat_enabled t1 = repeat_enabled t → saved_source t1 = saved_source t →
  saved_dest t1 = saved_dest t → saved_resource t1 = saved_resource t →
  (∀ src dst res p,
     repeat_enabled t = true → saved_source t = Some src →
     saved_dest t = Some dst → saved_resource t = Some res → res ≠ EmptyString →
     leg_to g t src = Some p →
     state (repeat_or_idle g1 t1) = to_source ∧
     path_cells (repeat_or_idle g1 t1) = p ∧ last p = Some src ∧
     cargo_type (repeat_or_idle g1 t1) = Some res ∧
     _dest_cell (repeat_or_idle g1 t1) = Some dst) ∧
  (repeat_enabled t = false ∨ saved_source t = None ∨ saved_dest t = None ∨
   saved_resource t = None ∨ saved_resource t = Some EmptyString ∨
   (∃ src, saved_source t = Some src ∧ leg_to g t src = None) →
   state (repeat_or_idle g1 t1) = idle ∧
   cargo_type (repeat_or_idle g1 t1) = None ∧
   _dest_cell (repeat_or_idle g1 t1) = None).
Proof.
  intros Hrg Hcc Hre Hss Hsd Hsr. unfold repeat_or_idle.
  rewrite Hre, Hss, Hsd, Hsr. split.
  - intros src dst res p -> -> -> -> Hne Hleg.
    rewrite bool_decide_eq_false_2 by done. simpl.
    rewrite (leg_to_frame g g1 t t1 src Hrg Hcc), Hleg. simpl.
    split; [done|]. split; [done|]. split; [by eapply leg_to_last|done].
  - intros Hcase.
    destruct (saved_source t) as [src|]; [|done].
    destruct (saved_dest t) as [dst|]; [|done].
    destruct (saved_resource t) as [res|]; [|done].
    destruct (repeat_enabled t); [|done].
    case_bool_decide as Hres; [done|]. simpl.
    rewrite (leg_to_frame g g1 t t1 src Hrg Hcc).
    destruct Hcase as [?|[?|[?|[?|[[= ->]|(src' & [= <-] & ->)]]]]]; done.
Qed.

(** C7 (as amended): when a truck in state [to_dest] empties its path on
    its destination cell and does not start waiting for bmats, then: if
    [repeat_enabled] is set, the saved source, destination and resource are
    present (the resource not the empty string) and a road leg from the
    truck's cell to the saved source exists, the truck gets that leg, which
    ends at the saved source, in state [to_source] with the saved resource
    as cargo type and the saved destination as destination; if repeat is
    off, a saved parameter is missing, or no such leg exists, the truck goes
    [idle] with cargo type and destination cleared. *)
Theorem repeat_leg_or_idle (g g' : Game) (t t' : Truck) (dest : Coord) :
  state t = to_dest → _dest_cell t = Some dest → current_cell t = dest →
  on_truck_arrival g t = Ok (g', t') → state t' ≠ waiting_for_bmats →
  (∀ src dst res p,
     repeat_enabled t = true → saved_source t = Some src →
     saved_dest t = Some dst → saved_resource t = Some res → res ≠ EmptyString →
     leg_to g t src = Some p →
     state t' = to_source ∧ path_cells t' = p ∧ last p = Some src ∧
     cargo_type t' = Some res ∧ _dest_cell t' = Some dst) ∧
  (repeat_enabled t = false ∨ saved_source t = None ∨ saved_dest t = None ∨
   saved_resource t = None ∨ saved_resource t = Some EmptyString ∨
   (∃ src, saved_source t = Some src ∧ leg_to g t src = None) →
   state t' = idle ∧ cargo_type t' = None ∧ _dest_cell t' = None).
Proof.
  intros Hst Hd Hcur. unfold on_truck_arrival, arrive_at_dest.
  rewrite Hst, Hd, Hcur. rewrite bool_decide_eq_true_2 by done.
  assert (Hpool : ∀ k, deliver_to_pool k g t ≫= (λ '(g1, t1), Ok (g1, repeat_or_idle g1 t1))
                       = Ok (g', t') → ∃ g1 t1,
            t' = repeat_or_idle g1 t1 ∧ road_grid g1 = road_grid g ∧
            current_cell t1 = current_cell t ∧ repeat_enabled t1 = repeat_enabled t ∧
            saved_source t1 = saved_source t ∧ saved_dest t1 = saved_dest t ∧
            saved_resource t1 = saved_resource t).
  { intros k. unfold deliver_to_pool.
    destruct (dict_add k _ _) as [res|e]; [|done]. simpl.
    intros [= <- <-]. by eexists _, _. }
  assert (Hfin : ∀ g1 t1, t' = repeat_or_idle g1 t1 →
            road_grid g1 = road_grid g → current_cell t1 = current_cell t →
            repeat_enabled t1 = repeat_enabled t → saved_source t1 = saved_source t →
            saved_dest t1 = saved_dest t → saved_resource t1 = saved_resource t →
            (∀ src dst res p,
               repeat_enabled t = true → saved_source t = Some src →
               saved_dest t = Some dst → saved_resource t = Some res → res ≠ EmptyString →
               leg_to g t src = Some p →
               state t' = to_source ∧ path_cells t' = p ∧ last p = Some src ∧
               cargo_type t' = Some res ∧ _dest_cell t' = Some dst) ∧
            (repeat_enabled t = false ∨ saved_source t = None ∨ saved_dest t = None ∨
             saved_resource t = None ∨ saved_resource t = Some EmptyString ∨
             (∃ src, saved_source t = Some src ∧ leg_to g t src = None) →
             state t' = idle ∧ cargo_type t' = None ∧ _dest_cell t' = None)).
  { intros g1 t1 -> H1 H2 H3 H4 H5 H6. by apply repeat_or_idle_cases. }
  case_bool_decide as Hbase.
  - destruct (deliverable t _) as [k|].
    + intros Hrun _. apply Hpool in Hrun as (g1 & t1 & E & H1 & H2 & H3 & H4 & H5 & H6).
      by eapply Hfin.
    + intros [= <- <-] _. by eapply Hfin.
  - destruct (get_building_at_cell g dest) as [db|].
    + destruct (bool_decide (is_Some (deliverable t ["stone"])) && _).
      * unfold deliver_to_refinery. destruct (0 <? to_int (cargo_amount t)).
        -- intros [= <- <-] Hw. by destruct Hw.
        -- intros [= <- <-] _. by eapply Hfin.
      * destruct (deliverable t _) as [k|].
        -- intros Hrun _.
           apply Hpool in Hrun as (g1 & t1 & E & H1 & H2 & H3 & H4 & H5 & H6).
           by eapply Hfin.
        -- intros [= <- <-] _. by eapply Hfin.
    + intros [= <- <-] _. by eapply Hfin.
Qed.

Lemma repeat_leg_or_idle_witness :
  state c7_truck_after = idle ∧ cargo_type c7_truck_after = None ∧
  _dest_cell c7_truck_after = None.
Proof.
  refine (proj2 (repeat_leg_or_idle c7_world c7_world_after c7_arriving
                   c7_truck_after (5, 5) _ _ _ _ _) _).
  - reflexivity.
  - reflexivity.
  - reflexivity.
  - by vm_compute.
  - discriminate.
  - right. right. right. right. right. exists (8, 5). split; [reflexivity|by vm_compute].
Defined.

(** Counterexample to C7 as stated: in [c7_world] truck 1 is on its way
    to the base with 5 wood and one path cell left, repeat is on and the
    saved source, destination and resource are all there, but the road to
    the lumber camp is gone.  The tick delivers the wood and leaves the
    truck [idle] with an empty path. *)
Lemma repeat_without_road_goes_idle :
  get_truck_by_id c7_world 1 = Some c7_truck ∧
  repeat_enabled c7_truck = true ∧
  saved_source c7_truck = Some (8, 5) ∧ saved_dest c7_truck = Some (5, 5) ∧
  saved_resource c7_truck = Some "wood" ∧
  (λ g, (trip 1 g, resources g !! "wood")) <$> update 1 c7_world
  = Ok (Some (idle, (5, 5), [], None, 0%Q), Some 5%Q).
Proof. repeat split; by vm_compute. Qed.

(** * Integers among the modelled floats *)

Lemma Qred_inject z : Qred (inject_Z z) = inject_Z z.
Proof.
  apply Qcanon.Qred_identity. simpl. apply Z.gcd_1_r.
Qed.

Lemma fadd_int a b : fadd (inject_Z a) (inject_Z b) = inject_Z (a + b).
Proof.
  unfold fadd. rewrite <- (Qred_inject (a + b)). apply Qred_complete.
  by rewrite inject_Z_plus.
Qed.

Lemma fsub_int a b : fsub (inject_Z a) (inject_Z b) = inject_Z (a - b).
Proof.
  unfold fsub. rewrite <- (Qred_inject (a - b)). apply Qred_complete.
  unfold Z.sub. rewrite inject_Z_plus, inject_Z_opp. reflexivity.
Qed.

Lemma fsub_zero a b : (b == 0)%Q → fsub (inject_Z a) b = inject_Z a.
Proof.
  intros Hb. unfold fsub. transitivity (Qred (inject_Z a)).
  - apply Qred_complete. rewrite Hb. lra.
  - apply Qred_inject.
Qed.

Lemma Qmax_cases a b : Qmax a b = a ∨ Qmax a b = b.
Proof.
  unfold Qmax, GenericMinMax.gmax. destruct (a ?= b)%Q; auto.
Qed.

Lemma Qmin_cases a b : Qmin a b = a ∨ Qmin a b = b.
Proof.
  unfold Qmin, GenericMinMax.gmin. destruct (a ?= b)%Q; auto.
Qed.

Lemma min3_le a b c : (min3 a b c <= a)%Q ∧ (min3 a b c <= b)%Q ∧ (min3 a b c <= c)%Q.
Proof.
  unfold min3. pose proof (Q.le_min_l (Qmin a b) c). pose proof (Q.le_min_r (Qmin a b) c).
  pose proof (Q.le_min_l a b). pose proof (Q.le_min_r a b).
  repeat split; [lra|lra|done].
Qed.

Lemma min3_cases a b c : min3 a b c = a ∨ min3 a b c = b ∨ min3 a b c = c.
Proof.
  unfold min3. destruct (Qmin_cases (Qmin a b) c) as [->| ->]; [|auto].
  destruct (Qmin_cases a b) as [->| ->]; auto.
Qed.

Lemma inject_Z_nonneg z : (0 <= inject_Z z)%Q ↔ 0 ≤ z.
Proof. change 0%Q with (inject_Z 0). by rewrite <- Zle_Qle. Qed.

Lemma inject_Z_pos z : (0 < inject_Z z)%Q ↔ 0 < z.
Proof. change 0%Q with (inject_Z 0). by rewrite <- Zlt_Qlt. Qed.

(** [int(x)] of a non-negative [x] is a non-negative integer below [x]. *)
Lemma to_int_bounds q :
  (0 <= q)%Q → 0 ≤ to_int q ∧ (inject_Z (to_int q) <= q)%Q.
Proof.
  destruct q as [n d]. unfold Qle, to_int. simpl. intros Hn.
  assert (0 ≤ n) by lia.
  rewrite Z.quot_div_nonneg by lia. split.
  - apply Z.div_pos; lia.
  - rewrite Z.mul_1_r, Z.mul_comm. apply Z.mul_div_le. lia.
Qed.

(** * Invariance: trucks *)

Lemma truck_ok_view t t' : cargo_view t' = cargo_view t → truck_ok t → truck_ok t'.
Proof.
  unfold cargo_view, truck_ok. intros [= -> -> ->]. done.
Qed.

Lemma truck_ok_set_cargo v t :
  truck_ok t → (0 <= v)%Q → (v <= cargo_capacity t)%Q →
  truck_ok (set_cargo_amount v t).
Proof.
  intros (H1 & H2 & H3 & H4) Hv1 Hv2. unfold truck_ok. simpl. done.
Qed.

Lemma truck_ok_load t amount_available :
  truck_ok t → Qltb 0 (load_amount_of amount_available t) = true →
  truck_ok (set_cargo_amount
              (fadd (cargo_amount t) (load_amount_of amount_available t)) t).
Proof.
  intros Ht Hpos. apply Qltb_lt in Hpos.
  destruct (min3_le 5 amount_available (fsub (cargo_capacity t) (cargo_amount t)))
    as (_ & _ & Hle).
  fold (load_amount_of amount_available t) in Hle. rewrite fsub_eq in Hle.
  destruct Ht as (H1 & H2 & H3 & H4).
  apply truck_ok_set_cargo; [done|rewrite fadd_eq; lra|rewrite fadd_eq; lra].
Qed.

Lemma update_first_Forall {A : Type} (P : A → Prop) p f (l : list A) :
  (∀ x, P x → P (f x)) → Forall P l → Forall P (update_first p f l).
Proof.
  intros Hf. induction 1 as [|x l Hx Hl IH]; [constructor|].
  simpl. destruct (p x); constructor; auto.
Qed.

Lemma update_first_map {A B : Type} (h : A → B) p f (l : list A) :
  (∀ x, h (f x) = h x) → map h (update_first p f l) = map h l.
Proof.
  intros Hf. induction l as [|x l IH]; [done|].
  simpl. destruct (p x); simpl; by rewrite ?Hf, ?IH.
Qed.

Lemma remove_first_Forall {A : Type} (P : A → Prop) p (l : list A) :
  Forall P l → Forall P (remove_first p l).
Proof.
  induction 1 as [|x l Hx Hl IH]; [constructor|].
  simpl. destruct (p x); [done|by constructor].
Qed.

Lemma same_site_refl g : same_site g g.
Proof. by split. Qed.

Lemma same_site_trans g1 g2 g3 : same_site g1 g2 → same_site g2 g3 → same_site g1 g3.
Proof. intros [H1 H2] [H3 H4]. split; congruence. Qed.

Lemma same_site_update_building c f g :
  (∀ b, cell (f b) = cell b) → same_site g (update_building_at c f g).
Proof.
  intros Hf. split; [done|]. simpl. by apply update_first_map.
Qed.

Lemma same_site_set_resources r g : same_site g (set_resources r g).
Proof. by split. Qed.

Lemma adjacent_same_base g g' c :
  base_cell g' = base_cell g →
  is_cell_adjacent_to_base g' c = is_cell_adjacent_to_base g c.
Proof. intros H. unfold is_cell_adjacent_to_base. by rewrite H. Qed.

Lemma buildings_ok_same_site g g' :
  same_site g g' →
  Forall (λ b, is_cell_adjacent_to_base g (cell b) = false) (buildings g) →
  Forall (λ b, is_cell_adjacent_to_base g' (cell b) = false) (buildings g').
Proof.
  intros [Hb Hc] H.
  apply (Forall_fmap cell (λ c, is_cell_adjacent_to_base g' c = false)).
  change (cell <$> buildings g') with (map cell (buildings g')). rewrite Hc.
  apply Forall_fmap. eapply Forall_impl; [exact H|].
  intros b Hx. simpl. by rewrite (adjacent_same_base g g').
Qed.

Lemma base_cell_adjacent g : is_cell_adjacent_to_base g (base_cell g) = true.
Proof.
  unfold is_cell_adjacent_to_base. destruct (base_cell g) as [x y]. simpl.
  repeat (apply andb_true_intro; split); lia.
Qed.

Lemma no_building_on_base g b :
  Forall (λ b, is_cell_adjacent_to_base g (cell b) = false) (buildings g) →
  get_building_at_cell g (base_cell g) = Some b → False.
Proof.
  intros H Hb. unfold get_building_at_cell in Hb.
  apply find_some in Hb as [Hin Hc]. apply bool_decide_eq_true in Hc.
  rewrite Forall_forall in H. apply list_elem_of_In in Hin.
  specialize (H _ Hin). simpl in H. rewrite Hc, base_cell_adjacent in H. done.
Qed.

(** * Invariance: the pool *)

Lemma pool_ok_insert k v pool :
  pool_ok pool → (∃ z : Z, 0 ≤ z ∧ v = inject_Z z) → pool_ok (<[k := v]> pool).
Proof.
  intros Hp Hv k' v'. destruct (decide (k = k')) as [->|Hne].
  - rewrite lookup_insert_eq. by intros [= <-].
  - rewrite lookup_insert_ne by done. apply Hp.
Qed.

Lemma pool_ok_get k pool :
  pool_ok pool → ∃ z : Z, 0 ≤ z ∧ dict_get k 0 pool = inject_Z z.
Proof.
  intros Hp. unfold dict_get. destruct (pool !! k) as [v|] eqn:E.
  - apply (Hp k v E).
  - by exists 0.
Qed.

Lemma pool_ok_add k z pool pool' :
  pool_ok pool → dict_add k (inject_Z z) pool = Ok pool' →
  (∀ v, pool !! k = Some v → (0 <= v + inject_Z z)%Q) → pool_ok pool'.
Proof.
  intros Hp. unfold dict_add. destruct (pool !! k) as [v|] eqn:E; [|done].
  intros [= <-] Hnn. apply pool_ok_insert; [done|].
  destruct (Hp k v E) as (a & Ha & ->). exists (a + z).
  rewrite fadd_int. split; [|done].
  specialize (Hnn _ eq_refl). rewrite <- inject_Z_plus in Hnn.
  by apply inject_Z_nonneg.
Qed.

(** * Invariance: arrival handling *)

Lemma load_from_building_ok ty res c b g t l g1 t1 :
  truck_ok t → load_from_building ty res c b g t = (l, g1, t1) →
  same_site g g1 ∧ resources g1 = resources g ∧ truck_ok t1.
Proof.
  intros Ht. unfold load_from_building. cbv zeta.
  destruct (Qltb 0 _) eqn:Hpos; intros [= <- <- <-].
  - split; [|split].
    + case_bool_decide; [by apply same_site_update_building|apply same_site_refl].
    + by case_bool_decide.
    + by apply truck_ok_load.
  - split; [apply same_site_refl|done].
Qed.

Lemma Qmax_zero_int w : ∃ z : Z, 0 ≤ z ∧ Qmax 0 (inject_Z w) = inject_Z z.
Proof.
  destruct (Qmax_cases 0 (inject_Z w)) as [E|E].
  - exists 0. by rewrite E.
  - exists w. split; [|done]. apply inject_Z_nonneg. rewrite <- E. apply Q.le_max_l.
Qed.

Lemma load_from_base_ok res g t l g1 t1 :
  pool_ok (resources g) → truck_ok t → (cargo_amount t == 0)%Q →
  load_from_base res g t = (l, g1, t1) →
  same_site g g1 ∧ pool_ok (resources g1) ∧ truck_ok t1.
Proof.
  intros Hp Ht Hz. unfold load_from_base. cbv zeta.
  destruct (Qltb 0 _) eqn:Hpos; intros [= <- <- <-].
  - split; [apply same_site_set_resources|]. split; [|by apply truck_ok_load].
    simpl. apply pool_ok_insert; [done|].
    destruct (pool_ok_get res _ Hp) as (z & Hz0 & ->).
    assert (∃ n : Z, load_amount_of (inject_Z z) t = inject_Z n) as [n ->].
    { unfold load_amount_of. destruct Ht as (_ & _ & -> & _).
      change 20%Q with (inject_Z 20). rewrite fsub_zero by done.
      destruct (min3_cases 5 (inject_Z z) (inject_Z 20)) as [->|[->| ->]];
        [by exists 5|by exists z|by exists 20]. }
    rewrite fsub_int. apply Qmax_zero_int.
  - split; [apply same_site_refl|done].
Qed.

Lemma go_to_destination_view g t : cargo_view (go_to_destination g t) = cargo_view t.
Proof. unfold go_to_destination. repeat case_match; reflexivity. Qed.

Lemma repeat_or_idle_view g t : cargo_view (repeat_or_idle g t) = cargo_view t.
Proof. unfold repeat_or_idle. repeat case_match; reflexivity. Qed.

Lemma load_cargo_ok c b g t g1 t1 r :
  truck_ok t → c ≠ base_cell g → load_cargo c b g t = (g1, t1, r) →
  same_site g g1 ∧ resources g1 = resources g ∧ truck_ok t1.
Proof.
  intros Ht Hc. unfold load_cargo.
  rewrite (bool_decide_eq_false_2 (c = base_cell g)) by done.
  repeat case_bool_decide.
  - destruct (load_from_building lumber "wood" c b g t) as [[l g' ] t'] eqn:E.
    intros [= <- <- <-]. by eapply load_from_building_ok.
  - destruct (load_from_building quarry "stone" c b g t) as [[l g' ] t'] eqn:E.
    apply load_from_building_ok in E as (H1 & H2 & H3); [|done].
    destruct (Qltb 0 l && refinery_loop t').
    + destruct (_dest_cell t') as [d|]; [|by intros [= <- <- <-]].
      destruct (leg_to g' t' d); intros [= <- <- <-]; [|done].
      split; [done|]. split; [done|]. by apply (truck_ok_view t').
    + by intros [= <- <- <-].
  - destruct (load_from_building refinery "bmats" c b g t) as [[l g' ] t'] eqn:E.
    intros [= <- <- <-]. by eapply load_from_building_ok.
  - intros [= <- <- <-]. split; [apply same_site_refl|]. split; [done|].
    by apply (truck_ok_view t).
Qed.

Lemma arrive_at_source_ok g t g1 t1 :
  truck_ok t →
  Forall (λ b, is_cell_adjacent_to_base g (cell b) = false) (buildings g) →
  arrive_at_source g t = (g1, t1) →
  same_site g g1 ∧ resources g1 = resources g ∧ truck_ok t1.
Proof.
  intros Ht Hb. unfold arrive_at_source.
  destruct (saved_source t) as [c|]; last first.
  { intros [= <- <-]. split; [apply same_site_refl|]. split; [done|]. by apply (truck_ok_view t). }
  case_bool_decide; last first.
  { intros [= <- <-]. split; [apply same_site_refl|done]. }
  destruct (get_building_at_cell g c) as [b|] eqn:Eb; last first.
  { intros [= <- <-]. split; [apply same_site_refl|]. split; [done|]. by apply (truck_ok_view t). }
  assert (Hc : c ≠ base_cell g).
  { intros ->. by eapply no_building_on_base. }
  destruct (load_cargo c b g t) as [[g' t'] r] eqn:E.
  apply load_cargo_ok in E as (H1 & H2 & H3); [|done|done].
  destruct r; intros [= <- <-]; [done|].
  split; [done|]. split; [done|].
  apply (truck_ok_view t'); [apply go_to_destination_view|done].
Qed.

Lemma deliverable_positive t kinds k :
  deliverable t kinds = Some k → (0 < cargo_amount t)%Q.
Proof.
  unfold deliverable. destruct (cargo_type t); [|done].
  destruct (bool_decide _); [|done]. simpl.
  destruct (Qltb 0 (cargo_amount t)) eqn:E; [|done].
  intros _. by apply Qltb_lt.
Qed.

Lemma deliver_to_pool_ok k g t g1 t1 :
  pool_ok (resources g) → truck_ok t → (0 < cargo_amount t)%Q →
  deliver_to_pool k g t = Ok (g1, t1) →
  same_site g g1 ∧ pool_ok (resources g1) ∧ truck_ok t1.
Proof.
  intros Hp Ht Hpos. unfold deliver_to_pool. cbv zeta. unfold of_int.
  destruct (dict_add k _ _) as [res|e] eqn:E; [|done]. simpl.
  intros [= <- <-]. split; [apply same_site_set_resources|]. simpl.
  destruct (to_int_bounds (cargo_amount t)) as [Hi _]; [lra|].
  split.
  - eapply pool_ok_add; [exact Hp|exact E|].
    intros v Hv. destruct (Hp _ _ Hv) as (a & Ha & ->).
    rewrite <- inject_Z_plus. apply inject_Z_nonneg. lia.
  - destruct Ht as (H1 & H2 & H3 & H4).
    apply truck_ok_set_cargo; [done|lra|lra].
Qed.

Lemma arrive_at_dest_ok g t g1 t1 :
  pool_ok (resources g) → truck_ok t →
  arrive_at_dest g t = Ok (g1, t1) →
  same_site g g1 ∧ pool_ok (resources g1) ∧ truck_ok t1.
Proof.
  intros Hp Ht. unfold arrive_at_dest.
  assert (Hsame : ∀ g' t', same_site g g' → pool_ok (resources g') → truck_ok t' →
            Ok (g', repeat_or_idle g' t') = Ok (g1, t1) →
            same_site g g1 ∧ pool_ok (resources g1) ∧ truck_ok t1).
  { intros g' t' H1 H2 H3 [= <- <-]. split; [done|]. split; [done|].
    apply (truck_ok_view t'); [apply repeat_or_idle_view|done]. }
  assert (Hpool : ∀ k, deliverable t ["wood"; "stone"; "bmats"] = Some k ∨
                       deliverable t ["wood"; "bmats"] = Some k →
            deliver_to_pool k g t ≫= (λ '(g', t'), Ok (g', repeat_or_idle g' t'))
            = Ok (g1, t1) →
            same_site g g1 ∧ pool_ok (resources g1) ∧ truck_ok t1).
  { intros k Hk. destruct (deliver_to_pool k g t) as [[g' t']|e] eqn:E; [|done].
    simpl. apply deliver_to_pool_ok in E as (H1 & H2 & H3); [|done|done|].
    - by apply Hsame.
    - destruct Hk as [Hk|Hk]; by eapply deliverable_positive. }
  destruct (_dest_cell t) as [d|]; last first.
  { intros [= <- <-]. split; [apply same_site_refl|]. split; [done|]. by apply (truck_ok_view t). }
  case_bool_decide as Hat.
  - case_bool_decide as Hbase.
    + destruct (deliverable t ["wood"; "stone"; "bmats"]) as [k|] eqn:Ek.
      * apply Hpool. by left.
      * apply Hsame; [apply same_site_refl|done|done].
    + destruct (get_building_at_cell g d) as [db|]; last first.
      { apply Hsame; [apply same_site_refl|done|done]. }
      destruct (bool_decide (is_Some (deliverable t ["stone"]))) eqn:Es; simpl.
      * apply bool_decide_eq_true in Es as [k Es].
        apply deliverable_positive in Es.
        destruct (to_int_bounds (cargo_amount t)) as [Hi1 Hi2]; [lra|].
        destruct Ht as (H1 & H2 & H3 & H4).
        assert (Ht0 : truck_ok (set_cargo_amount 0 t)).
        { apply truck_ok_set_cargo; [done|lra|lra]. }
        destruct (bool_decide (type db = refinery)); simpl.
        -- unfold deliver_to_refinery. cbv zeta.
           destruct (0 <? to_int (cargo_amount t)) eqn:Epos.
           ++ intros [= <- <-].
              split; [by apply same_site_update_building|]. split; [done|].
              unfold truck_ok. simpl. unfold of_int.
              split; [lra|]. split; [lra|]. split; [done|].
              split; [by apply inject_Z_nonneg|lra].
           ++ apply Hsame; [by apply same_site_update_building|done|done].
        -- destruct (deliverable t ["wood"; "bmats"]) as [k'|] eqn:Ek.
           ++ apply Hpool. by right.
           ++ apply Hsame; [apply same_site_refl|done|done].
      * destruct (deliverable t ["wood"; "bmats"]) as [k'|] eqn:Ek.
        -- apply Hpool. by right.
        -- apply Hsame; [apply same_site_refl|done|done].
  - destruct (refinery_loop t && bool_decide (cargo_type t = Some "stone")
              && Qeq_bool (cargo_amount t) 0) eqn:Eloop; last first.
    { apply Hsame; [apply same_site_refl|done|done]. }
    apply andb_true_iff in Eloop as [_ Ez]. apply Qeq_bool_iff in Ez.
    destruct (is_cell_in_base_area g (current_cell t)); last first.
    { apply Hsame; [apply same_site_refl|done|done]. }
    destruct (load_from_base "stone" g t) as [[l g'] t'] eqn:El.
    apply load_from_base_ok in El as (H1 & H2 & H3); [|done|done|done].
    destruct (Qltb 0 l).
    + by apply Hsame.
    + intros [= <- <-]. split; [apply same_site_refl|]. split; [done|].
      by apply (truck_ok_view t).
Qed.

Lemma on_truck_arrival_ok g t g1 t1 :
  pool_ok (resources g) → truck_ok t →
  Forall (λ b, is_cell_adjacent_to_base g (cell b) = false) (buildings g) →
  on_truck_arrival g t = Ok (g1, t1) →
  same_site g g1 ∧ pool_ok (resources g1) ∧ truck_ok t1.
Proof.
  intros Hp Ht Hb. unfold on_truck_arrival.
  destruct (state t); try (intros [= <- <-]; split; [apply same_site_refl|done]).
  - destruct (arrive_at_source g t) as [g' t'] eqn:E. intros [= <- <-].
    apply arrive_at_source_ok in E as (H1 & H2 & H3); [|done|done].
    split; [done|]. split; [by rewrite H2|done].
  - by apply arrive_at_dest_ok.
  - done.
Qed.

Lemma update_truck_ok g t dt g1 t1 :
  pool_ok (resources g) → truck_ok t →
  Forall (λ b, is_cell_adjacent_to_base g (cell b) = false) (buildings g) →
  update_truck g t dt = Ok (g1, t1) →
  same_site g g1 ∧ pool_ok (resources g1) ∧ truck_ok t1.
Proof.
  intros Hp Ht Hb. unfold update_truck.
  destruct (path_cells t) as [|c rest].
  { intros [= <- <-]. split; [apply same_site_refl|done]. }
  cbv zeta. destruct (Qltb _ _).
  - destruct rest.
    + apply on_truck_arrival_ok; [done| |done]. by apply (truck_ok_view t).
    + intros [= <- <-]. split; [apply same_site_refl|]. split; [done|]. by apply (truck_ok_view t).
  - destruct (Qle_bool _ _); intros [= <- <-];
      (split; [apply same_site_refl|]; split; [done|]; by apply (truck_ok_view t)).
Qed.

Lemma update_trucks_ok dt ts :
  ∀ g g1 ts1,
  pool_ok (resources g) → Forall truck_ok ts →
  Forall (λ b, is_cell_adjacent_to_base g (cell b) = false) (buildings g) →
  update_trucks g dt ts = Ok (g1, ts1) →
  same_site g g1 ∧ pool_ok (resources g1) ∧ Forall truck_ok ts1.
Proof.
  induction ts as [|t ts IH]; intros g g1 ts1 Hp Hts Hb.
  { intros [= <- <-]. split; [apply same_site_refl|done]. }
  simpl. destruct (update_truck g t dt) as [[g' t']|e] eqn:E; [|done]. simpl.
  destruct (update_trucks g' dt ts) as [[g'' ts']|e] eqn:E'; [|done]. simpl.
  intros [= <- <-]. inversion Hts as [|? ? Ht Hts']; subst.
  apply update_truck_ok in E as (H1 & H2 & H3); [|done|done|done].
  apply IH in E' as (H4 & H5 & H6);
    [|done|done|by eapply buildings_ok_same_site].
  split; [by eapply same_site_trans|]. split; [done|]. by constructor.
Qed.

(** * Invariance: the commands *)

Lemma update_ok dt g g' : world_ok g → update dt g = Ok g' → world_ok g'.
Proof.
  intros [Hp Ht Hb]. unfold update. cbv zeta.
  set (g1 := set_buildings (map (produce g dt) (buildings g)) g).
  assert (Hs1 : same_site g g1).
  { split; [done|]. simpl. rewrite map_map. apply map_ext. intros b. apply produce_cell. }
  destruct (update_trucks g1 dt (trucks g1)) as [[g2 ts]|e] eqn:E; [|done].
  simpl. intros [= <-].
  apply update_trucks_ok in E as (H1 & H2 & H3);
    [|done|done|by eapply buildings_ok_same_site].
  split; [done|done|].
  apply (buildings_ok_same_site g); [|done].
  destruct (same_site_trans _ _ _ Hs1 H1). by split.
Qed.

Lemma pool_ok_positive k v pool :
  pool_ok pool → pool !! k = Some v → ∃ z : Z, 0 ≤ z ∧ v = inject_Z z ∧ dict_get k 0 pool = v.
Proof.
  intros Hp Hv. destruct (Hp k v Hv) as (z & Hz & ->).
  exists z. unfold dict_get. by rewrite Hv.
Qed.

Lemma paint_cell_ok c g : world_ok g → world_ok (paint_cell c g).
Proof.
  intros [Hp Ht Hb]. unfold paint_cell.
  destruct (_ || _); [done|].
  destruct (Qle_bool _ _) eqn:E; [done|].
  split; [|done|done]. simpl. apply pool_ok_insert; [done|].
  destruct (pool_ok_get "bmats" _ Hp) as (z & Hz & Hg). rewrite Hg in E |- *.
  apply (Qle_bool_false (inject_Z z) 0) in E. apply (inject_Z_pos z) in E.
  exists (z - 1). split; [lia|]. apply (fsub_int z 1).
Qed.

Lemma add_building_ok b g :
  world_ok g → is_cell_adjacent_to_base g (cell b) = false →
  world_ok (add_building b g).
Proof.
  intros [Hp Ht Hb] Hc. split; [done|done|]. simpl.
  apply Forall_app. split; [done|]. by constructor.
Qed.

Lemma place_lumber_camp_ok c g : world_ok g → world_ok (place_lumber_camp c g).
Proof.
  intros Hg. unfold place_lumber_camp, can_place_lumber.
  repeat (case_match; simpl; try done).
  by apply add_building_ok.
Qed.

Lemma place_quarry_ok c g : world_ok g → world_ok (place_quarry c g).
Proof.
  intros Hg. unfold place_quarry, can_place_quarry.
  repeat (case_match; simpl; try done).
  by apply add_building_ok.
Qed.

Lemma place_refinery_ok c g : world_ok g → world_ok (place_refinery c g).
Proof.
  intros Hg. unfold place_refinery, can_place_refinery.
  repeat (case_match; simpl; try done).
  by apply add_building_ok.
Qed.

Lemma bulldoze_cell_ok c g g' : world_ok g → bulldoze_cell c g = Ok g' → world_ok g'.
Proof.
  intros [Hp Ht Hb]. unfold bulldoze_cell. case_bool_decide.
  - cbv zeta. simpl. destruct (dict_add _ _ _) as [res|e] eqn:E; [|done].
    simpl. intros [= <-]. split; [|done|done]. simpl.
    eapply (pool_ok_add "bmats" 1); [exact Hp|exact E|].
    intros v Hv. destruct (Hp _ _ Hv) as (a & Ha & ->).
    rewrite <- inject_Z_plus. apply inject_Z_nonneg. lia.
  - destruct (get_building_at_cell g c); intros [= <-]; [|done].
    split; [done|done|]. simpl. by apply remove_first_Forall.
Qed.

Lemma execute_bulldoze_ok cells :
  ∀ g g', world_ok g → execute_bulldoze cells g = Ok g' → world_ok g'.
Proof.
  induction cells as [|c cells IH]; intros g g' Hg; [by intros [= <-]|].
  simpl. destruct (bulldoze_cell c g) as [g1|e] eqn:E; [|done]. simpl.
  apply IH. by eapply bulldoze_cell_ok.
Qed.

Lemma spawn_truck_at_base_ok g : world_ok g → world_ok (spawn_truck_at_base g).
Proof.
  intros [Hp Ht Hb]. split; [done| |done]. simpl.
  apply Forall_app. split; [done|]. constructor; [|constructor].
  unfold truck_ok. simpl. repeat split; done.
Qed.

Lemma build_new_truck_ok g g' : world_ok g → build_new_truck g = Ok g' → world_ok g'.
Proof.
  intros Hg. unfold build_new_truck. cbv zeta. unfold of_int.
  destruct (Qle_bool _ _) eqn:Ecost; [|by intros [= <-]].
  destruct (dict_add _ _ _) as [res|e] eqn:E; [|done]. simpl.
  intros [= <-].
  assert (Hg1 : world_ok (set_resources res g)).
  { destruct Hg as [Hp Ht Hb]. split; [|done|done]. simpl.
    change (- inject_Z (get_truck_cost g))%Q with (inject_Z (- get_truck_cost g)) in E.
    eapply pool_ok_add; [exact Hp|exact E|].
    intros v Hv. apply Qle_bool_iff in Ecost.
    unfold dict_get in Ecost. rewrite Hv in Ecost. simpl in Ecost.
    rewrite inject_Z_opp. lra. }
  apply spawn_truck_at_base_ok in Hg1. destruct Hg1 as [Hp Ht Hb].
  split; done.
Qed.

Lemma routed_view path st start_cell source dest resource t :
  cargo_view (routed path st start_cell source dest resource t) = cargo_view t.
Proof. reflexivity. Qed.

Lemma assign_close_view g t start_cell source_road dest_road source dest resource t' :
  assign_close g t start_cell source_road dest_road source dest resource = Some t' →
  cargo_view t' = cargo_view t.
Proof.
  unfold assign_close. repeat case_match; intros [= <-]; reflexivity.
Qed.

Lemma assign_view g source dest resource t :
  cargo_view (assign g source dest resource t) = cargo_view t.
Proof.
  unfold assign.
  destruct (find_nearest_road_to_cell _ (world_pos_to_cell _) _) as [start_cell|]; [|done].
  destruct (find_nearest_road_to_cell _ source _) as [source_road|]; [|done].
  destruct (find_nearest_road_to_cell _ dest _) as [dest_road|]; [|done].
  destruct (_ && _).
  - repeat case_match; reflexivity.
  - destruct (assign_close _ _ _ _ _ _ _ _) as [t'|] eqn:E.
    + by eapply assign_close_view.
    + repeat case_match; reflexivity.
Qed.

Lemma update_trucks_list_ok p f g :
  (∀ t, truck_ok t → truck_ok (f t)) →
  world_ok g → world_ok (set_trucks (update_first p f (trucks g)) g).
Proof.
  intros Hf [Hp Ht Hb]. split; [done| |done]. simpl.
  by apply update_first_Forall.
Qed.

Lemma run_command_ok cmd g g' : world_ok g → run_command cmd g = Ok g' → world_ok g'.
Proof.
  intros Hg. destruct cmd; simpl.
  - intros [= <-]. by apply paint_cell_ok.
  - intros [= <-]. by apply place_lumber_camp_ok.
  - intros [= <-]. by apply place_quarry_ok.
  - intros [= <-]. by apply place_refinery_ok.
  - by apply execute_bulldoze_ok.
  - by apply build_new_truck_ok.
  - intros [= <-]. apply update_trucks_list_ok; [|done].
    intros t. apply truck_ok_view, assign_view.
  - intros [= <-]. apply update_trucks_list_ok; [|done].
    intros t. by apply truck_ok_view.
  - intros [= <-]. apply update_trucks_list_ok; [|done].
    intros t (H1 & H2 & H3 & H4). unfold truck_ok, reset_truck. simpl.
    split; [lra|]. split; [lra|done].
  - by apply update_ok.
Qed.

Lemma new_game_ok base trees0 stones0 : world_ok (new_game base trees0 stones0).
Proof.
  split.
  - intros k v Hk. apply elem_of_list_to_map_2 in Hk.
    repeat (apply elem_of_cons in Hk as [[= -> ->]|Hk];
            [first [by exists 0|by exists 10]|]).
    by apply elem_of_nil in Hk.
  - simpl. repeat constructor; simpl; lra.
  - constructor.
Qed.

Lemma reachable_world_ok g : reachable g → world_ok g.
Proof.
  induction 1 as [base trees0 stones0 _|g cmd g' _ IH Hrun].
  - apply new_game_ok.
  - by eapply run_command_ok.
Qed.

(** * C5: the cargo bound *)

Lemma truck_ok_within t : truck_ok t → cargo_within t.
Proof. intros (H1 & H2 & _). by split. Qed.

Lemma load_from_building_adds ty res c b g t l g1 t1 :
  truck_ok t → load_from_building ty res c b g t = (l, g1, t1) →
  l = min3 5 (if bool_decide (type b = ty) then dict_get res 0 (storage b) else 0%Q)
        (fsub (cargo_capacity t) (cargo_amount t)) ∧
  ((0 < l)%Q → (cargo_amount t1 == cargo_amount t + l)%Q) ∧
  ((l <= 0)%Q → t1 = t ∧ g1 = g) ∧
  cargo_within t1.
Proof.
  intros Ht E. pose proof (load_from_building_ok _ _ _ _ _ _ _ _ _ Ht E) as (_ & _ & Hok).
  revert E. unfold load_from_building. cbv zeta. fold (load_amount_of
    (if bool_decide (type b = ty) then dict_get res 0 (storage b) else 0%Q) t).
  destruct (Qltb 0 _) eqn:Hpos; intros [= <- <- <-].
  - split; [done|]. split; [intros _; apply fadd_eq|]. split; [|by apply truck_ok_within].
    intros Hle. apply Qltb_lt in Hpos. lra.
  - split; [done|]. split; [|split; [done|by apply truck_ok_within]].
    intros Hlt. apply Qltb_ge in Hpos. lra.
Qed.

Lemma load_from_base_adds res g t l g1 t1 :
  truck_ok t → load_from_base res g t = (l, g1, t1) →
  l = min3 5 (dict_get res 0 (resources g))
        (fsub (cargo_capacity t) (cargo_amount t)) ∧
  ((0 < l)%Q → (cargo_amount t1 == cargo_amount t + l)%Q) ∧
  ((l <= 0)%Q → t1 = t ∧ g1 = g) ∧
  cargo_within t1.
Proof.
  intros Ht. unfold load_from_base. cbv zeta.
  fold (load_amount_of (dict_get res 0 (resources g)) t).
  destruct (Qltb 0 _) eqn:Hpos; intros [= <- <- <-].
  - split; [done|]. split; [intros _; apply fadd_eq|].
    split; [|by apply truck_ok_within, truck_ok_load].
    intros Hle. apply Qltb_lt in Hpos. lra.
  - split; [done|]. split; [|split; [done|by apply truck_ok_within]].
    intros Hlt. apply Qltb_ge in Hpos. lra.
Qed.

Lemma wait_for_bmats_within dt g t g1 t1 :
  truck_ok t → wait_for_bmats dt g t = (g1, t1) → cargo_within t1.
Proof.
  intros Ht. pose proof (truck_ok_within t Ht) as Hw.
  unfold wait_for_bmats. cbv zeta. simpl.
  destruct (_dest_cell t) as [d|]; [|by intros [= <- <-]].
  destruct (get_building_at_cell g d) as [db|]; [|by intros [= <- <-]].
  destruct (bool_decide (type db = refinery)); [|by intros [= <- <-]].
  destruct (Qle_bool _ _); [|by intros [= <- <-]].
  assert (Hc : cargo_within
                 (set_cargo_amount (default 5%Q (waiting_target t))
                    (set_cargo_type (Some "bmats")
                       (set_waiting_timer
                          (Some (fadd (default 0%Q (waiting_timer t)) dt)) t)))).
  { destruct Ht as (H1 & H2 & H3 & H4). unfold cargo_within. simpl.
    destruct (waiting_target t) as [w|]; simpl; [done|]. rewrite H3. split; lra. }
  destruct (leg_to _ _ _); by intros [= <- <-].
Qed.

(** C5: in every reachable world every truck has
    [0 <= cargo_amount <= cargo_capacity], and the bound holds again after
    its [update_truck] step and after [on_truck_arrival], whenever these
    return.  A load, from a building or from the base pool, is
    [min(5, amount available, capacity - cargo)]: it is added to the cargo
    when positive and the operation changes nothing otherwise.  Either
    unload leaves the cargo at zero.  The withdrawal of the
    [waiting_for_bmats] branch, for whatever value [dt] would have, leaves
    the cargo within the capacity. *)
Theorem cargo_within_capacity (g : Game) (t : Truck) :
  reachable g → t ∈ trucks g →
  cargo_within t ∧
  (∀ dt g1 t1, update_truck g t dt = Ok (g1, t1) → cargo_within t1) ∧
  (∀ g1 t1, on_truck_arrival g t = Ok (g1, t1) → cargo_within t1) ∧
  (∀ ty res c b l g1 t1, load_from_building ty res c b g t = (l, g1, t1) →
     l = min3 5 (if bool_decide (type b = ty) then dict_get res 0 (storage b) else 0%Q)
           (fsub (cargo_capacity t) (cargo_amount t)) ∧
     ((0 < l)%Q → (cargo_amount t1 == cargo_amount t + l)%Q) ∧
     ((l <= 0)%Q → t1 = t ∧ g1 = g) ∧
     cargo_within t1) ∧
  (∀ res l g1 t1, load_from_base res g t = (l, g1, t1) →
     l = min3 5 (dict_get res 0 (resources g))
           (fsub (cargo_capacity t) (cargo_amount t)) ∧
     ((0 < l)%Q → (cargo_amount t1 == cargo_amount t + l)%Q) ∧
     ((l <= 0)%Q → t1 = t ∧ g1 = g) ∧
     cargo_within t1) ∧
  (∀ k g1 t1, deliver_to_pool k g t = Ok (g1, t1) → cargo_amount t1 = 0%Q) ∧
  (∀ c d g1 t1, deliver_to_refinery c g t = (d, g1, t1) → cargo_amount t1 = 0%Q) ∧
  (∀ dt g1 t1, wait_for_bmats dt g t = (g1, t1) → cargo_within t1).
Proof.
  intros Hg Hin. destruct (reachable_world_ok g Hg) as [Hp Hts Hb].
  rewrite Forall_forall in Hts. pose proof (Hts t Hin) as Ht.
  split; [by apply truck_ok_within|].
  split.
  { intros dt g1 t1 E. apply update_truck_ok in E as (_ & _ & H); [|done..].
    by apply truck_ok_within. }
  split.
  { intros g1 t1 E. apply on_truck_arrival_ok in E as (_ & _ & H); [|done..].
    by apply truck_ok_within. }
  split; [intros ty res c b l g1 t1; by apply load_from_building_adds|].
  split; [intros res l g1 t1; by apply load_from_base_adds|].
  split.
  { intros k g1 t1. unfold deliver_to_pool. cbv zeta.
    destruct (dict_add _ _ _); [|done]. by intros [= <- <-]. }
  split.
  { intros c d g1 t1. unfold deliver_to_refinery. by intros [= <- <- <-]. }
  intros dt g1 t1. by apply wait_for_bmats_within.
Qed.

Lemma cargo_within_capacity_witness :
  reachable c7_world ∧ c7_truck ∈ trucks c7_world ∧ cargo_within c7_truck.
Proof.
  assert (H1 : reachable c7_world)
    by apply world_after_reachable, ex_start_reachable.
  assert (H2 : c7_truck ∈ trucks c7_world)
    by (apply list_elem_of_In; vm_compute; by left).
  split; [exact H1|]. split; [exact H2|].
  exact (proj1 (cargo_within_capacity c7_world c7_truck H1 H2)).
Defined.

(** * C8 and C10: the base pool *)

(** C8: every entry of the base pool of a reachable world is an integer;
    whatever a command or a tick does to the world, an entry that is there
    before and after has changed by an integer amount; the production pass
    of the tick, where fractions accrue, writes to building storage and
    leaves the pool as it is. *)
Theorem pool_entries_are_integers (g : Game) :
  reachable g →
  (∀ k v, resources g !! k = Some v → ∃ z : Z, v = inject_Z z) ∧
  (∀ cmd g' k v v', run_command cmd g = Ok g' →
     resources g !! k = Some v → resources g' !! k = Some v' →
     ∃ d : Z, (v' == v + inject_Z d)%Q) ∧
  (∀ dt, resources (set_buildings (map (produce g dt) (buildings g)) g)
         = resources g).
Proof.
  intros Hg. pose proof (reachable_world_ok g Hg) as Hok.
  split; [|split].
  - intros k v Hv. destruct (ok_pool g Hok k v Hv) as (z & _ & ->). by exists z.
  - intros cmd g' k v v' Hrun Hv Hv'.
    pose proof (run_command_ok cmd g g' Hok Hrun) as Hok'.
    destruct (ok_pool g Hok k v Hv) as (z & _ & ->).
    destruct (ok_pool g' Hok' k v' Hv') as (z' & _ & ->).
    exists (z' - z). rewrite <- inject_Z_plus. f_equiv. lia.
  - done.
Qed.

Lemma pool_entries_are_integers_witness :
  reachable c7_world ∧ resources c7_world !! "bmats" = Some 10%Q ∧
  ∃ z : Z, 10%Q = inject_Z z.
Proof.
  assert (H1 : reachable c7_world)
    by apply world_after_reachable, ex_start_reachable.
  assert (H2 : resources c7_world !! "bmats" = Some 10%Q) by (by vm_compute).
  split; [exact H1|]. split; [exact H2|].
  exact (proj1 (pool_entries_are_integers c7_world H1) "bmats" 10%Q H2).
Defined.

(** C10: every entry of the base pool of a reachable world is at least
    zero.  [paint_cell] changes nothing unless the pool holds bmats;
    [build_new_truck] changes nothing unless the bmats cover the cost; a
    load from the base pool is at most the amount available and writes
    back the difference clamped at zero. *)
Theorem pool_entries_nonnegative (g : Game) :
  reachable g →
  (∀ k v, resources g !! k = Some v → (0 <= v)%Q) ∧
  (∀ c, (dict_get "bmats" 0 (resources g) <= 0)%Q → paint_cell c g = g) ∧
  ((dict_get "bmats" 0 (resources g) < of_int (get_truck_cost g))%Q →
     build_new_truck g = Ok g) ∧
  (∀ res t l g1 t1, load_from_base res g t = (l, g1, t1) → (0 < l)%Q →
     (l <= dict_get res 0 (resources g))%Q ∧
     resources g1 = <[res := Qmax 0 (fsub (dict_get res 0 (resources g)) l)]> (resources g) ∧
     (0 <= Qmax 0 (fsub (dict_get res 0 (resources g)) l))%Q).
Proof.
  intros Hg. pose proof (reachable_world_ok g Hg) as Hok.
  split; [|split; [|split]].
  - intros k v Hv. destruct (ok_pool g Hok k v Hv) as (z & Hz & ->).
    by apply inject_Z_nonneg.
  - intros c Hle. unfold paint_cell. destruct (_ || _); [done|].
    apply Qle_bool_iff in Hle. by rewrite Hle.
  - intros Hlt. unfold build_new_truck. cbv zeta.
    apply Qle_bool_false in Hlt. by rewrite Hlt.
  - intros res t l g1 t1. unfold load_from_base. cbv zeta.
    destruct (Qltb 0 _) eqn:Hpos; intros [= <- <- <-] Hl.
    + split; [|split; [done|apply Q.le_max_l]].
      apply (min3_le 5 (dict_get res 0 (resources g))
               (fsub (cargo_capacity t) (cargo_amount t))).
    + apply Qltb_ge in Hpos. lra.
Qed.

Lemma pool_entries_nonnegative_witness :
  reachable c7_world ∧ resources c7_world !! "bmats" = Some 10%Q ∧ (0 <= 10)%Q.
Proof.
  assert (H1 : reachable c7_world)
    by apply world_after_reachable, ex_start_reachable.
  assert (H2 : resources c7_world !! "bmats" = Some 10%Q) by (by vm_compute).
  split; [exact H1|]. split; [exact H2|].
  exact (proj1 (pool_entries_nonnegative c7_world H1) "bmats" 10%Q H2).
Defined.

(** * Nearest road ([find_nearest_road_to_cell]) *)

Lemma elem_of_ring_cells c m x :
  x ∈ ring_cells c m ↔ 1 ≤ manhattan c x ≤ m.
Proof.
  unfold ring_cells, manhattan. destruct c as [cx cy], x as [x y]. simpl.
  rewrite list_elem_of_bind. split.
  - intros (d & Hx & Hd). apply elem_of_seqZ in Hd.
    apply list_elem_of_bind in Hx as (dx & Hx & Hdx). apply elem_of_seqZ in Hdx.
    apply elem_of_cons in Hx as [Hx|Hx];
      [|apply list_elem_of_singleton in Hx]; injection Hx as -> ->; lia.
  - intros Hd. exists (Z.abs (x - cx) + Z.abs (y - cy)). split.
    + apply list_elem_of_bind. exists (x - cx). split.
      * destruct (decide (y - cy ≤ 0)).
        -- apply elem_of_cons. left. f_equal; lia.
        -- apply elem_of_cons. right. apply list_elem_of_singleton. f_equal; lia.
      * apply elem_of_seqZ. lia.
    + apply elem_of_seqZ. lia.
Qed.

Lemma find_app_cases {A : Type} (p : A → bool) (l1 l2 : list A) :
  List.find p (l1 ++ l2)
  = match List.find p l1 with Some x => Some x | None => List.find p l2 end.
Proof.
  induction l1 as [|x l1 IH]; [done|]. simpl. by destruct (p x).
Qed.

Lemma find_none_iff {A : Type} (p : A → bool) (l : list A) :
  List.find p l = None ↔ ∀ x, x ∈ l → p x = false.
Proof.
  split.
  - intros H x Hx. apply (find_none p l H). by apply list_elem_of_In.
  - intros H. destruct (List.find p l) as [x|] eqn:E; [|done].
    apply find_some in E as [Hin Hp]. apply list_elem_of_In in Hin.
    rewrite (H x Hin) in Hp. done.
Qed.


(** The first driveable cell of the ring scan is a nearest one. *)
Lemma ring_scan_nearest rg c (n : nat) r :
  List.find (is_driveable rg) (ring_cells c (Z.of_nat n)) = Some r →
  ∀ x, is_driveable rg x = true → 1 ≤ manhattan c x ≤ Z.of_nat n →
       manhattan c r ≤ manhattan c x.
Proof.
  revert r. induction n as [|n IH]; intros r Hr x Hx Hd; [lia|].
  assert (Hsplit : ring_cells c (Z.of_nat (S n))
            = ring_cells c (Z.of_nat n) ++
              ([1 + Z.of_nat n] ≫= λ d,
                 dx ← seqZ (- d) (2 * d + 1); sy ← [-1; 1];
                 [(fst c + dx, snd c + sy * (d - Z.abs dx))])).
  { unfold ring_cells. by rewrite seqZ_S, bind_app. }
  pose proof Hr as Hr'. rewrite Hsplit, find_app_cases in Hr'.
  destruct (List.find (is_driveable rg) (ring_cells c (Z.of_nat n))) as [r'|] eqn:E.
  - injection Hr' as ->.
    destruct (decide (manhattan c x ≤ Z.of_nat n)) as [Hle|Hgt].
    + apply (IH r eq_refl x Hx). lia.
    + apply find_some in E as [Hin _]. apply list_elem_of_In in Hin.
      apply elem_of_ring_cells in Hin. lia.
  - apply find_some in Hr as [Hin _]. apply list_elem_of_In in Hin.
    apply elem_of_ring_cells in Hin.
    destruct (decide (manhattan c x ≤ Z.of_nat n)) as [Hle|Hgt]; [|lia].
    exfalso. rewrite find_none_iff in E.
    rewrite (E x) in Hx; [done|]. apply elem_of_ring_cells. lia.
Qed.

(** X1: [find_nearest_road_to_cell] returns a driveable cell within
    [max_dist] Manhattan steps of the given cell that is nearest in
    Manhattan distance among all driveable cells in that range (the cell
    itself when it is driveable), and returns [None] exactly when no
    driveable cell lies within [max_dist] steps. *)
Theorem find_nearest_road_is_nearest (rg : gmap Coord Z) (c : Coord) (max_dist : Z) :
  match find_nearest_road_to_cell rg c max_dist with
  | Some r =>
      is_driveable rg r = true ∧ manhattan c r ≤ Z.max 0 max_dist ∧
      (is_driveable rg c = true → r = c) ∧
      ∀ x, is_driveable rg x = true → manhattan c x ≤ max_dist →
           manhattan c r ≤ manhattan c x
  | None =>
      ∀ x, is_driveable rg x = true → manhattan c x ≤ max_dist → False
  end.
Proof.
  unfold find_nearest_road_to_cell.
  assert (H0 : manhattan c c = 0) by (unfold manhattan; lia).
  assert (Hnn : ∀ x, 0 ≤ manhattan c x) by (intros x; unfold manhattan; lia).
  assert (Hz : ∀ x, manhattan c x = 0 → x = c).
  { intros [x y]. destruct c as [cx cy]. unfold manhattan. simpl.
    intros H. f_equal; lia. }
  destruct (is_driveable rg c) eqn:Hc.
  { split; [done|]. split; [lia|]. split; [done|]. intros x _ _. rewrite H0. apply Hnn. }
  destruct (List.find _ _) as [r|] eqn:E.
  - pose proof (find_some _ _ E) as [Hin Hr]. apply list_elem_of_In in Hin.
    apply elem_of_ring_cells in Hin.
    split; [done|]. split; [lia|]. split; [done|].
    intros x Hx Hd. rewrite <- (Z2Nat.id max_dist) in E by lia.
    apply (ring_scan_nearest rg c _ r E x Hx). rewrite Z2Nat.id by lia.
    split; [|done]. destruct (decide (manhattan c x = 0)) as [Hx0|]; [|specialize (Hnn x); lia].
    rewrite (Hz x Hx0), Hc in Hx. done.
  - intros x Hx Hd. rewrite find_none_iff in E.
    destruct (decide (manhattan c x = 0)) as [Hx0|Hne].
    + rewrite (Hz x Hx0), Hc in Hx. done.
    + rewrite (E x) in Hx; [done|]. apply elem_of_ring_cells.
      specialize (Hnn x). lia.
Qed.

(** * Connectivity ([is_cell_connected_to_base_by_roads]) *)

Lemma find_path_cases rg a b :
  (find_path_on_roads rg a b = [] ∧ ¬ road_reachable rg a b) ∨
  (find_path_on_roads rg a b ≠ [] ∧
   path_from_to rg a b (find_path_on_roads rg a b) ∧
   ∀ q, path_from_to rg a b q →
        (length (find_path_on_roads rg a b) ≤ length q)%nat).
Proof.
  unfold find_path_on_roads.
  destruct (bfs_search_total rg a b) as [p Hp]. rewrite Hp. simpl.
  destruct p as [|x p'].
  - left. split; [done|]. by apply bfs_search_empty.
  - right. split; [done|]. by apply bfs_search_found.
Qed.

Lemma find_path_nonempty_iff rg a b :
  find_path_on_roads rg a b ≠ [] ↔ road_reachable rg a b.
Proof.
  destruct (find_path_cases rg a b) as [[E Hn]|(Hne & Hp & _)].
  - rewrite E. split; [done|]. intros H. by destruct (Hn H).
  - split; [|done]. intros _. by eexists.
Qed.

(** X2: a cell counts as connected to the base exactly when it and the
    base cell both have a nearest road within 12 steps and the second can be
    reached from the first over driveable 4-neighbours. *)
Theorem connected_to_base_iff (g : Game) (c : Coord) :
  is_cell_connected_to_base_by_roads g c = true ↔
  ∃ s t, find_nearest_road_to_cell (road_grid g) c 12 = Some s ∧
         find_nearest_road_to_cell (road_grid g) (base_cell g) 12 = Some t ∧
         road_reachable (road_grid g) s t.
Proof.
  unfold is_cell_connected_to_base_by_roads.
  destruct (find_nearest_road_to_cell (road_grid g) c 12) as [s|]; last first.
  { split; [done|]. by intros (s & t & [=] & _). }
  destruct (find_nearest_road_to_cell (road_grid g) (base_cell g) 12) as [t|]; last first.
  { split; [done|]. by intros (s' & t & _ & [=] & _). }
  rewrite Nat.ltb_lt. split.
  - intros Hlen. exists s, t. split; [done|]. split; [done|].
    apply find_path_nonempty_iff. intros E. rewrite E in Hlen. simpl in Hlen. lia.
  - intros (s' & t' & [= <-] & [= <-] & Hr).
    apply find_path_nonempty_iff in Hr.
    destruct (find_path_on_roads (road_grid g) s t); [done|simpl; lia].
Qed.

(** * Paths in both directions *)

Lemma neighbors4_sym a b : b ∈ neighbors4 a → a ∈ neighbors4 b.
Proof.
  destruct a as [x y], b as [x' y']. unfold neighbors4.
  rewrite !elem_of_cons, !elem_of_nil.
  intros [H|[H|[H|[H|[]]]]]; injection H as -> ->.
  - right. left. f_equal; lia.
  - left. f_equal; lia.
  - do 3 right. left. f_equal; lia.
  - do 2 right. left. f_equal; lia.
Qed.

Lemma road_path_reverse rg p a :
  road_path rg p → head p = Some a → is_driveable rg a = true →
  road_path rg (reverse p).
Proof.
  revert a. induction p as [|x tl IH]; intros a Hp Hh Ha; [done|].
  simpl in Hh. injection Hh as ->. rewrite reverse_cons.
  destruct tl as [|y tl'].
  - done.
  - destruct Hp as (Hadj & Hdr & Hp).
    apply (road_path_snoc rg (reverse (y :: tl')) y a).
    + by apply (IH y).
    + by rewrite last_reverse.
    + by apply neighbors4_sym.
    + done.
Qed.

Lemma path_from_to_reverse rg a b p :
  is_driveable rg a = true →
  path_from_to rg a b p → path_from_to rg b a (reverse p).
Proof.
  intros Ha (Hh & Hl & Hp). split; [by rewrite head_reverse|].
  split; [by rewrite last_reverse|]. by eapply road_path_reverse.
Qed.

(** X3: between two driveable cells the road distance is symmetric: the
    paths [find_path_on_roads] returns from [a] to [b] and from [b] to [a]
    have the same length, and one is empty exactly when the other is. *)
Theorem find_path_symmetric (rg : gmap Coord Z) (a b : Coord) :
  is_driveable rg a = true → is_driveable rg b = true →
  length (find_path_on_roads rg a b) = length (find_path_on_roads rg b a) ∧
  (road_reachable rg a b ↔ road_reachable rg b a).
Proof.
  intros Ha Hb.
  assert (Hsym : ∀ x y, is_driveable rg x = true → road_reachable rg x y →
                        road_reachable rg y x).
  { intros x y Hx (p & Hp). exists (reverse p). by apply path_from_to_reverse. }
  split; [|split; by apply Hsym].
  destruct (find_path_cases rg a b) as [[E1 Hn1]|(_ & Hp1 & Hm1)];
    destruct (find_path_cases rg b a) as [[E2 Hn2]|(_ & Hp2 & Hm2)].
  - by rewrite E1, E2.
  - destruct Hn1. apply (Hsym b a); [done|]. by eexists.
  - destruct Hn2. apply (Hsym a b); [done|]. by eexists.
  - pose proof (Hm1 _ (path_from_to_reverse rg b a _ Hb Hp2)) as H1.
    pose proof (Hm2 _ (path_from_to_reverse rg a b _ Ha Hp1)) as H2.
    rewrite length_reverse in H1, H2. lia.
Qed.

Lemma find_path_symmetric_witness :
  length (find_path_on_roads (road_grid c3_world) (5, 5) (8, 5))
  = length (find_path_on_roads (road_grid c3_world) (8, 5) (5, 5)).
Proof.
  refine (proj1 (find_path_symmetric (road_grid c3_world) (5, 5) (8, 5) _ _));
    by vm_compute.
Defined.

(** * Painting and bulldozing roads *)

(** X4: painting a cell twice is the same as painting it once: the
    second call finds the road (or the same obstacle or empty pool as the
    first) and changes nothing, so a drag that passes over a cell again
    costs no further bmats. *)
Theorem paint_cell_twice (c : Coord) (g : Game) :
  paint_cell c (paint_cell c g) = paint_cell c g.
Proof.
  destruct (bool_decide (c ∈ trees g) || bool_decide (c ∈ stones g)
            || bool_decide (c ∈ roads g)) eqn:E1.
  { assert (paint_cell c g = g) as -> by (unfold paint_cell; by rewrite E1).
    unfold paint_cell. by rewrite E1. }
  destruct (Qle_bool (dict_get "bmats" 0 (resources g)) 0) eqn:E2.
  { assert (paint_cell c g = g) as -> by (unfold paint_cell; by rewrite E1, E2).
    unfold paint_cell. by rewrite E1, E2. }
  assert (Hp : paint_cell c (paint_cell c g) = paint_cell c g); [|done].
  unfold paint_cell at 2 3. rewrite E1, E2.
  unfold paint_cell. simpl.
  rewrite (bool_decide_eq_true_2 (c ∈ {[c]} ∪ roads g)).
  - by rewrite orb_true_r.
  - apply elem_of_union. left. by apply elem_of_singleton.
Qed.

Lemma size_roads_add (c : Coord) (R : gset Coord) :
  c ∉ R → size ({[c]} ∪ R) = S (size R).
Proof.
  intros Hc. rewrite size_union; [by rewrite size_singleton|].
  intros x Hx HR. apply elem_of_singleton in Hx as ->. done.
Qed.

Lemma size_roads_remove (c : Coord) (R : gset Coord) :
  c ∈ R → S (size (R ∖ {[c]})) = size R.
Proof.
  intros Hc. rewrite <- (size_roads_add c (R ∖ {[c]})).
  - f_equal. apply set_eq. intros x.
    rewrite elem_of_union, elem_of_difference, elem_of_singleton.
    destruct (decide (x = c)) as [->|]; tauto.
  - rewrite elem_of_difference, elem_of_singleton. tauto.
Qed.

Lemma paint_cell_conserves c g :
  (bmats_of (paint_cell c g) + inject_Z (Z.of_nat (size (roads (paint_cell c g))))
   == bmats_of g + inject_Z (Z.of_nat (size (roads g))))%Q.
Proof.
  unfold paint_cell.
  destruct (bool_decide (c ∈ trees g) || bool_decide (c ∈ stones g)
            || bool_decide (c ∈ roads g)) eqn:E1; [done|].
  apply orb_false_iff in E1 as [_ Hr]. apply bool_decide_eq_false in Hr.
  destruct (Qle_bool _ _); [done|].
  unfold bmats_of. simpl. unfold dict_get at 1. rewrite lookup_insert_eq. simpl.
  rewrite fsub_eq, size_roads_add by done.
  rewrite Nat2Z.inj_succ. unfold Z.succ. rewrite inject_Z_plus. ring.
Qed.

Lemma bulldoze_cell_conserves c g g' :
  bulldoze_cell c g = Ok g' →
  (bmats_of g' + inject_Z (Z.of_nat (size (roads g')))
   == bmats_of g + inject_Z (Z.of_nat (size (roads g))))%Q.
Proof.
  unfold bulldoze_cell. case_bool_decide as Hr.
  - cbv zeta. unfold dict_add. simpl.
    destruct (resources g !! "bmats") as [v|] eqn:Ev; [|done]. simpl.
    intros [= <-]. unfold bmats_of, dict_get. simpl.
    rewrite lookup_insert_eq, Ev. simpl.
    rewrite fadd_eq, <- (size_roads_remove c (roads g)) by done.
    rewrite Nat2Z.inj_succ. unfold Z.succ. rewrite inject_Z_plus. ring.
  - destruct (get_building_at_cell g c); by intros [= <-].
Qed.

(** X5: building material is conserved between the pool and the road
    network: the bmats in the pool plus the number of road cells is the same
    before and after [paint_cell], and before and after an
    [execute_bulldoze] of any cells (removing a building refunds
    nothing). *)
Theorem roads_and_bmats_conserved (g : Game) :
  (∀ c, (bmats_of (paint_cell c g) + inject_Z (Z.of_nat (size (roads (paint_cell c g))))
         == bmats_of g + inject_Z (Z.of_nat (size (roads g))))%Q) ∧
  (∀ cells g', execute_bulldoze cells g = Ok g' →
     (bmats_of g' + inject_Z (Z.of_nat (size (roads g')))
      == bmats_of g + inject_Z (Z.of_nat (size (roads g))))%Q).
Proof.
  split; [intros c; apply paint_cell_conserves|].
  intros cells. revert g. induction cells as [|c cells IH]; intros g g'.
  - by intros [= <-].
  - simpl. destruct (bulldoze_cell c g) as [g1|e] eqn:E; [|done]. simpl.
    intros Hrun. rewrite (IH g1 g' Hrun). by apply (bulldoze_cell_conserves c).
Qed.

(** X6: painting a free cell and bulldozing it again gives back the road
    set and the bmats and leaves buildings and trucks alone, but not the
    road grid: the cell ends up not driveable, also when it was driveable
    before the road was painted (a building or the base footprint). *)
Theorem paint_then_bulldoze (c : Coord) (g : Game) :
  c ∉ trees g → c ∉ stones g → c ∉ roads g → (0 < bmats_of g)%Q →
  ∃ g', bulldoze_cell c (paint_cell c g) = Ok g' ∧
    roads g' = roads g ∧ (bmats_of g' == bmats_of g)%Q ∧
    buildings g' = buildings g ∧ trucks g' = trucks g ∧
    is_driveable (road_grid g') c = false ∧
    ∀ c', c' ≠ c → road_grid g' !! c' = road_grid g !! c'.
Proof.
  intros Ht Hs Hr Hb. unfold paint_cell.
  rewrite !bool_decide_eq_false_2 by done. simpl.
  assert (Qle_bool (dict_get "bmats" 0 (resources g)) 0 = false) as ->
    by (by apply Qle_bool_false).
  unfold bulldoze_cell. simpl.
  rewrite bool_decide_eq_true_2
    by (apply elem_of_union; left; by apply elem_of_singleton).
  unfold dict_add. simpl. rewrite lookup_insert_eq. simpl.
  eexists. split; [done|]. simpl. split; [|split; [|split; [|split; [|split]]]].
  - apply set_eq. intros x.
    rewrite elem_of_difference, elem_of_union, elem_of_singleton.
    destruct (decide (x = c)) as [->|]; tauto.
  - unfold bmats_of, dict_get. simpl. rewrite lookup_insert_eq. simpl.
    rewrite fadd_eq, fsub_eq. ring.
  - done.
  - done.
  - unfold is_driveable. by rewrite lookup_insert_eq.
  - intros c' Hne. by rewrite !lookup_insert_ne.
Qed.

Lemma paint_then_bulldoze_witness :
  ∃ g', bulldoze_cell (5, 5) (paint_cell (5, 5) ex_start) = Ok g' ∧
    roads g' = roads ex_start ∧ (bmats_of g' == bmats_of ex_start)%Q ∧
    buildings g' = buildings ex_start ∧ trucks g' = trucks ex_start ∧
    is_driveable (road_grid g') (5, 5) = false ∧
    ∀ c', c' ≠ (5, 5) → road_grid g' !! c' = road_grid ex_start !! c'.
Proof.
  refine (paint_then_bulldoze (5, 5) ex_start _ _ _ _); by vm_compute.
Defined.

(** * Placing buildings *)

Lemma can_place_same g c :
  can_place_quarry g c = can_place_lumber g c ∧
  can_place_refinery g c = can_place_lumber g c.
Proof. done. Qed.

Lemma can_place_after_add b g :
  can_place_lumber (add_building b g) (cell b) = false.
Proof.
  unfold can_place_lumber. simpl.
  destruct (_ || _); [done|]. destruct (bool_decide _); [done|].
  rewrite existsb_app. simpl. rewrite (bool_decide_eq_true_2 (cell b = cell b)) by done.
  by rewrite orb_true_r.
Qed.

(** X7: a cell takes at most one building: after a click with any of the
    three building tools, a second click on the same cell with any of them
    changes nothing, whether the first one placed a building or was
    refused. *)
Theorem place_building_twice (ty1 ty2 : BuildingType) (c : Coord) (g : Game) :
  place_building ty2 c (place_building ty1 c g) = place_building ty1 c g.
Proof.
  assert (Hno : ∀ ty g0, can_place_lumber g0 c = false →
                         place_building ty c g0 = g0).
  { intros ty g0 H. destruct ty; simpl;
      unfold place_lumber_camp, place_quarry, place_refinery;
      rewrite ?(proj1 (can_place_same g0 c)), ?(proj2 (can_place_same g0 c)), H; done. }
  destruct (can_place_lumber g c) eqn:E.
  - apply Hno. destruct ty1; simpl;
      unfold place_lumber_camp, place_quarry, place_refinery;
      rewrite ?(proj1 (can_place_same g c)), ?(proj2 (can_place_same g c)), E; simpl;
      apply (can_place_after_add (mkBuilding _ c _ _ _ _)).
  - rewrite (Hno ty1 g E). by apply Hno.
Qed.

(** * What a tick leaves alone *)

Lemma same_map_refl g : same_map g g.
Proof. by repeat split. Qed.

Lemma tick_frame_refl g : tick_frame g g.
Proof. split; [apply same_map_refl|done|done]. Qed.

Lemma tick_frame_trans g1 g2 g3 :
  tick_frame g1 g2 → tick_frame g2 g3 → tick_frame g1 g3.
Proof.
  intros [M1 S1 K1] [M2 S2 K2]. split.
  - destruct M1 as (?&?&?&?&?&?&?), M2 as (?&?&?&?&?&?&?).
    repeat split; congruence.
  - congruence.
  - auto.
Qed.

Lemma tick_frame_update_building c f g :
  (∀ b, site_view (f b) = site_view b) → tick_frame g (update_building_at c f g).
Proof.
  intros Hf. split; [by repeat split| |done].
  simpl. by apply update_first_map.
Qed.

Lemma tick_frame_pool_insert k v g :
  tick_frame g (set_resources (<[k := v]> (resources g)) g).
Proof.
  split; [by repeat split|done|]. intros k' Hk. simpl.
  destruct (decide (k = k')) as [->|].
  - rewrite lookup_insert_eq. by eexists.
  - by rewrite lookup_insert_ne.
Qed.

Lemma load_from_building_frame ty res c b g t l g1 t1 :
  load_from_building ty res c b g t = (l, g1, t1) →
  tick_frame g g1 ∧ truck_fixed t1 = truck_fixed t ∧ route_view t1 = route_view t.
Proof.
  unfold load_from_building. cbv zeta.
  destruct (Qltb 0 _); intros [= <- <- <-]; [|by split; [apply tick_frame_refl|]].
  split; [|done].
  case_bool_decide; [by apply tick_frame_update_building|apply tick_frame_refl].
Qed.

Lemma load_from_base_frame res g t l g1 t1 :
  load_from_base res g t = (l, g1, t1) →
  tick_frame g g1 ∧ truck_fixed t1 = truck_fixed t ∧ route_view t1 = route_view t.
Proof.
  unfold load_from_base. cbv zeta.
  destruct (Qltb 0 _); intros [= <- <- <-]; [|by split; [apply tick_frame_refl|]].
  split; [apply tick_frame_pool_insert|done].
Qed.

Lemma load_cargo_frame c b g t g1 t1 r :
  load_cargo c b g t = (g1, t1, r) →
  tick_frame g g1 ∧ truck_fixed t1 = truck_fixed t ∧
  (route_view t1 = route_view t ∨ state t1 = to_dest).
Proof.
  unfold load_cargo.
  assert (Hb : ∀ res, (let '(_, g', t') := load_from_base res g t in (g', t', false))
                      = (g1, t1, r) →
               tick_frame g g1 ∧ truck_fixed t1 = truck_fixed t ∧
               (route_view t1 = route_view t ∨ state t1 = to_dest)).
  { intros res. destruct (load_from_base res g t) as [[l g'] t'] eqn:E.
    intros [= <- <- <-]. apply load_from_base_frame in E as (?&?&?). auto. }
  assert (Hf : ∀ ty res, (let '(_, g', t') := load_from_building ty res c b g t in
                          (g', t', false)) = (g1, t1, r) →
               tick_frame g g1 ∧ truck_fixed t1 = truck_fixed t ∧
               (route_view t1 = route_view t ∨ state t1 = to_dest)).
  { intros ty res. destruct (load_from_building ty res c b g t) as [[l g'] t'] eqn:E.
    intros [= <- <- <-]. apply load_from_building_frame in E as (?&?&?). auto. }
  case_bool_decide; [case_bool_decide; [apply Hb|apply Hf]|].
  case_bool_decide.
  { case_bool_decide.
    - destruct (load_from_base "stone" g t) as [[l g'] t'] eqn:E.
      apply load_from_base_frame in E as (F1 & F2 & F3).
      destruct (Qltb 0 l); [|intros [= <- <- <-]; auto].
      destruct (_dest_cell t') as [d|]; [|intros [= <- <- <-]; auto].
      destruct (get_building_at_cell g' d) as [db|]; [|intros [= <- <- <-]; auto].
      case_bool_decide; intros [= <- <- <-]; auto.
    - destruct (load_from_building quarry "stone" c b g t) as [[l g'] t'] eqn:E.
      apply load_from_building_frame in E as (F1 & F2 & F3).
      destruct (Qltb 0 l && refinery_loop t'); [|intros [= <- <- <-]; auto].
      destruct (_dest_cell t') as [d|]; [|intros [= <- <- <-]; auto].
      destruct (leg_to g' t' d); intros [= <- <- <-]; auto. }
  case_bool_decide; [case_bool_decide; [apply Hb|apply Hf]|].
  intros [= <- <- <-]. split; [apply tick_frame_refl|auto].
Qed.

Lemma go_to_destination_frame g t :
  truck_fixed (go_to_destination g t) = truck_fixed t ∧
  (route_view (go_to_destination g t) = route_view t ∨
   state (go_to_destination g t) = to_dest).
Proof.
  unfold go_to_destination. destruct (_dest_cell t) as [d|]; [|auto].
  case_bool_decide; destruct (leg_to g t d); auto.
Qed.

Lemma repeat_or_idle_frame g t :
  truck_fixed (repeat_or_idle g t) = truck_fixed t ∧
  state (repeat_or_idle g t) ≠ waiting_for_bmats.
Proof.
  unfold repeat_or_idle, stop_truck.
  destruct (saved_source t) as [s|] eqn:E1; [|done].
  destruct (saved_dest t) as [d|] eqn:E2; [|done].
  destruct (saved_resource t) as [r|] eqn:E3; [|done].
  destruct (_ && _); [|done].
  destruct (leg_to g t s); [|done].
  split; [|done]. unfold truck_fixed. simpl. by rewrite E1, E2, E3.
Qed.

Lemma arrive_at_source_frame g t g1 t1 :
  state t = to_source → arrive_at_source g t = (g1, t1) →
  tick_frame g g1 ∧ truck_fixed t1 = truck_fixed t ∧
  state t1 ≠ waiting_for_bmats.
Proof.
  intros Hs. unfold arrive_at_source.
  destruct (saved_source t) as [c|] eqn:Es; last first.
  { intros [= <- <-]. split; [apply tick_frame_refl|].
    split; [|done]. unfold truck_fixed. simpl. by rewrite Es. }
  case_bool_decide; last first.
  { intros [= <- <-]. split; [apply tick_frame_refl|]. split; [done|by rewrite Hs]. }
  destruct (get_building_at_cell g c) as [b|]; last first.
  { intros [= <- <-]. split; [apply tick_frame_refl|].
    split; [|done]. unfold truck_fixed. simpl. by rewrite Es. }
  destruct (load_cargo c b g t) as [[g' t'] r] eqn:E.
  apply load_cargo_frame in E as (H1 & H2 & H3).
  assert (Ht' : state t' ≠ waiting_for_bmats).
  { destruct H3 as [H3|H3]; [|by rewrite H3].
    injection H3 as H3 _. by rewrite H3, Hs. }
  destruct r; intros [= <- <-]; [done|].
  destruct (go_to_destination_frame g' t') as [H4 H5].
  split; [done|]. split; [congruence|].
  destruct H5 as [H5|H5]; [|by rewrite H5].
  injection H5 as H5 _. by rewrite H5.
Qed.

Lemma deliver_to_pool_frame k g t g1 t1 :
  deliver_to_pool k g t = Ok (g1, t1) →
  tick_frame g g1 ∧ truck_fixed t1 = truck_fixed t ∧ route_view t1 = route_view t.
Proof.
  unfold deliver_to_pool, dict_add. cbv zeta.
  destruct (resources g !! k); [|done]. simpl. intros [= <- <-].
  split; [apply tick_frame_pool_insert|done].
Qed.

Lemma arrive_at_dest_frame g t g1 t1 :
  arrive_at_dest g t = Ok (g1, t1) →
  tick_frame g g1 ∧ truck_fixed t1 = truck_fixed t ∧
  (state t1 = waiting_for_bmats → path_cells t1 = path_cells t).
Proof.
  unfold arrive_at_dest.
  assert (Hsame : ∀ g' t', tick_frame g g' → truck_fixed t' = truck_fixed t →
            Ok (g', repeat_or_idle g' t') = Ok (g1, t1) →
            tick_frame g g1 ∧ truck_fixed t1 = truck_fixed t ∧
            (state t1 = waiting_for_bmats → path_cells t1 = path_cells t)).
  { intros g' t' H1 H2 [= <- <-].
    destruct (repeat_or_idle_frame g' t') as [H3 H4].
    split; [done|]. split; [congruence|done]. }
  assert (Hpool : ∀ k,
            deliver_to_pool k g t ≫= (λ '(g', t'), Ok (g', repeat_or_idle g' t'))
            = Ok (g1, t1) →
            tick_frame g g1 ∧ truck_fixed t1 = truck_fixed t ∧
            (state t1 = waiting_for_bmats → path_cells t1 = path_cells t)).
  { intros k. destruct (deliver_to_pool k g t) as [[g' t']|e] eqn:E; [|done].
    simpl. apply deliver_to_pool_frame in E as (H1 & H2 & H3). by apply Hsame. }
  destruct (_dest_cell t) as [d|]; last first.
  { intros [= <- <-]. split; [apply tick_frame_refl|done]. }
  case_bool_decide as Hat.
  - case_bool_decide as Hbase.
    + destruct (deliverable t ["wood"; "stone"; "bmats"]) as [k|]; [apply Hpool|].
      apply Hsame; [apply tick_frame_refl|done].
    + destruct (get_building_at_cell g d) as [db|]; last first.
      { apply Hsame; [apply tick_frame_refl|done]. }
      destruct (bool_decide (is_Some (deliverable t ["stone"]))
                && bool_decide (type db = refinery)).
      * unfold deliver_to_refinery. cbv zeta.
        destruct (0 <? to_int (cargo_amount t)).
        -- intros [= <- <-]. split; [by apply tick_frame_update_building|done].
        -- apply Hsame; [by apply tick_frame_update_building|done].
      * destruct (deliverable t ["wood"; "bmats"]) as [k|]; [apply Hpool|].
        apply Hsame; [apply tick_frame_refl|done].
  - destruct (refinery_loop t && bool_decide (cargo_type t = Some "stone")
              && Qeq_bool (cargo_amount t) 0); last first.
    { apply Hsame; [apply tick_frame_refl|done]. }
    destruct (is_cell_in_base_area g (current_cell t)); last first.
    { apply Hsame; [apply tick_frame_refl|done]. }
    destruct (load_from_base "stone" g t) as [[l g'] t'] eqn:El.
    apply load_from_base_frame in El as (H1 & H2 & H3).
    destruct (Qltb 0 l); [by apply Hsame|].
    intros [= <- <-]. split; [apply tick_frame_refl|done].
Qed.

Lemma on_truck_arrival_frame g t g1 t1 :
  on_truck_arrival g t = Ok (g1, t1) →
  tick_frame g g1 ∧ truck_fixed t1 = truck_fixed t ∧
  (state t1 = waiting_for_bmats → path_cells t1 = path_cells t).
Proof.
  unfold on_truck_arrival.
  destruct (state t) eqn:Es;
    try (intros [= <- <-]; split; [apply tick_frame_refl|done]).
  - destruct (arrive_at_source g t) as [g' t'] eqn:E. intros [= <- <-].
    apply arrive_at_source_frame in E as (H1 & H2 & H3); [|done].
    split; [done|]. split; [done|]. by intros H.
  - apply arrive_at_dest_frame.
  - done.
Qed.

Lemma update_truck_frame g t dt g1 t1 :
  update_truck g t dt = Ok (g1, t1) →
  tick_frame g g1 ∧ truck_fixed t1 = truck_fixed t ∧
  (waiting_parked t → waiting_parked t1).
Proof.
  unfold update_truck.
  destruct (path_cells t) as [|c rest] eqn:Ep.
  { intros [= <- <-]. split; [apply tick_frame_refl|done]. }
  cbv zeta. destruct (Qltb _ _).
  - destruct rest.
    + intros E. apply on_truck_arrival_frame in E as (H1 & H2 & H3).
      split; [done|]. split; [done|]. intros _ Hw. by rewrite (H3 Hw).
    + intros [= <- <-]. split; [apply tick_frame_refl|]. split; [done|].
      intros Hp Hw. simpl in Hw. specialize (Hp Hw). congruence.
  - destruct (Qle_bool _ _); intros [= <- <-];
      (split; [apply tick_frame_refl|]; split; [done|]);
      intros Hp Hw; simpl in Hw; specialize (Hp Hw); congruence.
Qed.

Lemma update_trucks_frame dt ts :
  ∀ g g1 ts1, update_trucks g dt ts = Ok (g1, ts1) →
  tick_frame g g1 ∧ map truck_fixed ts1 = map truck_fixed ts ∧
  (Forall waiting_parked ts → Forall waiting_parked ts1).
Proof.
  induction ts as [|t ts IH]; intros g g1 ts1.
  { intros [= <- <-]. split; [apply tick_frame_refl|done]. }
  simpl. destruct (update_truck g t dt) as [[g' t']|e] eqn:E; [|done]. simpl.
  destruct (update_trucks g' dt ts) as [[g'' ts']|e] eqn:E'; [|done]. simpl.
  intros [= <- <-].
  apply update_truck_frame in E as (H1 & H2 & H3).
  apply IH in E' as (H4 & H5 & H6).
  split; [by eapply tick_frame_trans|]. split; [simpl; congruence|].
  intros Hts. inversion Hts; subst. constructor; auto.
Qed.

Lemma produce_site g dt b : site_view (produce g dt b) = site_view b.
Proof.
  unfold produce. destruct (Qle_bool _ _); [done|].
  destruct (negb _); [done|].
  destruct (type b) eqn:Et; unfold site_view; simpl; rewrite ?Et; try done.
  destruct (Qltb _ _); [|by rewrite Et].
  destruct (Qle_bool _ _); simpl; by rewrite Et.
Qed.

Lemma update_frame dt g g' :
  update dt g = Ok g' →
  tick_frame g g' ∧ map truck_fixed (trucks g') = map truck_fixed (trucks g) ∧
  (Forall waiting_parked (trucks g) → Forall waiting_parked (trucks g')).
Proof.
  unfold update. cbv zeta.
  set (g1 := set_buildings (map (produce g dt) (buildings g)) g).
  assert (Hs1 : tick_frame g g1).
  { split; [by repeat split| |done]. simpl. rewrite map_map.
    apply map_ext. intros b. apply produce_site. }
  destruct (update_trucks g1 dt (trucks g1)) as [[g2 ts]|e] eqn:E; [|done].
  simpl. intros [= <-].
  apply update_trucks_frame in E as (H1 & H2 & H3).
  split; [|done].
  destruct (tick_frame_trans _ _ _ Hs1 H1) as [M S K]. by split.
Qed.

(** * More invariants of the reachable worlds *)

Lemma pool_keys_frame g g' : tick_frame g g' → pool_keys g → pool_keys g'.
Proof. intros [_ _ K] Hk k Hin. apply K, Hk, Hin. Qed.

Lemma site_view_cells (l l' : list Building) :
  map site_view l' = map site_view l → map cell l' = map cell l.
Proof.
  intros H. apply (f_equal (map (λ v, snd (fst (fst v))))) in H.
  by rewrite !map_map in H.
Qed.

Lemma truck_fixed_ids (l l' : list Truck) :
  map truck_fixed l' = map truck_fixed l → map truck_id l' = map truck_id l.
Proof.
  intros H.
  apply (f_equal (map (λ v, fst (fst (fst (fst (fst (fst v)))))))) in H.
  by rewrite !map_map in H.
Qed.

Lemma map_ok_ext g g' :
  roads g' = roads g → road_grid g' = road_grid g → trees g' = trees g →
  stones g' = stones g → map cell (buildings g') = map cell (buildings g) →
  map_ok g → map_ok g'.
Proof.
  intros H1 H2 H3 H4 H5 [M1 M2 M3 M4 M5 M6 M7].
  split; rewrite ?H1, ?H2, ?H3, ?H4, ?H5; done.
Qed.

Lemma fleet_ok_ext g g' :
  map truck_id (trucks g') = map truck_id (trucks g) →
  next_truck_id g' = next_truck_id g → trucks_built g' = trucks_built g →
  fleet_ok g → fleet_ok g'.
Proof.
  intros H1 H2 H3 (F1 & F2 & F3 & F4).
  assert (Hl : length (trucks g') = length (trucks g)).
  { by rewrite <- (length_map truck_id (trucks g')), H1, length_map. }
  unfold fleet_ok. rewrite H1, H2, H3, Hl. done.
Qed.

(** ** The tick *)

Lemma update_game_ok dt g g' : game_ok g → update dt g = Ok g' → game_ok g'.
Proof.
  intros [K P F M] E. apply update_frame in E as (H1 & H2 & H3).
  pose proof H1 as [(R1 & R2 & R3 & R4 & R5 & R6 & R7) S _].
  split.
  - by eapply pool_keys_frame.
  - auto.
  - apply (fleet_ok_ext g); [by apply truck_fixed_ids|done|done|done].
  - apply (map_ok_ext g); [done|done|done|done|by apply site_view_cells|done].
Qed.

(** ** Painting, placing and bulldozing *)

Lemma pool_keys_bmats g : pool_keys g → is_Some (resources g !! "bmats").
Proof. intros K. apply K. apply list_elem_of_In. simpl. tauto. Qed.

Lemma insert_keeps_keys (k0 : string) (v : Q) (m : gmap string Q) k :
  is_Some (m !! k) → is_Some (<[k0 := v]> m !! k).
Proof.
  intros H. destruct (decide (k0 = k)) as [->|].
  - rewrite lookup_insert_eq. by eexists.
  - by rewrite lookup_insert_ne.
Qed.

Lemma paint_cell_game_ok c g : game_ok g → game_ok (paint_cell c g).
Proof.
  intros Hg. unfold paint_cell.
  destruct (bool_decide (c ∈ trees g) || bool_decide (c ∈ stones g)
            || bool_decide (c ∈ roads g)) eqn:E1; [done|].
  destruct (Qle_bool _ _); [done|].
  apply orb_false_iff in E1 as [E1 _]. apply orb_false_iff in E1 as [Et Es].
  apply bool_decide_eq_false in Et, Es.
  destruct Hg as [K P F [M1 M2 M3 M4 M5 M6 M7]].
  split; [intros k Hk; by apply insert_keeps_keys, K|done|done|].
  split; simpl; try done.
  - intros c' [->%elem_of_singleton|Hc]%elem_of_union; auto.
  - intros c' [->%elem_of_singleton|Hc]%elem_of_union; auto.
  - intros c' Hc. unfold is_driveable.
    destruct (decide (c = c')) as [->|Hne].
    + by rewrite lookup_insert_eq.
    + rewrite lookup_insert_ne by done.
      apply elem_of_union in Hc as [Hc%elem_of_singleton|Hc]; [done|].
      by apply M6.
  - intros c' v [[_ <-]|[_ Hv]]%lookup_insert_Some; [by right|by eapply M7].
Qed.

Lemma can_place_lumber_true g c :
  can_place_lumber g c = true →
  (c ∉ trees g) ∧ (c ∉ stones g) ∧ (c ∉ roads g) ∧ (c ∉ map cell (buildings g)).
Proof.
  unfold can_place_lumber.
  destruct (bool_decide (c ∈ trees g) || bool_decide (c ∈ stones g)) eqn:E1; [done|].
  apply orb_false_iff in E1 as [Et Es]. apply bool_decide_eq_false in Et, Es.
  case_bool_decide as Hr; [done|].
  destruct (existsb _ _) eqn:Eb; [done|]. intros _.
  split; [done|]. split; [done|]. split; [done|].
  intros Hin. apply list_elem_of_fmap in Hin as (b & -> & Hb).
  apply list_elem_of_In in Hb.
  assert (existsb (λ b0, bool_decide (cell b0 = cell b)) (buildings g) = true);
    [|congruence].
  apply existsb_exists. exists b. split; [done|by apply bool_decide_eq_true].
Qed.

Lemma add_building_game_ok b g :
  can_place_lumber g (cell b) = true → game_ok g → game_ok (add_building b g).
Proof.
  intros (Ht & Hs & Hr & Hb)%can_place_lumber_true
         [K P F [M1 M2 M3 M4 M5 M6 M7]].
  split; [done|done|done|]. split; simpl; try done.
  - intros c. rewrite map_app. simpl.
    intros [Hc| ->%list_elem_of_singleton]%elem_of_app; auto.
  - rewrite map_app. simpl. apply NoDup_app. split; [done|].
    split; [|apply NoDup_singleton].
    intros c Hc ->%list_elem_of_singleton. done.
  - intros c Hc. unfold is_driveable.
    destruct (decide (cell b = c)) as [->|Hne].
    + by rewrite lookup_insert_eq.
    + rewrite lookup_insert_ne by done. by apply M6.
  - intros c v [[_ <-]|[_ Hv]]%lookup_insert_Some; [by right|by eapply M7].
Qed.

Lemma place_building_game_ok ty c g : game_ok g → game_ok (place_building ty c g).
Proof.
  intros Hg. destruct (can_place_lumber g c) eqn:E; destruct ty; simpl;
    unfold place_lumber_camp, place_quarry, place_refinery;
    rewrite ?(proj1 (can_place_same g c)), ?(proj2 (can_place_same g c)), E;
    simpl; try done;
    by apply (add_building_game_ok (mkBuilding _ c _ _ _ _)).
Qed.

Lemma remove_first_sublist {A : Type} (p : A → bool) (l : list A) :
  sublist (remove_first p l) l.
Proof.
  induction l as [|x l IH]; simpl; [done|].
  destruct (p x); [by apply sublist_cons|by apply sublist_skip].
Qed.

Lemma remove_first_map_sublist (c : Coord) (l : list Building) :
  sublist (map cell (remove_first (λ b, bool_decide (cell b = c)) l)) (map cell l).
Proof. apply fmap_sublist, remove_first_sublist. Qed.

Lemma bulldoze_cell_game_ok c g :
  game_ok g → ∃ g', bulldoze_cell c g = Ok g' ∧ game_ok g'.
Proof.
  intros [K P F [M1 M2 M3 M4 M5 M6 M7]]. unfold bulldoze_cell.
  case_bool_decide as Hr.
  - cbv zeta. unfold dict_add. simpl.
    destruct (pool_keys_bmats g K) as [v ->]. simpl.
    eexists. split; [done|].
    split; [|done|done|].
    + intros k Hk. by apply insert_keeps_keys, K.
    + split; simpl; try done.
      * intros c' [Hc _]%elem_of_difference. auto.
      * intros c' [Hc _]%elem_of_difference. auto.
      * intros c' [Hc Hne]%elem_of_difference. unfold is_driveable.
        rewrite lookup_insert_ne; [by apply M6|].
        intros ->. apply Hne. by apply elem_of_singleton.
      * intros c' w [[_ <-]|[_ Hv]]%lookup_insert_Some; [by left|by eapply M7].
  - destruct (get_building_at_cell g c) as [b|] eqn:Eb; last first.
    { eexists. split; [done|]. by split. }
    eexists. split; [done|].
    apply get_building_cell in Eb as Hc.
    pose proof (remove_first_map_sublist c (buildings g)) as Hsub.
    split; [done|done|done|]. split; simpl; try done.
    + intros c' Hc'. apply M4. by eapply elem_of_sublist.
    + by eapply sublist_NoDup.
    + intros c' Hc'. case_bool_decide; [|by apply M6].
      unfold is_driveable. rewrite lookup_insert_ne; [by apply M6|].
      intros Heq. rewrite Hc in Heq. by subst.
    + intros c' v. case_bool_decide; [|by apply M7].
      intros [[_ <-]|[_ Hv]]%lookup_insert_Some; [by left|by eapply M7].
Qed.

Lemma execute_bulldoze_game_ok cells :
  ∀ g, game_ok g → ∃ g', execute_bulldoze cells g = Ok g' ∧ game_ok g'.
Proof.
  induction cells as [|c cells IH]; intros g Hg; [by exists g|].
  simpl. destruct (bulldoze_cell_game_ok c g Hg) as (g1 & -> & Hg1). simpl.
  by apply IH.
Qed.

(** ** Trucks *)

Lemma spawn_truck_game_ok g :
  pool_keys g → Forall waiting_parked (trucks g) → map_ok g →
  map truck_id (trucks g) = seqZ 1 (Z.of_nat (length (trucks g))) →
  next_truck_id g = Z.of_nat (length (trucks g)) + 1 →
  pool_keys (spawn_truck_at_base g) ∧
  Forall waiting_parked (trucks (spawn_truck_at_base g)) ∧
  map_ok (spawn_truck_at_base g) ∧
  map truck_id (trucks (spawn_truck_at_base g))
  = seqZ 1 (Z.of_nat (length (trucks (spawn_truck_at_base g)))) ∧
  next_truck_id (spawn_truck_at_base g)
  = Z.of_nat (length (trucks (spawn_truck_at_base g))) + 1 ∧
  length (trucks (spawn_truck_at_base g)) = S (length (trucks g)).
Proof.
  intros K P M F1 F2. unfold spawn_truck_at_base. cbv zeta. simpl.
  assert (Hl : ∀ x : Truck, length (trucks g ++ [x]) = S (length (trucks g))).
  { intros x. rewrite length_app. simpl. lia. }
  split; [done|]. split; [|split; [|split; [|split]]].
  - apply Forall_app. split; [done|]. by constructor.
  - by apply (map_ok_ext g).
  - rewrite Hl, seqZ_S, map_app, F1, F2. simpl. do 2 f_equal. lia.
  - rewrite Hl, F2. lia.
  - apply Hl.
Qed.

Lemma build_new_truck_game_ok g :
  game_ok g → ∃ g', build_new_truck g = Ok g' ∧ game_ok g'.
Proof.
  intros Hg. pose proof Hg as [K P (F1 & F2 & F3 & F4) M].
  unfold build_new_truck. cbv zeta.
  destruct (Qle_bool _ _); [|by exists g].
  unfold dict_add. destruct (pool_keys_bmats g K) as [v Hv].
  rewrite Hv. simpl.
  set (g0 := set_resources _ g).
  destruct (spawn_truck_game_ok g0) as (S1 & S2 & S3 & S4 & S5 & S6);
    [intros k Hk; by apply insert_keeps_keys, K|done|by apply (map_ok_ext g)
    |done|done|].
  eexists. split; [done|].
  split; [done|done| |by apply (map_ok_ext (spawn_truck_at_base g0))].
  split; [exact S4|]. split; [exact S5|]. split.
  - change (trucks_built g + 1
            = Z.of_nat (length (trucks (spawn_truck_at_base g0)))).
    rewrite S6, F3. change (trucks g0) with (trucks g). lia.
  - change (2 ≤ length (trucks (spawn_truck_at_base g0)))%nat.
    rewrite S6. change (trucks g0) with (trucks g). lia.
Qed.

Lemma update_first_length {A : Type} (p : A → bool) f (l : list A) :
  length (update_first p f l) = length l.
Proof.
  induction l as [|x l IH]; simpl; [done|]. destruct (p x); simpl; congruence.
Qed.

Lemma trucks_updated_game_ok p f g :
  (∀ t, truck_id (f t) = truck_id t) →
  (∀ t, waiting_parked t → waiting_parked (f t)) →
  game_ok g → game_ok (set_trucks (update_first p f (trucks g)) g).
Proof.
  intros Hid Hp [K P F M]. split; [done| | |by apply (map_ok_ext g)].
  - simpl. by apply update_first_Forall.
  - apply (fleet_ok_ext g); [|done|done|done]. simpl. by apply update_first_map.
Qed.

(** What [start_assignment] does to the truck: nothing, or a route. *)
Lemma assign_shape g source dest resource t :
  assign g source dest resource t = t ∨
  ∃ start r st extra,
    find_nearest_road_to_cell (road_grid g)
      (world_pos_to_cell (position_px t)) 12 = Some start ∧
    find_path_on_roads (road_grid g) start r ≠ [] ∧
    (st = to_source ∧ (extra = [] ∨ extra = [source]) ∨
     st = to_dest ∧ extra = [dest]) ∧
    let t' :=
      routed (find_path_on_roads (road_grid g) start r ++ extra)
        st start source dest resource t in
    assign g source dest resource t = t' ∨
    assign g source dest resource t = set_refinery_loop true t'.
Proof.
  unfold assign.
  destruct (find_nearest_road_to_cell (road_grid g)
              (world_pos_to_cell (position_px t)) 12) as [start|]; [|by left].
  destruct (find_nearest_road_to_cell (road_grid g) source 12) as [sr|]; [|by left].
  destruct (find_nearest_road_to_cell (road_grid g) dest 12) as [dr|] eqn:Ed;
    [|by left].
  destruct (bool_decide (source = base_cell g) && bool_decide (resource = "stone"))
    eqn:Eb.
  - apply andb_true_iff in Eb as [Hs%bool_decide_eq_true _].
    destruct (negb _).
    + destruct (find_nearest_road_to_cell (road_grid g) (base_cell g) 12)
        as [br|]; [|by left].
      destruct (find_path_on_roads (road_grid g) start br) as [|x p] eqn:Ep;
        [by left|].
      right. exists start, br, to_source, [source]. rewrite Ep.
      split; [done|]. split; [done|]. split; [left; auto|].
      right. by rewrite Hs.
    + destruct (find_path_on_roads (road_grid g) start dr) as [|x p] eqn:Ep;
        [by left|].
      right. exists start, dr, to_dest, [dest]. rewrite Ep.
      split; [done|]. split; [done|]. split; [right; auto|].
      by right.
  - destruct (assign_close g t start sr dr source dest resource) as [t'|] eqn:Ec.
    + unfold assign_close in Ec.
      destruct (_ <=? 3); [|done]. case_bool_decide; [|done].
      destruct (find_nearest_road_to_cell (road_grid g) (base_cell g) 12)
        as [br|]; [|left; congruence].
      case_bool_decide; [|left; congruence].
      destruct (find_path_on_roads (road_grid g) start br) as [|x p] eqn:Ep;
        [done|].
      injection Ec as <-. right. exists start, br, to_source, [source]. rewrite Ep.
      split; [done|]. split; [done|]. split; [left; auto|].
      by left.
    + destruct (find_path_on_roads (road_grid g) start sr) as [|x p] eqn:Ep;
        [by left|].
      right. exists start, sr, to_source, []. rewrite Ep, app_nil_r.
      split; [done|]. split; [done|]. split; [left; auto|].
      cbv zeta. simpl.
      destruct (_ && _ && _); auto.
Qed.

Lemma assign_id g source dest resource t :
  truck_id (assign g source dest resource t) = truck_id t ∧
  (waiting_parked t → waiting_parked (assign g source dest resource t)).
Proof.
  destruct (assign_shape g source dest resource t)
    as [->|(start & r & st & extra & _ & _ & Hst & [->| ->])]; [done| |];
    (split; [done|]); intros _ Hw; simpl in Hw;
    destruct Hst as [[-> _] | [-> _]]; done.
Qed.

(** ** The tick returns *)

Lemma deliverable_kind t kinds k : deliverable t kinds = Some k → k ∈ kinds.
Proof.
  unfold deliverable. destruct (cargo_type t) as [k'|]; [|done].
  destruct (bool_decide (k' ∈ kinds)) eqn:E; [|done].
  apply bool_decide_eq_true in E. destruct (Qltb _ _); [|done].
  by intros [= <-].
Qed.

Lemma deliver_to_pool_total k g t :
  is_Some (resources g !! k) → ∃ r, deliver_to_pool k g t = Ok r.
Proof.
  intros [v Hv]. unfold deliver_to_pool, dict_add. cbv zeta. rewrite Hv.
  simpl. by eexists.
Qed.

Lemma arrive_at_dest_total g t :
  pool_keys g → ∃ r, arrive_at_dest g t = Ok r.
Proof.
  intros K. unfold arrive_at_dest.
  assert (Hpool : ∀ k, k ∈ ["wood"; "stone"; "bmats"] →
            ∃ r, deliver_to_pool k g t
                 ≫= (λ '(g', t'), Ok (g', repeat_or_idle g' t')) = Ok r).
  { intros k Hk. destruct (deliver_to_pool_total k g t) as [[g' t'] ->]; [by apply K|].
    simpl. by eexists. }
  destruct (_dest_cell t) as [d|]; [|by eexists].
  case_bool_decide.
  - case_bool_decide.
    + destruct (deliverable t ["wood"; "stone"; "bmats"]) as [k|] eqn:Ek;
        [|by eexists].
      apply Hpool. by eapply deliverable_kind.
    + destruct (get_building_at_cell g d) as [db|]; [|by eexists].
      destruct (_ && _).
      * unfold deliver_to_refinery. cbv zeta.
        destruct (0 <? _); by eexists.
      * destruct (deliverable t ["wood"; "bmats"]) as [k|] eqn:Ek; [|by eexists].
        apply Hpool. apply deliverable_kind in Ek.
        apply list_elem_of_In in Ek. apply list_elem_of_In. simpl in *. tauto.
  - destruct (_ && _ && _); [|by eexists].
    destruct (is_cell_in_base_area g (current_cell t)); [|by eexists].
    destruct (load_from_base "stone" g t) as [[l g'] t'].
    destruct (Qltb 0 l); by eexists.
Qed.

Lemma update_truck_total g t dt :
  pool_keys g → waiting_parked t → ∃ r, update_truck g t dt = Ok r.
Proof.
  intros K P. unfold update_truck.
  destruct (path_cells t) as [|c rest] eqn:Ep; [by eexists|].
  cbv zeta. destruct (Qltb _ _).
  - destruct rest; [|by eexists].
    unfold on_truck_arrival. simpl.
    destruct (state t) eqn:Es; try by eexists.
    + by apply arrive_at_dest_total.
    + specialize (P Es). congruence.
  - destruct (Qle_bool _ _); by eexists.
Qed.

Lemma update_trucks_total dt ts :
  ∀ g, pool_keys g → Forall waiting_parked ts →
       ∃ r, update_trucks g dt ts = Ok r.
Proof.
  induction ts as [|t ts IH]; intros g K P; [by eexists|].
  inversion P as [|? ? Pt Pts]; subst. simpl.
  destruct (update_truck_total g t dt K Pt) as [[g' t'] E]. rewrite E. simpl.
  apply update_truck_frame in E as (H1 & _ & _).
  destruct (IH g') as [[g'' ts'] ->]; [by eapply pool_keys_frame|done|].
  simpl. by eexists.
Qed.

Lemma update_total dt g :
  pool_keys g → Forall waiting_parked (trucks g) → ∃ g', update dt g = Ok g'.
Proof.
  intros K P. unfold update. cbv zeta.
  destruct (update_trucks_total dt (trucks g)
              (set_buildings (map (produce g dt) (buildings g)) g))
    as [[g2 ts] E]; [done|done|].
  simpl in E. simpl. rewrite E. simpl. by eexists.
Qed.

Lemma run_command_game_ok cmd g :
  game_ok g → ∃ g', run_command cmd g = Ok g' ∧ game_ok g'.
Proof.
  intros Hg. destruct cmd as [c|c|c|c|cells| |id s d r|id|id|dt]; simpl.
  - eexists. split; [done|]. by apply paint_cell_game_ok.
  - eexists. split; [done|]. by apply (place_building_game_ok lumber).
  - eexists. split; [done|]. by apply (place_building_game_ok quarry).
  - eexists. split; [done|]. by apply (place_building_game_ok refinery).
  - by apply execute_bulldoze_game_ok.
  - by apply build_new_truck_game_ok.
  - eexists. split; [done|]. apply trucks_updated_game_ok; [| |done];
      intros t; apply assign_id.
  - eexists. split; [done|]. by apply trucks_updated_game_ok.
  - eexists. split; [done|]. by apply trucks_updated_game_ok.
  - destruct (update_total dt g) as [g' E]; [apply Hg|apply Hg|].
    exists g'. split; [done|]. by eapply update_game_ok.
Qed.

Lemma new_game_game_ok base trees0 stones0 :
  resources_generated base trees0 stones0 →
  game_ok (new_game base trees0 stones0).
Proof.
  intros (_ & _ & Hst). split.
  - intros k Hk. apply list_elem_of_In in Hk. simpl in Hk.
    destruct Hk as [<-|[<-|[<-|[]]]]; by eexists.
  - repeat constructor; done.
  - by repeat split.
  - split; simpl; try done;
      try (intros c Hc;
           first [by apply elem_of_empty in Hc|by apply elem_of_nil in Hc]);
      try apply NoDup_nil_2.
    intros c v H.
    repeat (apply lookup_insert_Some in H as [[_ <-]|[_ H]]; [by right|]).
    by rewrite lookup_empty in H.
Qed.

Lemma reachable_game_ok g : reachable g → game_ok g.
Proof.
  induction 1 as [base trees0 stones0 Hgen|g cmd g' _ IH Hrun].
  - by apply new_game_game_ok.
  - destruct (run_command_game_ok cmd g IH) as (g'' & E & Hok). congruence.
Qed.


(** * The map of a reachable world *)

Lemma find_building_unique (l : list Building) (b : Building) :
  NoDup (map cell l) → b ∈ l →
  find (λ b', bool_decide (cell b' = cell b)) l = Some b.
Proof.
  induction l as [|x l IH]; intros Hnd Hb; [by apply elem_of_nil in Hb|].
  simpl in *. apply NoDup_cons in Hnd as [Hx Hnd].
  case_bool_decide as Hc.
  - apply elem_of_cons in Hb as [->|Hb]; [done|].
    exfalso. apply Hx. rewrite Hc. by apply list_elem_of_fmap_2.
  - apply elem_of_cons in Hb as [->|Hb]; [done|]. by apply IH.
Qed.

(** X8: in every reachable world trees, stones and roads exclude each
    other, no building stands on a tree, on a stone or within one cell of
    the base footprint, and no two buildings share a cell:
    [get_building_at_cell] on a building's cell returns that building.
    (A road under a building is not excluded: [paint_cell] does not look
    at the buildings.) *)
Theorem reachable_map_exclusive (g : Game) :
  reachable g →
  (∀ c, c ∈ roads g → (c ∉ trees g) ∧ (c ∉ stones g)) ∧
  (∀ c, c ∈ stones g → c ∉ trees g) ∧
  (∀ b, b ∈ buildings g →
        (cell b ∉ trees g) ∧ (cell b ∉ stones g) ∧
        is_cell_adjacent_to_base g (cell b) = false ∧
        get_building_at_cell g (cell b) = Some b).
Proof.
  intros Hg. pose proof (reachable_game_ok g Hg) as [_ _ _ M].
  pose proof (reachable_world_ok g Hg) as [_ _ Hb].
  destruct M as [M1 M2 M3 M4 M5 _ _].
  split; [by auto|]. split; [done|].
  intros b Hin. destruct (M4 (cell b)) as [H1 H2]; [by apply list_elem_of_fmap_2|].
  split; [done|]. split; [done|]. split.
  - rewrite Forall_forall in Hb. by apply Hb.
  - by apply find_building_unique.
Qed.

Lemma reachable_map_exclusive_witness :
  reachable c4_world ∧ c4_camp ∈ buildings c4_world ∧
  get_building_at_cell c4_world (cell c4_camp) = Some c4_camp.
Proof.
  assert (H1 : reachable c4_world)
    by apply world_after_reachable, ex_start_reachable.
  assert (H2 : c4_camp ∈ buildings c4_world)
    by (apply list_elem_of_In; vm_compute; by left).
  split; [exact H1|]. split; [exact H2|].
  exact (proj2 (proj2 (proj2
    (proj2 (proj2 (reachable_map_exclusive c4_world H1)) c4_camp H2)))).
Defined.

(** X9: in every reachable world every road cell is driveable
    ([road_grid] holds 1 for it), and [road_grid] holds nothing but 0
    and 1. *)
Theorem reachable_roads_driveable (g : Game) :
  reachable g →
  (∀ c, c ∈ roads g → is_driveable (road_grid g) c = true) ∧
  (∀ c v, road_grid g !! c = Some v → v = 0 ∨ v = 1).
Proof.
  intros Hg. pose proof (reachable_game_ok g Hg) as [_ _ _ M].
  by destruct M as [_ _ _ _ _ M6 M7].
Qed.

Lemma reachable_roads_driveable_witness :
  reachable c4_world ∧ (10, 3) ∈ roads c4_world ∧
  is_driveable (road_grid c4_world) (10, 3) = true.
Proof.
  assert (H1 : reachable c4_world)
    by apply world_after_reachable, ex_start_reachable.
  assert (H2 : (10, 3) ∈ roads c4_world) by (by vm_compute).
  split; [exact H1|]. split; [exact H2|].
  exact (proj1 (reachable_roads_driveable c4_world H1) (10, 3) H2).
Defined.

(** * The fleet *)

Lemma find_by_id (l : list Truck) :
  ∀ m k, map truck_id l = seqZ m (Z.of_nat (length l)) →
  find (λ t, bool_decide (truck_id t = k)) l
  = if bool_decide (m ≤ k < m + Z.of_nat (length l))
    then l !! Z.to_nat (k - m) else None.
Proof.
  induction l as [|t l IH]; intros m k Hids.
  { simpl. case_bool_decide; [lia|done]. }
  rewrite seqZ_cons in Hids by (simpl; lia).
  simpl in Hids. injection Hids as Ht Hl.
  replace (Z.pred (Z.of_nat (S (length l))))
    with (Z.of_nat (length l)) in Hl by lia.
  simpl. case_bool_decide as Hk.
  - rewrite bool_decide_eq_true_2 by lia.
    by replace (k - m) with 0 by lia.
  - rewrite (IH (Z.succ m) k Hl).
    case_bool_decide as H1; case_bool_decide as H2; try lia; [|done].
    replace (Z.to_nat (k - m)) with (S (Z.to_nat (k - Z.succ m))) by lia.
    done.
Qed.

(** X10: in every reachable world the trucks carry the numbers 1 to n in
    the order of [self.trucks], with n at least 2; so
    [get_truck_by_id k] is the k-th truck for 1 <= k <= n and [None]
    otherwise, the next number handed out is n + 1 and the price of the
    next truck is 10 + 15 n bmats. *)
Theorem truck_ids_consecutive (g : Game) :
  reachable g →
  (2 ≤ length (trucks g))%nat ∧
  map truck_id (trucks g) = seqZ 1 (Z.of_nat (length (trucks g))) ∧
  next_truck_id g = Z.of_nat (length (trucks g)) + 1 ∧
  get_truck_cost g = 10 + 15 * Z.of_nat (length (trucks g)) ∧
  ∀ k, get_truck_by_id g k
       = if bool_decide (1 ≤ k ≤ Z.of_nat (length (trucks g)))
         then trucks g !! Z.to_nat (k - 1) else None.
Proof.
  intros Hg. pose proof (reachable_game_ok g Hg) as [_ _ (F1 & F2 & F3 & F4) _].
  split; [done|]. split; [done|]. split; [done|]. split.
  - unfold get_truck_cost. by rewrite F3.
  - intros k. unfold get_truck_by_id. rewrite (find_by_id _ 1 k F1).
    case_bool_decide; case_bool_decide; try lia; done.
Qed.

Lemma truck_ids_consecutive_witness :
  reachable c7_world ∧ get_truck_cost c7_world = 10 + 15 * 2.
Proof.
  assert (H1 : reachable c7_world)
    by apply world_after_reachable, ex_start_reachable.
  split; [exact H1|].
  exact (proj1 (proj2 (proj2 (proj2 (truck_ids_consecutive c7_world H1))))).
Defined.

(** X11: in every reachable world a truck that waits for bmats has an
    empty path, so [update] never calls [on_truck_arrival] for it and the
    undefined name [dt] is never read; and the pool has the keys the code
    indexes.  Hence no command and no tick raises: each one returns the
    next world. *)
Theorem commands_never_raise (g : Game) :
  reachable g →
  (∀ t, t ∈ trucks g → state t = waiting_for_bmats → path_cells t = []) ∧
  (∀ cmd, ∃ g', run_command cmd g = Ok g').
Proof.
  intros Hg. pose proof (reachable_game_ok g Hg) as Hok. split.
  - intros t Ht. destruct Hok as [_ P _ _].
    rewrite Forall_forall in P. by apply P.
  - intros cmd. destruct (run_command_game_ok cmd g Hok) as (g' & E & _).
    by exists g'.
Qed.

Lemma commands_never_raise_witness :
  reachable c1_world ∧ ∃ g', run_command (Update 1) c1_world = Ok g'.
Proof.
  assert (H1 : reachable c1_world)
    by apply world_after_reachable, ex_start_reachable.
  split; [exact H1|].
  exact (proj2 (commands_never_raise c1_world H1) (Update 1)).
Defined.

(** X12: a tick changes storages, timers, the pool and the motion of
    the trucks, and nothing else: roads, road grid, trees, stones, the
    base and the truck counters stay as they are, every building keeps its
    place in the list, its type, cell, radius and production rate, no pool
    key disappears, and every truck keeps its place in the list, its
    number, speed, capacity, repeat flag and saved assignment. *)
Theorem update_leaves_the_map (dt : Q) (g g' : Game) :
  update dt g = Ok g' →
  same_map g g' ∧
  map site_view (buildings g') = map site_view (buildings g) ∧
  (∀ k, is_Some (resources g !! k) → is_Some (resources g' !! k)) ∧
  map truck_fixed (trucks g') = map truck_fixed (trucks g).
Proof.
  intros E. apply update_frame in E as ([M S K] & H2 & _). done.
Qed.

Lemma update_leaves_the_map_witness :
  update 1 c6_world = Ok (world_after [Update 1] c6_world) ∧
  map site_view (buildings (world_after [Update 1] c6_world))
  = map site_view (buildings c6_world).
Proof.
  assert (H1 : update 1 c6_world = Ok (world_after [Update 1] c6_world))
    by (by vm_compute).
  split; [exact H1|].
  exact (proj1 (proj2 (update_leaves_the_map 1 c6_world _ H1))).
Defined.

(** X13: buying a truck in a reachable world with n trucks: with fewer
    than 10 + 15 n bmats in the pool nothing happens; otherwise exactly
    that price is taken from the pool, one truck with number n + 1 is
    appended, idle and empty on the base cell, and the next price is 15
    higher.  The map and the buildings are not touched. *)
Theorem build_new_truck_price (g : Game) :
  reachable g →
  ((bmats_of g < of_int (10 + 15 * Z.of_nat (length (trucks g))))%Q →
   build_new_truck g = Ok g) ∧
  ((of_int (10 + 15 * Z.of_nat (length (trucks g))) <= bmats_of g)%Q →
   ∃ g' t, build_new_truck g = Ok g' ∧ trucks g' = trucks g ++ [t] ∧
     truck_id t = Z.of_nat (length (trucks g)) + 1 ∧ state t = idle ∧
     current_cell t = base_cell g ∧ path_cells t = [] ∧
     cargo_amount t = 0%Q ∧
     (bmats_of g' == bmats_of g
                     - of_int (10 + 15 * Z.of_nat (length (trucks g))))%Q ∧
     get_truck_cost g' = get_truck_cost g + 15 ∧
     same_map g (set_trucks_built (trucks_built g)
                   (set_next_truck_id (next_truck_id g) g')) ∧
     buildings g' = buildings g).
Proof.
  intros Hg. pose proof (reachable_game_ok g Hg) as [K _ (F1 & F2 & F3 & F4) _].
  assert (Hcost : get_truck_cost g = 10 + 15 * Z.of_nat (length (trucks g))).
  { unfold get_truck_cost. by rewrite F3. }
  unfold build_new_truck. cbv zeta. rewrite Hcost. split.
  - intros Hlt. fold (bmats_of g).
    assert (Qle_bool (of_int (10 + 15 * Z.of_nat (length (trucks g)))) (bmats_of g)
            = false) as ->; [|done].
    destruct (Qle_bool _ _) eqn:E; [|done].
    apply Qle_bool_iff in E. lra.
  - intros Hle. fold (bmats_of g).
    apply Qle_bool_iff in Hle. rewrite Hle.
    destruct (pool_keys_bmats g K) as [v Hv].
    unfold dict_add. rewrite Hv. simpl.
    eexists _, _. split; [done|]. simpl. split; [done|]. simpl.
    split; [done|]. split; [done|]. split; [done|]. split; [done|].
    split; [done|]. split.
    + unfold bmats_of, dict_get. simpl. rewrite lookup_insert_eq, Hv. simpl.
      rewrite fadd_eq. ring.
    + split; [unfold get_truck_cost; simpl; lia|]. by repeat split.
Qed.

Lemma build_new_truck_price_witness :
  reachable ex_start ∧ (bmats_of ex_start < of_int (10 + 15 * 2))%Q ∧
  build_new_truck ex_start = Ok ex_start.
Proof.
  assert (H1 : reachable ex_start) by apply ex_start_reachable.
  assert (H2 : (bmats_of ex_start
                < of_int (10 + 15 * Z.of_nat (length (trucks ex_start))))%Q)
    by (by vm_compute).
  split; [exact H1|]. split; [exact H2|].
  exact (proj1 (build_new_truck_price ex_start H1) H2).
Defined.

(** * Trucks between commands *)

Lemma update_trucks_parked dt ts :
  ∀ g g1 ts1, update_trucks g dt ts = Ok (g1, ts1) →
  ∀ i t, ts !! i = Some t → path_cells t = [] → ts1 !! i = Some t.
Proof.
  induction ts as [|t0 ts IH]; intros g g1 ts1; [by intros [= <- <-]|].
  simpl. destruct (update_truck g t0 dt) as [[g' t']|e] eqn:E; [|done]. simpl.
  destruct (update_trucks g' dt ts) as [[g'' ts']|e] eqn:E'; [|done]. simpl.
  intros [= <- <-] [|i] t Hi Hp; simpl in *.
  - injection Hi as ->. rewrite (update_truck_empty_path g t dt Hp) in E.
    by injection E as _ <-.
  - by eapply IH.
Qed.

(** X14: a truck with an empty path (idle, reset, or waiting for bmats)
    is not changed by any number of ticks: it keeps its place in the list
    and every field, whatever happens around it.  Only a command can set
    it in motion again. *)
Theorem truck_without_path_stays (n : nat) (dt : Q) (g g' : Game) (i : nat) (t : Truck) :
  run_ticks n dt g = Ok g' →
  trucks g !! i = Some t → path_cells t = [] →
  trucks g' !! i = Some t.
Proof.
  revert g. induction n as [|n IH]; intros g; [by intros [= <-]|].
  simpl. destruct (update dt g) as [g1|e] eqn:E; [|done]. simpl.
  intros Hrun Hi Hp. apply (IH g1 Hrun); [|done].
  unfold update in E. cbv zeta in E.
  destruct (update_trucks _ dt _) as [[g2 ts]|e] eqn:E'; [|done].
  simpl in E. injection E as <-. simpl.
  by eapply update_trucks_parked.
Qed.

Lemma truck_without_path_stays_witness :
  run_ticks 3 1 c1_world = Ok (world_after (replicate 3 (Update 1)) c1_world) ∧
  trucks c1_world !! 0%nat = Some c1_truck ∧ path_cells c1_truck = [] ∧
  trucks (world_after (replicate 3 (Update 1)) c1_world) !! 0%nat = Some c1_truck.
Proof.
  assert (H1 : run_ticks 3 1 c1_world
               = Ok (world_after (replicate 3 (Update 1)) c1_world))
    by (by vm_compute).
  assert (H2 : trucks c1_world !! 0%nat = Some c1_truck) by (by vm_compute).
  assert (H3 : path_cells c1_truck = []) by done.
  split; [exact H1|]. split; [exact H2|]. split; [exact H3|].
  exact (truck_without_path_stays 3 1 c1_world _ 0 c1_truck H1 H2 H3).
Defined.

(** ** Reset and repeat *)

Lemma update_first_twice {A : Type} (p : A → bool) (f h : A → A) (l : list A) :
  (∀ x, p (f x) = p x) →
  update_first p h (update_first p f l) = update_first p (h ∘ f) l.
Proof.
  intros Hp. induction l as [|x l IH]; simpl; [done|].
  destruct (p x) eqn:E; simpl.
  - by rewrite Hp, E.
  - by rewrite E, IH.
Qed.

Lemma update_first_ext {A : Type} (p : A → bool) (f h : A → A) (l : list A) :
  (∀ x, f x = h x) → update_first p f l = update_first p h l.
Proof.
  intros Hf. induction l as [|x l IH]; simpl; [done|].
  destruct (p x); by rewrite ?Hf, ?IH.
Qed.

Lemma update_first_id {A : Type} (p : A → bool) (l : list A) :
  update_first p (λ x, x) l = l.
Proof.
  induction l as [|x l IH]; simpl; [done|]. destruct (p x); by rewrite ?IH.
Qed.

Lemma update_first_find {A : Type} (p : A → bool) (f : A → A) (l : list A) :
  (∀ x, p (f x) = p x) →
  find p (update_first p f l) = f <$> find p l.
Proof.
  intros Hp. induction l as [|x l IH]; simpl; [done|].
  destruct (p x) eqn:E; simpl.
  - by rewrite Hp, E.
  - by rewrite E.
Qed.

(** X15: the reset button drops the cargo: the truck becomes idle with
    no path, no cargo and no saved assignment, while the pool and every
    building stay as they are, so what the truck carried is gone.  The
    repeat flag, the refinery-loop flag and the waiting target survive the
    reset.  A second reset changes nothing. *)
Theorem reset_drops_cargo (id : Z) (g : Game) :
  resources (reset_truck_by_id id g) = resources g ∧
  buildings (reset_truck_by_id id g) = buildings g ∧
  reset_truck_by_id id (reset_truck_by_id id g) = reset_truck_by_id id g ∧
  match get_truck_by_id g id with
  | Some t =>
      ∃ t', get_truck_by_id (reset_truck_by_id id g) id = Some t' ∧
        state t' = idle ∧ path_cells t' = [] ∧ cargo_amount t' = 0%Q ∧
        cargo_type t' = None ∧ saved_source t' = None ∧ saved_dest t' = None ∧
        saved_resource t' = None ∧ _dest_cell t' = None ∧
        position_px t' = position_px t ∧ current_cell t' = current_cell t ∧
        repeat_enabled t' = repeat_enabled t ∧
        refinery_loop t' = refinery_loop t ∧
        waiting_target t' = waiting_target t
  | None => reset_truck_by_id id g = g
  end.
Proof.
  split; [done|]. split; [done|]. split.
  - unfold reset_truck_by_id, set_trucks. simpl. f_equal.
    rewrite update_first_twice by done. by apply update_first_ext.
  - unfold get_truck_by_id, reset_truck_by_id. simpl.
    rewrite update_first_find by done.
    destruct (find _ (trucks g)) as [t|] eqn:E; simpl.
    + by eexists.
    + assert (update_first (λ t, bool_decide (truck_id t = id)) reset_truck
                (trucks g) = trucks g) as ->; [|by apply set_trucks_same].
      clear -E. induction (trucks g) as [|x l IH]; simpl in *; [done|].
      destruct (bool_decide _); [done|]. by rewrite IH.
Qed.

(** X16: the repeat button is a toggle: pressing it twice for the same
    truck gives back the world exactly as it was. *)
Theorem toggle_repeat_twice (id : Z) (g : Game) :
  toggle_repeat id (toggle_repeat id g) = g.
Proof.
  unfold toggle_repeat, set_trucks. simpl. rewrite update_first_twice by done.
  rewrite (update_first_ext _ _ (λ t, t)).
  - rewrite update_first_id. by destruct g.
  - intros t. destruct t. simpl. unfold set_repeat_enabled. simpl.
    by rewrite negb_involutive.
Qed.

(** ** Positions and cells *)

(** X17: [world_pos_to_cell] inverts the cell centre that [update_truck]
    steers to: the centre of every cell, also of cells with negative
    coordinates, lies in that cell; and so does every position of the
    cell's square when the cell has non-negative coordinates. *)
Theorem world_pos_to_cell_center (c : Coord) :
  world_pos_to_cell (cell_center c) = c ∧
  (∀ ox oy : Q,
    0 ≤ fst c → 0 ≤ snd c →
    (0 <= ox)%Q → (ox < 32)%Q → (0 <= oy)%Q → (oy < 32)%Q →
    world_pos_to_cell (of_int (fst c * GRID_SIZE) + ox,
                       of_int (snd c * GRID_SIZE) + oy)%Q = c) ∧
  (∀ x y : Q, (-1 < x)%Q → (x < 0)%Q → fst (world_pos_to_cell (x, y)) = 0).
Proof.
  assert (Hc : ∀ z, to_int (of_int (z * GRID_SIZE + GRID_SIZE / 2)) / GRID_SIZE = z).
  { intros z. unfold to_int, of_int, GRID_SIZE. simpl. rewrite Z.quot_1_r.
    change (32 / 2) with 16.
    symmetry. apply (Z.div_unique _ _ _ 16); lia. }
  assert (Ho : ∀ z (o : Q), 0 ≤ z → (0 <= o)%Q → (o < 32)%Q →
            to_int (of_int (z * GRID_SIZE) + o) / GRID_SIZE = z).
  { intros z [n d] Hz H0 H32. unfold to_int, of_int, GRID_SIZE, Qle, Qlt in *.
    simpl in *. rewrite Z.mul_1_r in *.
    assert (0 ≤ n) by lia.
    change (Z.pos (1 * d)) with (Z.pos d).
    rewrite Z.quot_div_nonneg by nia.
    pose proof (Z.div_mod (z * 32 * Z.pos d + n) (Z.pos d)) as Hdm.
    pose proof (Z.mod_pos_bound (z * 32 * Z.pos d + n) (Z.pos d)) as Hmb.
    set (q := (z * 32 * Z.pos d + n) `div` Z.pos d) in *.
    assert (32 * z ≤ q < 32 * z + 32) by nia.
    symmetry. apply (Z.div_unique _ _ _ (q - 32 * z)); lia. }
  destruct c as [x y]. split; [|split].
  - unfold world_pos_to_cell, cell_center. simpl. by rewrite !Hc.
  - intros ox oy Hx Hy H1 H2 H3 H4. unfold world_pos_to_cell. simpl in *.
    by rewrite !Ho.
  - intros [n d] y' H1 H2. unfold world_pos_to_cell, to_int, Qlt in *.
    simpl in *.
    assert (Hq : n `quot` Z.pos d = 0); [|by rewrite Hq].
    rewrite <- (Z.opp_involutive n), Z.quot_opp_l by lia.
    rewrite Z.quot_small by lia. done.
Qed.

Lemma world_pos_to_cell_center_witness :
  0 ≤ fst (8, 5) ∧ world_pos_to_cell (of_int (8 * GRID_SIZE) + 31, of_int (5 * GRID_SIZE) + 0)%Q = (8, 5).
Proof.
  split; [simpl; lia|].
  refine (proj1 (proj2 (world_pos_to_cell_center (8, 5))) 31%Q 0%Q _ _ _ _ _ _);
    by vm_compute.
Defined.

(** ** Assignments *)

Lemma update_first_fix {A : Type} (p : A → bool) (f : A → A) (l : list A) x :
  find p l = Some x → f x = x → update_first p f l = l.
Proof.
  intros Hx Hf. induction l as [|y l IH]; simpl in *; [done|].
  destruct (p y).
  - injection Hx as ->. by rewrite Hf.
  - by rewrite IH.
Qed.

Lemma update_first_none {A : Type} (p : A → bool) (f : A → A) (l : list A) :
  find p l = None → update_first p f l = l.
Proof.
  intros Hx. induction l as [|y l IH]; simpl in *; [done|].
  destruct (p y); [done|]. by rewrite IH.
Qed.

Lemma update_first_find_other {A : Type} (p q : A → bool) (f : A → A) (l : list A) :
  (∀ x, p x = true → q x = false ∧ q (f x) = false) →
  find q (update_first p f l) = find q l.
Proof.
  intros H. induction l as [|y l IH]; simpl; [done|].
  destruct (p y) eqn:E; simpl.
  - destruct (H y E) as [-> ->]. done.
  - by rewrite IH.
Qed.

(** X18: [start_assignment] touches nothing but the truck with the given
    number, and that truck all or nothing.  Either the world stays exactly
    as it was (no such truck, no road near the truck, the source or the
    destination, or no road path), or the truck is routed: its path is a
    4-connected path over driveable cells that starts on the road cell
    nearest to the truck, followed by the source (state to_source) or the
    destination (state to_dest) or by nothing (state to_source);
    [current_cell] becomes that road cell although the position is not
    moved; source, destination and resource are recorded; and the cargo
    the truck holds stays on board. *)
Theorem start_assignment_routes (id : Z) (source dest : Coord) (resource : string)
    (g : Game) :
  resources (start_assignment id source dest resource g) = resources g ∧
  buildings (start_assignment id source dest resource g) = buildings g ∧
  same_map g (start_assignment id source dest resource g) ∧
  (∀ id', id' ≠ id →
     get_truck_by_id (start_assignment id source dest resource g) id'
     = get_truck_by_id g id') ∧
  match get_truck_by_id g id with
  | None => start_assignment id source dest resource g = g
  | Some t =>
      start_assignment id source dest resource g = g ∨
      ∃ t' start r p,
        get_truck_by_id (start_assignment id source dest resource g) id = Some t' ∧
        find_nearest_road_to_cell (road_grid g)
          (world_pos_to_cell (position_px t)) 12 = Some start ∧
        path_from_to (road_grid g) start r p ∧
        (path_cells t' = p ∧ state t' = to_source ∨
         path_cells t' = p ++ [source] ∧ state t' = to_source ∨
         path_cells t' = p ++ [dest] ∧ state t' = to_dest) ∧
        current_cell t' = start ∧ saved_source t' = Some source ∧
        saved_dest t' = Some dest ∧ saved_resource t' = Some resource ∧
        cargo_type t' = Some resource ∧ _dest_cell t' = Some dest ∧
        cargo_amount t' = cargo_amount t ∧ position_px t' = position_px t ∧
        truck_id t' = truck_id t
  end.
Proof.
  split; [done|]. split; [done|]. split; [by repeat split|]. split.
  { intros id' Hne. unfold get_truck_by_id, start_assignment. simpl.
    apply update_first_find_other. intros t Ht.
    apply bool_decide_eq_true in Ht.
    rewrite (proj1 (assign_id g source dest resource t)), Ht.
    split; by apply bool_decide_eq_false_2. }
  unfold get_truck_by_id at 1.
  destruct (find _ (trucks g)) as [t|] eqn:E; last first.
  { unfold start_assignment. rewrite update_first_none by done.
    apply set_trucks_same. }
  destruct (assign_shape g source dest resource t)
    as [Hsame|(start & r & st & extra & Hs & Hp & Hst & Hres)].
  { left. unfold start_assignment.
    rewrite (update_first_fix _ _ _ t) by done. apply set_trucks_same. }
  right. exists (assign g source dest resource t), start, r,
    (find_path_on_roads (road_grid g) start r).
  split.
  { unfold get_truck_by_id, start_assignment. simpl.
    rewrite update_first_find, E; [done|].
    intros x. by rewrite (proj1 (assign_id g source dest resource x)). }
  split; [done|]. split.
  { destruct (find_path_cases (road_grid g) start r) as [[H0 _]|(_ & H1 & _)]; done. }
  cbv zeta in Hres.
  destruct Hres as [-> | ->]; simpl;
    (split; [|done]);
    destruct Hst as [[-> [-> | ->]] | [-> ->]]; simpl;
    rewrite ?app_nil_r; auto.
Qed.

(** * Goods: loading, delivering, producing *)


Lemma get_building_updated c f g :
  (∀ b, cell (f b) = cell b) →
  get_building_at_cell (update_building_at c f g) c
  = f <$> get_building_at_cell g c.
Proof.
  intros Hf. unfold get_building_at_cell, update_building_at. simpl.
  apply update_first_find. intros b. by rewrite Hf.
Qed.




Lemma to_int_upper q : (0 <= q)%Q → (q < inject_Z (to_int q) + 1)%Q.
Proof.
  destruct q as [n d]. unfold Qle, Qlt, to_int. simpl. intros Hn.
  rewrite Z.quot_div_nonneg by lia.
  pose proof (Z.mul_succ_div_gt n (Z.pos d)). lia.
Qed.

(** X20: a delivery adds the cargo rounded down to a whole number
    ([int(t.cargo_amount)]) and empties the truck, so the fraction the
    truck carried, less than one unit, is lost.  This holds for a delivery
    to the base pool and for stone handed to a refinery alike. *)
Theorem delivery_rounds_down (k : string) (c : Coord)
    (g g1 : Game) (t t1 : Truck) :
  (0 <= cargo_amount t)%Q →
  deliver_to_pool k g t = Ok (g1, t1) →
  (dict_get k 0 (resources g1)
   == dict_get k 0 (resources g) + inject_Z (to_int (cargo_amount t)))%Q ∧
  cargo_amount t1 = 0%Q ∧
  (inject_Z (to_int (cargo_amount t)) <= cargo_amount t)%Q ∧
  (cargo_amount t < inject_Z (to_int (cargo_amount t)) + 1)%Q ∧
  ∀ b, get_building_at_cell g c = Some b →
    ∃ b1, get_building_at_cell (snd (fst (deliver_to_refinery c g t))) c = Some b1 ∧
      (dict_get "stone" 0 (storage b1)
       == dict_get "stone" 0 (storage b) + inject_Z (to_int (cargo_amount t)))%Q ∧
      cargo_amount (snd (deliver_to_refinery c g t)) = 0%Q.
Proof.
  intros Hpos Hdel.
  destruct (to_int_bounds (cargo_amount t) Hpos) as [_ Hlo].
  pose proof (to_int_upper (cargo_amount t) Hpos) as Hup.
  unfold deliver_to_pool, dict_add in Hdel. cbv zeta in Hdel.
  destruct (resources g !! k) as [v|] eqn:Ev; [|done]. simpl in Hdel.
  injection Hdel as <- <-. simpl.
  split.
  { unfold dict_get. rewrite lookup_insert_eq, Ev. simpl. apply fadd_eq. }
  split; [done|]. split; [done|]. split; [done|].
  intros b Hb. unfold deliver_to_refinery. cbv zeta. simpl.
  rewrite get_building_updated, Hb by done. simpl.
  eexists. split; [done|]. simpl. split; [|done].
  unfold dict_get at 1. rewrite lookup_insert_eq. simpl. apply fadd_eq.
Qed.

Lemma delivery_rounds_down_witness :
  (0 <= cargo_amount c7_arriving)%Q ∧
  deliver_to_pool "wood" c7_world c7_arriving
  = Ok (c7_world_after, set_cargo_amount 0 c7_arriving) ∧
  cargo_amount (set_cargo_amount 0 c7_arriving) = 0%Q.
Proof.
  assert (H1 : (0 <= cargo_amount c7_arriving)%Q) by (by vm_compute).
  assert (H2 : deliver_to_pool "wood" c7_world c7_arriving
               = Ok (c7_world_after, set_cargo_amount 0 c7_arriving))
    by (by vm_compute).
  split; [exact H1|]. split; [exact H2|].
  exact (proj1 (proj2
    (delivery_rounds_down "wood" (8, 5) c7_world _ c7_arriving _ H1 H2))).
Defined.

(** ** Production *)

(** X21: the conversion in a refinery turns stone into bmats one for
    one: whatever the tick length and whether or not the refinery is
    connected, the production step leaves the sum of its stone and its
    bmats unchanged, and it changes neither of them by more than one. *)
Theorem refinery_keeps_stone_plus_bmats (g : Game) (dt : Q) (b : Building) :
  type b = refinery →
  (dict_get "stone" 0 (storage (produce g dt b))
   + dict_get "bmats" 0 (storage (produce g dt b))
   == dict_get "stone" 0 (storage b) + dict_get "bmats" 0 (storage b))%Q ∧
  (dict_get "bmats" 0 (storage b) <= dict_get "bmats" 0 (storage (produce g dt b)))%Q ∧
  (dict_get "bmats" 0 (storage (produce g dt b)) <= dict_get "bmats" 0 (storage b) + 1)%Q.
Proof.
  intros Ht. unfold produce. rewrite Ht.
  destruct (Qle_bool _ _); [split; [done|lra]|].
  destruct (negb _); [split; [done|lra]|].
  destruct (Qltb _ _); [|split; [done|lra]].
  destruct (Qle_bool _ _); [|split; [done|simpl; lra]].
  simpl.
  pose proof (fadd_eq (dict_get "bmats" 0 (storage b)) 1) as Ha.
  pose proof (fsub_eq (dict_get "stone" 0 (storage b)) 1) as Hs.
  assert (H1 : dict_get "stone" 0
                 (<["bmats" := fadd (dict_get "bmats" 0 (storage b)) 1]>
                    (<["stone" := fsub (dict_get "stone" 0 (storage b)) 1]>
                       (storage b)))
               = fsub (dict_get "stone" 0 (storage b)) 1).
  { unfold dict_get at 1. by rewrite lookup_insert_ne, lookup_insert_eq. }
  assert (H2 : dict_get "bmats" 0
                 (<["bmats" := fadd (dict_get "bmats" 0 (storage b)) 1]>
                    (<["stone" := fsub (dict_get "stone" 0 (storage b)) 1]>
                       (storage b)))
               = fadd (dict_get "bmats" 0 (storage b)) 1).
  { unfold dict_get at 1. by rewrite lookup_insert_eq. }
  rewrite H1, H2. split; [lra|lra].
Qed.

Lemma refinery_keeps_stone_plus_bmats_witness :
  type c3_refinery = refinery ∧
  (dict_get "stone" 0 (storage (produce c3_world 5 c3_refinery))
   + dict_get "bmats" 0 (storage (produce c3_world 5 c3_refinery))
   == dict_get "stone" 0 (storage c3_refinery)
      + dict_get "bmats" 0 (storage c3_refinery))%Q.
Proof.
  split; [done|].
  exact (proj1 (refinery_keeps_stone_plus_bmats c3_world 5 c3_refinery eq_refl)).
Defined.




(** With tick lengths whose products and sums round, the stock after two
    steps of 0.2 and 0.3 seconds is not the stock after one step of 0.5
    seconds (rate 1.0, stock 0.1). *)
Lemma production_in_binary64 :
  (stock_tick_float 1 float_0_3 (stock_tick_float 1 float_0_2 float_0_1)
   =? stock_tick_float 1 (float_0_2 + float_0_3) float_0_1)%float = false.
Proof. by vm_compute. Qed.

(** * The bulldoze tool *)

Lemma remove_first_comm {A : Type} (p q : A → bool) (l : list A) :
  (∀ x, p x = true → q x = false) →
  remove_first q (remove_first p l) = remove_first p (remove_first q l).
Proof.
  intros H. induction l as [|x l IH]; simpl; [done|].
  destruct (p x) eqn:Ep, (q x) eqn:Eq; simpl; rewrite ?Ep, ?Eq; try done.
  - by rewrite (H x Ep) in Eq.
  - by rewrite IH.
Qed.

Lemma remove_first_find {A : Type} (p q : A → bool) (l : list A) :
  (∀ x, p x = true → q x = false) →
  find q (remove_first p l) = find q l.
Proof.
  intros H. induction l as [|x l IH]; simpl; [done|].
  destruct (p x) eqn:Ep; simpl.
  - by rewrite (H x Ep).
  - by rewrite IH.
Qed.

Lemma cell_tests_disjoint (c c' : Coord) (b : Building) :
  c ≠ c' → bool_decide (cell b = c) = true → bool_decide (cell b = c') = false.
Proof.
  intros Hne H. apply bool_decide_eq_true in H. apply bool_decide_eq_false.
  congruence.
Qed.

(** The four cases of [bulldoze_cell]. *)
Lemma bulldoze_cell_road c g v :
  c ∈ roads g → resources g !! "bmats" = Some v →
  bulldoze_cell c g
  = Ok (mkGame (roads g ∖ {[c]}) (<[c := 0]> (road_grid g)) (trees g) (stones g)
          (<["bmats" := fadd v 1]> (resources g)) (buildings g) (trucks g)
          (next_truck_id g) (base_cell g) (trucks_built g)).
Proof.
  intros Hc Hv. unfold bulldoze_cell, dict_add.
  rewrite bool_decide_eq_true_2 by done. simpl. by rewrite Hv.
Qed.

Lemma bulldoze_cell_road_err c g :
  c ∈ roads g → resources g !! "bmats" = None →
  bulldoze_cell c g = Raise (KeyError "bmats").
Proof.
  intros Hc Hv. unfold bulldoze_cell, dict_add.
  rewrite bool_decide_eq_true_2 by done. simpl. by rewrite Hv.
Qed.

Lemma bulldoze_cell_building c g b :
  c ∉ roads g → get_building_at_cell g c = Some b →
  bulldoze_cell c g
  = Ok (mkGame (roads g)
          (if bool_decide (is_Some (road_grid g !! c))
           then <[c := 0]> (road_grid g) else road_grid g)
          (trees g) (stones g) (resources g)
          (remove_first (λ b', bool_decide (cell b' = c)) (buildings g))
          (trucks g) (next_truck_id g) (base_cell g) (trucks_built g)).
Proof.
  intros Hc Hb. unfold bulldoze_cell.
  rewrite bool_decide_eq_false_2 by done. rewrite Hb.
  by rewrite (get_building_cell g c b Hb).
Qed.

Lemma bulldoze_cell_none c g :
  c ∉ roads g → get_building_at_cell g c = None → bulldoze_cell c g = Ok g.
Proof.
  intros Hc Hb. unfold bulldoze_cell.
  rewrite bool_decide_eq_false_2 by done. by rewrite Hb.
Qed.

(** Bulldozing a road cell commutes with bulldozing any other cell. *)
Lemma bulldoze_road_comm c c' g :
  c ≠ c' → c ∈ roads g →
  bulldoze_cell c g ≫= bulldoze_cell c' = bulldoze_cell c' g ≫= bulldoze_cell c.
Proof.
  intros Hne Hc.
  destruct (resources g !! "bmats") as [v|] eqn:Ev; last first.
  { rewrite (bulldoze_cell_road_err c g) by done. simpl.
    destruct (decide (c' ∈ roads g)) as [Hc'|Hc'].
    - by rewrite (bulldoze_cell_road_err c' g).
    - destruct (get_building_at_cell g c') as [b'|] eqn:Eb'.
      + rewrite (bulldoze_cell_building c' g b') by done. simpl.
        by rewrite bulldoze_cell_road_err.
      + rewrite (bulldoze_cell_none c' g) by done. simpl.
        by rewrite bulldoze_cell_road_err. }
  rewrite (bulldoze_cell_road c g v) by done. simpl.
  destruct (decide (c' ∈ roads g)) as [Hc'|Hc'].
  - rewrite (bulldoze_cell_road c' g v) by done. simpl.
    rewrite (bulldoze_cell_road c' _ (fadd v 1)); simpl;
      [|rewrite elem_of_difference, elem_of_singleton; by split
       |by rewrite lookup_insert_eq].
    rewrite (bulldoze_cell_road c _ (fadd v 1)); simpl;
      [|rewrite elem_of_difference, elem_of_singleton; by split
       |by rewrite lookup_insert_eq].
    do 2 f_equal.
    + apply set_eq. intros x. rewrite !elem_of_difference. tauto.
    + by apply insert_insert_ne.
  - destruct (get_building_at_cell g c') as [b'|] eqn:Eb'.
    + rewrite (bulldoze_cell_building c' g b') by done. simpl.
      rewrite (bulldoze_cell_building c' _ b'); simpl;
        [|rewrite elem_of_difference; tauto|done].
      rewrite (bulldoze_cell_road c _ v); simpl; [|done|done].
      do 2 f_equal. rewrite lookup_insert_ne by done.
      case_bool_decide; [by apply insert_insert_ne|done].
    + rewrite (bulldoze_cell_none c' g) by done. simpl.
      rewrite (bulldoze_cell_none c' _); simpl;
        [|rewrite elem_of_difference; tauto|done].
      by rewrite (bulldoze_cell_road c g v).
Qed.

Lemma find_after_remove (c c' : Coord) (l : list Building) :
  c ≠ c' →
  find (λ b, bool_decide (cell b = c'))
    (remove_first (λ b, bool_decide (cell b = c)) l)
  = find (λ b, bool_decide (cell b = c')) l.
Proof.
  intros Hne. apply remove_first_find. intros x. by apply cell_tests_disjoint.
Qed.

Lemma bulldoze_cell_comm c c' g :
  c ≠ c' →
  bulldoze_cell c g ≫= bulldoze_cell c' = bulldoze_cell c' g ≫= bulldoze_cell c.
Proof.
  intros Hne.
  destruct (decide (c ∈ roads g)) as [Hc|Hc]; [by apply bulldoze_road_comm|].
  destruct (decide (c' ∈ roads g)) as [Hc'|Hc'].
  { symmetry. by apply bulldoze_road_comm. }
  assert (Hne' : c' ≠ c) by congruence.
  destruct (get_building_at_cell g c) as [b|] eqn:Eb,
           (get_building_at_cell g c') as [b'|] eqn:Eb'.
  - rewrite (bulldoze_cell_building c g b), (bulldoze_cell_building c' g b')
      by done. simpl.
    rewrite (bulldoze_cell_building c' _ b'); simpl;
      [|done|unfold get_building_at_cell; simpl; by rewrite find_after_remove].
    rewrite (bulldoze_cell_building c _ b); simpl;
      [|done|unfold get_building_at_cell; simpl; by rewrite find_after_remove].
    do 2 f_equal.
    + destruct (bool_decide (is_Some (road_grid g !! c))) eqn:E1,
               (bool_decide (is_Some (road_grid g !! c'))) eqn:E2;
        rewrite ?lookup_insert_ne, ?E1, ?E2 by done; try done.
      by apply insert_insert_ne.
    + apply remove_first_comm. intros x. by apply cell_tests_disjoint.
  - rewrite (bulldoze_cell_building c g b), (bulldoze_cell_none c' g) by done.
    simpl. rewrite (bulldoze_cell_building c g b) by done.
    rewrite (bulldoze_cell_none c' _); simpl;
      [done|done|unfold get_building_at_cell; simpl; by rewrite find_after_remove].
  - rewrite (bulldoze_cell_building c' g b'), (bulldoze_cell_none c g) by done.
    simpl. rewrite (bulldoze_cell_building c' g b') by done.
    rewrite (bulldoze_cell_none c _); simpl;
      [done|done|unfold get_building_at_cell; simpl; by rewrite find_after_remove].
  - rewrite (bulldoze_cell_none c g), (bulldoze_cell_none c' g) by done. simpl.
    by rewrite (bulldoze_cell_none c g), (bulldoze_cell_none c' g).
Qed.

(** X23: the outcome of [execute_bulldoze] does not depend on the order
    in which the highlighted cells are visited: any two enumerations of the
    same set of cells give the same world (or raise the same error).  The
    iteration order of the Python set is therefore immaterial. *)
Theorem execute_bulldoze_any_order (cells cells' : list Coord) (g : Game) :
  NoDup cells → cells ≡ₚ cells' →
  execute_bulldoze cells g = execute_bulldoze cells' g.
Proof.
  intros Hnd Hperm. revert g Hnd.
  induction Hperm as [|x l l' Hp IH|x y l|l l' l'' Hp1 IH1 Hp2 IH2];
    intros g Hnd.
  - done.
  - apply NoDup_cons in Hnd as [_ Hnd]. simpl.
    destruct (bulldoze_cell x g); simpl; [by apply IH|done].
  - apply NoDup_cons in Hnd as [Hy Hnd].
    assert (Hne : y ≠ x) by (intros ->; apply Hy; by left).
    simpl. pose proof (bulldoze_cell_comm y x g Hne) as Hc.
    apply (f_equal (λ r, r ≫= execute_bulldoze l)) in Hc.
    destruct (bulldoze_cell y g) as [g1|e1], (bulldoze_cell x g) as [g2|e2];
      simpl in *; done.
  - rewrite IH1 by done. apply IH2. by rewrite <- Hp1.
Qed.

Lemma execute_bulldoze_any_order_witness :
  NoDup [(7, 5); (8, 5)] ∧ [(7, 5); (8, 5)] ≡ₚ [(8, 5); (7, 5)] ∧
  execute_bulldoze [(7, 5); (8, 5)] c6_world
  = execute_bulldoze [(8, 5); (7, 5)] c6_world.
Proof.
  assert (H1 : NoDup [(7, 5); (8, 5)]).
  { apply NoDup_cons. split; [|apply NoDup_singleton].
    intros H. apply list_elem_of_singleton in H. done. }
  assert (H2 : [(7, 5); (8, 5)] ≡ₚ [(8, 5); (7, 5)]) by apply perm_swap.
  split; [exact H1|]. split; [exact H2|].
  exact (execute_bulldoze_any_order _ _ c6_world H1 H2).
Defined.

Lemma update_drag_idle c m :
  is_dragging m = false ∨ drag_start_cell m = None → update_drag c m = m.
Proof.
  unfold update_drag. intros [-> | ->]; [done|].
  by rewrite orb_true_r.
Qed.

Lemma drag_over_idle cells m :
  is_dragging m = false ∨ drag_start_cell m = None → drag_over cells m = m.
Proof.
  intros H. induction cells as [|c cells IH]; [done|].
  unfold drag_over in *. simpl. by rewrite update_drag_idle.
Qed.

Lemma drag_over_dragging cells :
  ∀ m, is_dragging m = true → is_Some (drag_start_cell m) →
  is_dragging (drag_over cells m) = true ∧
  drag_start_cell (drag_over cells m) = drag_start_cell m ∧
  highlighted_cells (drag_over cells m)
  = highlighted_cells m ∪ list_to_set cells.
Proof.
  induction cells as [|c cells IH]; intros m Hd [s Hs].
  { simpl. split; [done|]. split; [done|]. by rewrite union_empty_r_L. }
  unfold drag_over in *. simpl.
  assert (Hu : update_drag c m
               = mkBulldozeManager true (Some s) (Some c)
                   ({[c]} ∪ highlighted_cells m)).
  { unfold update_drag. rewrite Hd, Hs. simpl. done. }
  rewrite Hu.
  destruct (IH (mkBulldozeManager true (Some s) (Some c)
                  ({[c]} ∪ highlighted_cells m)) eq_refl
              (mk_is_Some _ _ eq_refl)) as (H1 & H2 & H3).
  split; [done|]. split; [by rewrite H2|].
  rewrite H3. simpl. apply set_eq. intros x.
  rewrite !elem_of_union, elem_of_singleton. tauto.
Qed.

(** X24: the highlight of the bulldoze tool is exactly the set of cells
    the mouse visited between press and release: the pressed cell and
    every cell reported while the button was down.  Pressing the button
    discards the previous highlight; motion after the release, or after
    [clear_highlight], adds nothing. *)
Theorem drag_highlights_visited_cells (m : BulldozeManager) (c : Coord)
    (during after : list Coord) :
  highlighted_cells (end_drag (drag_over during (start_drag c m)))
  = {[c]} ∪ list_to_set during ∧
  drag_over after (end_drag (drag_over during (start_drag c m)))
  = end_drag (drag_over during (start_drag c m)) ∧
  drag_over after (clear_highlight (drag_over during (start_drag c m)))
  = clear_highlight (drag_over during (start_drag c m)) ∧
  highlighted_cells (clear_highlight (drag_over during (start_drag c m))) = ∅.
Proof.
  destruct (drag_over_dragging during (start_drag c m) eq_refl
              (mk_is_Some _ _ eq_refl)) as (H1 & H2 & H3).
  split; [exact H3|]. split; [|split; [|done]].
  - apply drag_over_idle. by left.
  - apply drag_over_idle. by right.
Qed.

(** * Lines of cells: [cells_on_line] *)

Section bresenham.

Context (x0 y0 x1 y1 D A sx sy : Z).
Hypothesis ED : D = Z.abs (x1 - x0).
Hypothesis EA : A = Z.abs (y1 - y0).
Hypothesis Esx : sx = if x0 <? x1 then 1 else -1.
Hypothesis Esy : sy = if y0 <? y1 then 1 else -1.

Local Lemma line_end_x : x1 = x0 + D * sx.
Proof. rewrite ED, Esx. destruct (Z.ltb_spec x0 x1); lia. Qed.

Local Lemma line_end_y : y1 = y0 + A * sy.
Proof. rewrite EA, Esy. destruct (Z.ltb_spec y0 y1); lia. Qed.

Local Lemma line_sx : sx = 1 ∨ sx = -1.
Proof. rewrite Esx. destruct (x0 <? x1); auto. Qed.

Local Lemma line_sy : sy = 1 ∨ sy = -1.
Proof. rewrite Esy. destruct (y0 <? y1); auto. Qed.

Local Lemma line_D_nonneg : 0 ≤ D.
Proof. rewrite ED. lia. Qed.

Local Lemma line_A_nonneg : 0 ≤ A.
Proof. rewrite EA. lia. Qed.

Local Lemma line_from_cons major_x a b a' b' cells :
  0 ≤ a ≤ D → 0 ≤ b ≤ A →
  Z.abs (2 * (b * D - a * A)) ≤ Z.max D A →
  (a' = a + 1 ∧ (b' = b ∨ b' = b + 1) ∧ major_x = true ∨
   b' = b + 1 ∧ (a' = a ∨ a' = a + 1) ∧ major_x = false) →
  line_from x0 y0 x1 y1 D A sx sy major_x a' b' cells →
  line_from x0 y0 x1 y1 D A sx sy major_x a b ((x0 + a * sx, y0 + b * sy) :: cells).
Proof.
  intros Ha Hb Hf Hstep (Hh & Hl & Hc & Hi).
  destruct cells as [|c cells]; [done|]. simpl in Hh. injection Hh as ->.
  split; [done|]. split; [by rewrite last_cons_cons|]. split.
  - split; [|done]. simpl.
    destruct line_sx as [-> | ->], line_sy as [-> | ->];
      destruct Hstep as [(-> & [-> | ->] & _)|(-> & [-> | ->] & _)]; lia.
  - intros [|i] c Hc'.
    + simpl in Hc'. injection Hc' as <-. exists a, b.
      split; [done|]. split; [done|]. split; [done|]. split; [|done].
      destruct major_x; simpl; lia.
    + simpl in Hc'. destruct (Hi i c Hc') as (a2 & b2 & -> & H1 & H2 & H3 & H4).
      exists a2, b2. split; [done|]. split; [done|]. split; [done|].
      split; [|done].
      destruct Hstep as [(-> & _ & ->)|(-> & _ & ->)]; lia.
Qed.

Local Lemma line_loop_x_major :
  A ≤ D →
  ∀ (n : nat) a b (fuel : nat),
    Z.of_nat n = D - a → 0 ≤ a → 0 ≤ b ≤ A →
    - D ≤ 2 * (b * D - a * A) ≤ D → (n < fuel)%nat →
    ∃ cells,
      line_loop fuel x1 y1 D (- A) sx sy (x0 + a * sx) (y0 + b * sy)
        (D - A - a * A + b * D) = Some cells ∧
      length cells = S n ∧ line_from x0 y0 x1 y1 D A sx sy true a b cells.
Proof.
  intros HAD. pose proof line_D_nonneg as HD. pose proof line_A_nonneg as HA.
  induction n as [|n IH]; intros a b fuel Hn Ha Hb Hf Hfuel;
    (destruct fuel as [|fuel]; [lia|]); simpl.
  - assert (a = D) as -> by lia.
    assert (b = A) as -> by nia.
    unfold line_from.
    rewrite <- line_end_x, <- line_end_y, !bool_decide_eq_true_2 by done.
    simpl. eexists. split; [done|]. split; [done|].
    split; [done|]. split; [done|]. split; [done|].
    intros [|i] c Hc; [|done]. injection Hc as <-.
    exists D, A. rewrite <- line_end_x, <- line_end_y.
    split; [done|]. split; [lia|]. split; [lia|]. split; [lia|].
    replace (A * D - D * A) with 0 by lia. simpl. lia.
  - assert (Hx : x0 + a * sx ≠ x1).
    { rewrite line_end_x. destruct line_sx as [-> | ->]; lia. }
    rewrite (bool_decide_eq_false_2 (x0 + a * sx = x1)) by done. simpl.
    assert ((- A <=? 2 * (D - A - a * A + b * D)) = true) as ->
      by (apply Z.leb_le; lia).
    destruct (Z.leb_spec (2 * (D - A - a * A + b * D)) D) as [Hy|Hy].
    + assert (Hb' : b + 1 ≤ A) by nia.
      destruct (IH (a + 1) (b + 1) fuel) as (cells & Hrun & Hlen & Hfrom);
        [lia|lia|lia|lia|lia|].
      replace (x0 + a * sx + sx) with (x0 + (a + 1) * sx) by lia.
      replace (y0 + b * sy + sy) with (y0 + (b + 1) * sy) by lia.
      replace (D - A - a * A + b * D + - A + D)
        with (D - A - (a + 1) * A + (b + 1) * D) by lia.
      rewrite Hrun. simpl. eexists. split; [done|]. split; [simpl; by rewrite Hlen|].
      apply (line_from_cons true a b (a + 1) (b + 1)); [lia|lia|lia| |done].
      left. split; [done|]. split; [by right|done].
    + destruct (IH (a + 1) b fuel) as (cells & Hrun & Hlen & Hfrom);
        [lia|lia|lia|lia|lia|].
      replace (x0 + a * sx + sx) with (x0 + (a + 1) * sx) by lia.
      replace (D - A - a * A + b * D + - A)
        with (D - A - (a + 1) * A + b * D) by lia.
      rewrite Hrun. simpl. eexists. split; [done|]. split; [simpl; by rewrite Hlen|].
      apply (line_from_cons true a b (a + 1) b); [lia|lia|lia| |done].
      left. split; [done|]. split; [by left|done].
Qed.

Local Lemma line_loop_y_major :
  D < A →
  ∀ (n : nat) a b (fuel : nat),
    Z.of_nat n = A - b → 0 ≤ b → 0 ≤ a ≤ D →
    - A ≤ 2 * (b * D - a * A) ≤ A → (n < fuel)%nat →
    ∃ cells,
      line_loop fuel x1 y1 D (- A) sx sy (x0 + a * sx) (y0 + b * sy)
        (D - A - a * A + b * D) = Some cells ∧
      length cells = S n ∧ line_from x0 y0 x1 y1 D A sx sy false a b cells.
Proof.
  intros HAD. pose proof line_D_nonneg as HD. pose proof line_A_nonneg as HA.
  induction n as [|n IH]; intros a b fuel Hn Hb Ha Hf Hfuel;
    (destruct fuel as [|fuel]; [lia|]); simpl.
  - assert (b = A) as -> by lia.
    assert (a = D) as -> by nia.
    unfold line_from.
    rewrite <- line_end_x, <- line_end_y, !bool_decide_eq_true_2 by done.
    simpl. eexists. split; [done|]. split; [done|].
    split; [done|]. split; [done|]. split; [done|].
    intros [|i] c Hc; [|done]. injection Hc as <-.
    exists D, A. rewrite <- line_end_x, <- line_end_y.
    split; [done|]. split; [lia|]. split; [lia|]. split; [lia|].
    replace (A * D - D * A) with 0 by lia. simpl. lia.
  - assert (Hy : y0 + b * sy ≠ y1).
    { rewrite line_end_y. destruct line_sy as [-> | ->]; lia. }
    rewrite (bool_decide_eq_false_2 (y0 + b * sy = y1)) by done.
    rewrite andb_false_r.
    assert (He : 2 * (D - A - a * A + b * D) ≤ D) by lia.
    destruct (Z.leb_spec (- A) (2 * (D - A - a * A + b * D))) as [Hx|Hx].
    + assert (Ha' : a + 1 ≤ D) by nia.
      assert ((2 * (D - A - a * A + b * D) <=? D) = true) as ->
        by (apply Z.leb_le; lia).
      destruct (IH (a + 1) (b + 1) fuel) as (cells & Hrun & Hlen & Hfrom);
        [lia|lia|lia|lia|lia|].
      replace (x0 + a * sx + sx) with (x0 + (a + 1) * sx) by lia.
      replace (y0 + b * sy + sy) with (y0 + (b + 1) * sy) by lia.
      replace (D - A - a * A + b * D + - A + D)
        with (D - A - (a + 1) * A + (b + 1) * D) by lia.
      rewrite Hrun. simpl. eexists. split; [done|]. split; [simpl; by rewrite Hlen|].
      apply (line_from_cons false a b (a + 1) (b + 1)); [lia|lia|lia| |done].
      right. split; [done|]. split; [by right|done].
    + assert ((2 * (D - A - a * A + b * D) <=? D) = true) as ->
        by (apply Z.leb_le; lia).
      destruct (IH a (b + 1) fuel) as (cells & Hrun & Hlen & Hfrom);
        [lia|lia|lia|lia|lia|].
      replace (y0 + b * sy + sy) with (y0 + (b + 1) * sy) by lia.
      replace (D - A - a * A + b * D + D)
        with (D - A - a * A + (b + 1) * D) by lia.
      rewrite Hrun. simpl. eexists. split; [done|]. split; [simpl; by rewrite Hlen|].
      apply (line_from_cons false a b a (b + 1)); [lia|lia|lia| |done].
      right. split; [done|]. split; [by left|done].
Qed.

Lemma line_loop_total (fuel : nat) :
  (Z.to_nat (Z.max D A) < fuel)%nat →
  ∃ cells,
    line_loop fuel x1 y1 D (- A) sx sy x0 y0 (D + - A) = Some cells ∧
    length cells = S (Z.to_nat (Z.max D A)) ∧
    line_from x0 y0 x1 y1 D A sx sy (A <=? D) 0 0 cells.
Proof.
  intros Hfuel. pose proof line_D_nonneg as HD. pose proof line_A_nonneg as HA.
  destruct (Z.leb_spec A D) as [H|H].
  - rewrite Z.max_l in * by lia.
    destruct (line_loop_x_major H (Z.to_nat D) 0 0 fuel)
      as (cells & Hrun & Hlen & Hfrom); [lia|lia|lia|lia|lia|].
    exists cells. split; [|done]. rewrite <- Hrun. f_equal; lia.
  - rewrite Z.max_r in * by lia.
    destruct (line_loop_y_major H (Z.to_nat A) 0 0 fuel)
      as (cells & Hrun & Hlen & Hfrom); [lia|lia|lia|lia|lia|].
    exists cells. split; [|done]. rewrite <- Hrun. f_equal; lia.
Qed.

End bresenham.

(** X25: [cells_on_line] is Bresenham's line.  Its loop ends after
    max(|dx|, |dy|) + 1 rounds and adds one new cell per round: the first
    is the start cell, the last the end cell, consecutive cells touch at
    an edge or at a corner, and the i-th cell lies i steps along the longer
    side and within half a cell of the straight line.  The set returned
    therefore has max(|dx|, |dy|) + 1 cells; on a diagonal drag every step
    is diagonal, so the road cells painted along it share no edge. *)
Theorem cells_on_line_bresenham (start end_ : Coord) (fuel : nat) :
  (Z.to_nat (Z.max (Z.abs (fst end_ - fst start))
                   (Z.abs (snd end_ - snd start))) < fuel)%nat →
  ∃ cells,
    line_cells fuel start end_ = Some cells ∧
    cells_on_line fuel start end_ = Some (list_to_set cells) ∧
    length cells = S (Z.to_nat (Z.max (Z.abs (fst end_ - fst start))
                                      (Z.abs (snd end_ - snd start)))) ∧
    NoDup cells ∧
    head cells = Some start ∧ last cells = Some end_ ∧
    touching_chain cells ∧
    ∀ (i : nat) c, cells !! i = Some c →
                   on_ideal_line start end_ (Z.of_nat i) c.
Proof.
  destruct start as [x0 y0], end_ as [x1 y1]. simpl. intros Hfuel.
  destruct (line_loop_total x0 y0 x1 y1 _ _ _ _ eq_refl eq_refl eq_refl eq_refl
              fuel Hfuel)
    as (cells & Hrun & Hlen & Hh & Hl & Hc & Hi).
  assert (Hline : ∀ (i : nat) c, cells !! i = Some c →
                    on_ideal_line (x0, y0) (x1, y1) (Z.of_nat i) c).
  { intros i c Hic. destruct (Hi i c Hic) as (a & b & -> & Ha & Hb & Hm & Hf).
    exists a, b. simpl. split; [done|]. split; [done|]. split; [done|].
    split; [|done]. destruct (_ <=? _); lia. }
  exists cells. unfold cells_on_line, line_cells. simpl. rewrite Hrun. simpl.
  split; [done|]. split; [done|]. split; [done|]. split.
  { apply NoDup_alt. intros i j c Hic Hjc.
    destruct (Hi i c Hic) as (a & b & -> & _ & _ & Hm & _).
    destruct (Hi j _ Hjc) as (a' & b' & Heq & _ & _ & Hm' & _).
    injection Heq as Hx Hy.
    destruct (Z.abs (y1 - y0) <=? Z.abs (x1 - x0));
      [destruct (x0 <? x1)|destruct (y0 <? y1)]; lia. }
  split; [rewrite Hh; f_equal; f_equal; lia|]. done.
Qed.

Lemma cells_on_line_bresenham_witness :
  (Z.to_nat (Z.max (Z.abs (2 - 0)) (Z.abs (2 - 0))) < 3)%nat ∧
  ∃ cells, line_cells 3 (0, 0) (2, 2) = Some cells ∧
           cells_on_line 3 (0, 0) (2, 2) = Some (list_to_set cells).
Proof.
  assert (H : (Z.to_nat (Z.max (Z.abs (2 - 0)) (Z.abs (2 - 0))) < 3)%nat)
    by (simpl; lia).
  split; [exact H|].
  destruct (cells_on_line_bresenham (0, 0) (2, 2) 3 H) as (cells & H1 & H2 & _).
  exists cells. split; [exact H1|exact H2].
Defined.

(** * Lines of cells: [_get_cells_between] *)

Section between.

Context (x0 y0 x1 y1 dx dy x_inc y_inc : Z).
Hypothesis Hdx : dx = Z.abs (x1 - x0).
Hypothesis Hdy : dy = Z.abs (y1 - y0).
Hypothesis Hx_inc : x_inc = if x0 <? x1 then 1 else -1.
Hypothesis Hy_inc : y_inc = if y0 <? y1 then 1 else -1.

Local Lemma between_end_x : x1 = x0 + dx * x_inc.
Proof. rewrite Hdx, Hx_inc. destruct (Z.ltb_spec x0 x1); lia. Qed.

Local Lemma between_end_y : y1 = y0 + dy * y_inc.
Proof. rewrite Hdy, Hy_inc. destruct (Z.ltb_spec y0 y1); lia. Qed.

Local Lemma between_x_inc : x_inc = 1 ∨ x_inc = -1.
Proof. rewrite Hx_inc. destruct (x0 <? x1); auto. Qed.

Local Lemma between_y_inc : y_inc = 1 ∨ y_inc = -1.
Proof. rewrite Hy_inc. destruct (y0 <? y1); auto. Qed.

Lemma between_loop_spec :
  ∀ (n : nat) a b,
    Z.of_nat n = 1 + (dx - a) + (dy - b) → 0 ≤ a ≤ dx → 0 ≤ b ≤ dy →
    length (between_loop n x1 y1 (dx * 2) (dy * 2) x_inc y_inc
              (x0 + a * x_inc) (y0 + b * y_inc)
              (dx - dy - 2 * a * dy + 2 * b * dx)) = n ∧
    head (between_loop n x1 y1 (dx * 2) (dy * 2) x_inc y_inc
            (x0 + a * x_inc) (y0 + b * y_inc)
            (dx - dy - 2 * a * dy + 2 * b * dx))
    = Some (x0 + a * x_inc, y0 + b * y_inc) ∧
    last (between_loop n x1 y1 (dx * 2) (dy * 2) x_inc y_inc
            (x0 + a * x_inc) (y0 + b * y_inc)
            (dx - dy - 2 * a * dy + 2 * b * dx))
    = Some (x1, y1) ∧
    edge_chain (between_loop n x1 y1 (dx * 2) (dy * 2) x_inc y_inc
                  (x0 + a * x_inc) (y0 + b * y_inc)
                  (dx - dy - 2 * a * dy + 2 * b * dx)).
Proof.
  induction n as [|n IH]; intros a b Hn Ha Hb; [lia|].
  simpl.
  destruct (decide (a = dx ∧ b = dy)) as [[-> ->]|Hnot].
  { rewrite <- between_end_x, <- between_end_y, !bool_decide_eq_true_2 by done.
    simpl. split; [f_equal; lia|done]. }
  assert (Hend : bool_decide (x0 + a * x_inc = x1)
                 && bool_decide (y0 + b * y_inc = y1) = false).
  { apply andb_false_iff.
    destruct (decide (a = dx)) as [->|Hne].
    - right. apply bool_decide_eq_false. rewrite between_end_y.
      destruct between_y_inc as [-> | ->]; lia.
    - left. apply bool_decide_eq_false. rewrite between_end_x.
      destruct between_x_inc as [-> | ->]; lia. }
  rewrite Hend.
  destruct (Z.ltb_spec 0 (dx - dy - 2 * a * dy + 2 * b * dx)) as [Hpos|Hneg].
  - assert (a < dx) by nia.
    destruct (IH (a + 1) b) as (H1 & H2 & H3 & H4); [lia|lia|lia|].
    replace (x0 + a * x_inc + x_inc) with (x0 + (a + 1) * x_inc) by lia.
    replace (dx - dy - 2 * a * dy + 2 * b * dx - dy * 2)
      with (dx - dy - 2 * (a + 1) * dy + 2 * b * dx) by lia.
    destruct (between_loop n _ _ _ _ _ _ _ _ _) as [|c cells] eqn:E; [done|].
    simpl in H2. injection H2 as ->.
    split; [simpl in *; lia|]. split; [done|].
    split; [by rewrite last_cons_cons|]. split; [|done].
    unfold manhattan. simpl. destruct between_x_inc as [-> | ->]; lia.
  - assert (b < dy) by nia.
    destruct (IH a (b + 1)) as (H1 & H2 & H3 & H4); [lia|lia|lia|].
    replace (y0 + b * y_inc + y_inc) with (y0 + (b + 1) * y_inc) by lia.
    replace (dx - dy - 2 * a * dy + 2 * b * dx + dx * 2)
      with (dx - dy - 2 * a * dy + 2 * (b + 1) * dx) by lia.
    destruct (between_loop n _ _ _ _ _ _ _ _ _) as [|c cells] eqn:E; [done|].
    simpl in H2. injection H2 as ->.
    split; [simpl in *; lia|]. split; [done|].
    split; [by rewrite last_cons_cons|]. split; [|done].
    unfold manhattan. simpl. destruct between_y_inc as [-> | ->]; lia.
Qed.

End between.

(** X26: [_get_cells_between] walks from the start cell to the end cell
    one edge at a time: it yields |dx| + |dy| + 1 cells, the first is the
    start, the last the end, and consecutive cells share an edge.  Its
    [range(n)] is exactly long enough: the walk reaches the end cell in the
    last round. *)
Theorem cells_between_edge_connected (start end_ : Coord) :
  length (cells_between start end_) = S (Z.to_nat (manhattan start end_)) ∧
  head (cells_between start end_) = Some start ∧
  last (cells_between start end_) = Some end_ ∧
  edge_chain (cells_between start end_) ∧
  (∀ c, c ∈ _get_cells_between start end_ ↔ c ∈ cells_between start end_).
Proof.
  destruct start as [x0 y0], end_ as [x1 y1].
  unfold _get_cells_between, cells_between, manhattan. simpl.
  destruct (between_loop_spec x0 y0 x1 y1 _ _ _ _ eq_refl eq_refl eq_refl eq_refl
              (Z.to_nat (1 + Z.abs (x1 - x0) + Z.abs (y1 - y0))) 0 0)
    as (H1 & H2 & H3 & H4); [lia|lia|lia|].
  replace (x0 + 0 * (if x0 <? x1 then 1 else -1)) with x0 in * by lia.
  replace (y0 + 0 * (if y0 <? y1 then 1 else -1)) with y0 in * by lia.
  replace (Z.abs (x1 - x0) - Z.abs (y1 - y0) - 2 * 0 * Z.abs (y1 - y0)
           + 2 * 0 * Z.abs (x1 - x0))
    with (Z.abs (x1 - x0) - Z.abs (y1 - y0)) in * by lia.
  split; [rewrite H1; lia|]. split; [done|]. split; [done|]. split; [done|].
  intros c. apply elem_of_list_to_set.
Qed.

(** * The start world *)

Lemma scatter_spec (blocked : Coord → bool) (draw : nat → Coord) (target : nat) :
  ∀ attempts i cells,
    (size cells ≤ target)%nat →
    (∀ c, c ∈ cells → blocked c = false ∧ ∃ j, c = draw j) →
    (size (scatter attempts target blocked draw i cells).1 ≤ target)%nat ∧
    (∀ c, c ∈ (scatter attempts target blocked draw i cells).1 →
          blocked c = false ∧ ∃ j, c = draw j).
Proof.
  induction attempts as [|n IH]; intros i cells Hsize Hcells; [done|].
  simpl. case_bool_decide as Hlt; [|done].
  apply IH.
  - destruct (blocked (draw i)); [lia|].
    destruct (decide (draw i ∈ cells)) as [Hin|Hin].
    + replace ({[draw i]} ∪ cells) with cells; [lia|].
      apply set_eq. intros x. rewrite elem_of_union, elem_of_singleton.
      split; [tauto|]. intros [->|]; done.
    + rewrite size_roads_add by done. lia.
  - intros c. destruct (blocked (draw i)) eqn:E; [apply Hcells|].
    intros [->%elem_of_singleton|Hc]%elem_of_union; [|by apply Hcells].
    split; [done|by eexists].
Qed.

(** X27: whatever numbers the random generator returns, the start world
    has no tree and no stone on the base footprint and no stone on a tree,
    at most max(75, view cells / 4) trees and at most max(10, trees / 4)
    stones, every one of them on a cell that was drawn.  The start world is
    therefore a reachable world, with all that holds for those. *)
Theorem generated_start_world (base : Coord) (view_cells_x view_cells_y : Z)
    (draw : nat → Coord) :
  resources_generated base
    (generate_resources base view_cells_x view_cells_y draw).1
    (generate_resources base view_cells_x view_cells_y draw).2 ∧
  reachable (new_game base
    (generate_resources base view_cells_x view_cells_y draw).1
    (generate_resources base view_cells_x view_cells_y draw).2) ∧
  (size (generate_resources base view_cells_x view_cells_y draw).1
   ≤ Z.to_nat (Z.max 75 (view_cells_x * view_cells_y / 4)))%nat ∧
  (size (generate_resources base view_cells_x view_cells_y draw).2
   ≤ Nat.max 10
       (size (generate_resources base view_cells_x view_cells_y draw).1 / 4))%nat ∧
  (∀ c, c ∈ (generate_resources base view_cells_x view_cells_y draw).1
          ∪ (generate_resources base view_cells_x view_cells_y draw).2 →
        ∃ j, c = draw j).
Proof.
  unfold generate_resources. cbv zeta.
  set (in_base := is_cell_in_base_area (new_game base ∅ ∅)).
  set (num_trees := Z.to_nat (Z.max 75 (view_cells_x * view_cells_y / 4))).
  destruct (scatter_spec in_base draw num_trees (num_trees * 10) 0 ∅)
    as [Ht1 Ht2]; [by rewrite size_empty; lia|by intros c ?%elem_of_empty|].
  destruct (scatter (num_trees * 10) num_trees in_base draw 0 ∅)
    as [trees0 i] eqn:Et. simpl in Ht1, Ht2.
  set (target_stones := Nat.max 10 (size trees0 / 4)).
  destruct (scatter_spec (λ c, in_base c || bool_decide (c ∈ trees0)) draw
              target_stones (target_stones * 20) i ∅)
    as [Hs1 Hs2]; [by rewrite size_empty; lia|by intros c ?%elem_of_empty|].
  destruct (scatter (target_stones * 20) target_stones _ draw i ∅)
    as [stones0 i'] eqn:Es. simpl in *.
  assert (Hgen : resources_generated base trees0 stones0).
  { split; [|split].
    - intros c Hc. by destruct (Ht2 c Hc).
    - intros c Hc. destruct (Hs2 c Hc) as [Hb _].
      by apply orb_false_iff in Hb as [Hb _].
    - intros c Hc. destruct (Hs2 c Hc) as [Hb _].
      apply orb_false_iff in Hb as [_ Hb]. by apply bool_decide_eq_false in Hb. }
  split; [done|]. split; [by apply reachable_init|].
  split; [done|]. split; [done|].
  intros c [Hc|Hc]%elem_of_union; [by destruct (Ht2 c Hc)|by destruct (Hs2 c Hc)].
Qed.

(** * Storages never go negative *)

Lemma update_first_Forall_found {A : Type} (P : A → Prop) p f (l : list A) x :
  find p l = Some x → P (f x) → Forall P l → Forall P (update_first p f l).
Proof.
  intros Hx Hf. induction 1 as [|y l Hy Hl IH]; [constructor|].
  simpl in *. destruct (p y).
  - injection Hx as ->. by constructor.
  - constructor; auto.
Qed.

Lemma store_ok_get b k : store_ok b → (0 <= dict_get k 0 (storage b))%Q.
Proof.
  intros [H _]. unfold dict_get. destruct (storage b !! k) eqn:E; simpl; [|done].
  by eapply H.
Qed.

Lemma store_ok_insert b k v :
  store_ok b → (0 <= v)%Q →
  (type b = refinery → k ≠ "stone" ∨ ∃ z : Z, v = inject_Z z) →
  store_ok (set_storage (<[k := v]> (storage b)) b).
Proof.
  intros [H1 H2] Hv Hint. split; simpl.
  - intros k' v' [[_ <-]|[_ Hk]]%lookup_insert_Some; [done|by eapply H1].
  - intros Ht. unfold dict_get. destruct (Hint Ht) as [Hne|[z ->]].
    + rewrite lookup_insert_ne by done. by apply H2.
    + destruct (decide (k = "stone")) as [->|Hne].
      * rewrite lookup_insert_eq. by exists z.
      * rewrite lookup_insert_ne by done. by apply H2.
Qed.

Lemma Qmax_zero_nonneg x : (0 <= Qmax 0 x)%Q.
Proof. apply Q.le_max_l. Qed.

Lemma load_from_building_stores ty res c b g t l g1 t1 :
  (ty = refinery → res ≠ "stone") →
  get_building_at_cell g c = Some b →
  Forall store_ok (buildings g) →
  load_from_building ty res c b g t = (l, g1, t1) →
  Forall store_ok (buildings g1).
Proof.
  intros Hres Hb Hok. unfold load_from_building. cbv zeta.
  destruct (Qltb 0 _); intros [= <- <- <-]; [|done].
  case_bool_decide as Hty; [|done]. simpl.
  eapply update_first_Forall_found; [exact Hb| |done].
  assert (Hbok : store_ok b).
  { rewrite Forall_forall in Hok. apply Hok.
    apply find_some in Hb as [Hin _]. by apply list_elem_of_In. }
  apply store_ok_insert; [done|apply Qmax_zero_nonneg|].
  intros Hr. left. apply Hres. congruence.
Qed.

Lemma load_from_base_buildings res g t :
  buildings (load_from_base res g t).1.2 = buildings g.
Proof. unfold load_from_base. cbv zeta. by destruct (Qltb 0 _). Qed.

Lemma load_cargo_stores c b g t g1 t1 r :
  get_building_at_cell g c = Some b →
  Forall store_ok (buildings g) →
  load_cargo c b g t = (g1, t1, r) →
  Forall store_ok (buildings g1).
Proof.
  intros Hb Hok. unfold load_cargo.
  assert (Hbase : ∀ res, (let '(_, g', t') := load_from_base res g t in (g', t', false))
                      = (g1, t1, r) → Forall store_ok (buildings g1)).
  { intros res. pose proof (load_from_base_buildings res g t) as Hbs.
    destruct (load_from_base res g t) as [[l g'] t'].
    intros [= <- <- <-]. simpl in Hbs. by rewrite Hbs. }
  assert (Hbld : ∀ ty res, (ty = refinery → res ≠ "stone") →
               (let '(_, g', t') := load_from_building ty res c b g t in
                (g', t', false)) = (g1, t1, r) → Forall store_ok (buildings g1)).
  { intros ty res Hres.
    destruct (load_from_building ty res c b g t) as [[l g'] t'] eqn:E.
    intros [= <- <- <-]. by eapply load_from_building_stores. }
  case_bool_decide; [case_bool_decide; [apply Hbase|by apply Hbld]|].
  case_bool_decide.
  { case_bool_decide.
    - pose proof (load_from_base_buildings "stone" g t) as Hbs.
      destruct (load_from_base "stone" g t) as [[l g'] t']. simpl in Hbs.
      destruct (Qltb 0 l); [|intros [= <- <- <-]; by rewrite Hbs].
      destruct (_dest_cell t') as [d|]; [|intros [= <- <- <-]; by rewrite Hbs].
      destruct (get_building_at_cell g' d) as [db|];
        [|intros [= <- <- <-]; by rewrite Hbs].
      case_bool_decide; intros [= <- <- <-]; by rewrite Hbs.
    - destruct (load_from_building quarry "stone" c b g t) as [[l g'] t'] eqn:E.
      apply load_from_building_stores in E; [|done|done|done].
      destruct (Qltb 0 l && refinery_loop t'); [|by intros [= <- <- <-]].
      destruct (_dest_cell t') as [d|]; [|by intros [= <- <- <-]].
      destruct (leg_to g' t' d); by intros [= <- <- <-]. }
  case_bool_decide; [case_bool_decide; [apply Hbase|by apply Hbld]|].
  by intros [= <- <- <-].
Qed.

Lemma arrive_at_source_stores g t g1 t1 :
  Forall store_ok (buildings g) →
  arrive_at_source g t = (g1, t1) → Forall store_ok (buildings g1).
Proof.
  intros Hok. unfold arrive_at_source.
  destruct (saved_source t) as [c|]; [|by intros [= <- <-]].
  case_bool_decide; [|by intros [= <- <-]].
  destruct (get_building_at_cell g c) as [b|] eqn:Eb; [|by intros [= <- <-]].
  destruct (load_cargo c b g t) as [[g' t'] r] eqn:E.
  apply load_cargo_stores in E; [|done|done].
  destruct r; by intros [= <- <-].
Qed.

Lemma deliver_to_pool_buildings k g t g1 t1 :
  deliver_to_pool k g t = Ok (g1, t1) → buildings g1 = buildings g.
Proof.
  unfold deliver_to_pool, dict_add. cbv zeta.
  destruct (resources g !! k); [|done]. simpl. by intros [= <- <-].
Qed.

Lemma arrive_at_dest_stores g t g1 t1 :
  Forall store_ok (buildings g) →
  arrive_at_dest g t = Ok (g1, t1) → Forall store_ok (buildings g1).
Proof.
  intros Hok. unfold arrive_at_dest.
  assert (Hpool : ∀ k,
            deliver_to_pool k g t ≫= (λ '(g', t'), Ok (g', repeat_or_idle g' t'))
            = Ok (g1, t1) → Forall store_ok (buildings g1)).
  { intros k. destruct (deliver_to_pool k g t) as [[g' t']|e] eqn:E; [|done].
    simpl. apply deliver_to_pool_buildings in E. intros [= <- <-].
    by rewrite E. }
  destruct (_dest_cell t) as [d|]; [|by intros [= <- <-]].
  case_bool_decide as Hat.
  - case_bool_decide as Hbase.
    + destruct (deliverable t ["wood"; "stone"; "bmats"]) as [k|]; [apply Hpool|].
      by intros [= <- <-].
    + destruct (get_building_at_cell g d) as [db|] eqn:Edb;
        [|by intros [= <- <-]].
      destruct (bool_decide (is_Some (deliverable t ["stone"]))) eqn:Es; simpl.
      * apply bool_decide_eq_true in Es as [k Es].
        apply deliverable_positive in Es.
        destruct (to_int_bounds (cargo_amount t)) as [Hi1 Hi2]; [lra|].
        case_bool_decide as Hty; simpl.
        -- assert (Hnew : Forall store_ok
                     (buildings (deliver_to_refinery d g t).1.2)).
           { unfold deliver_to_refinery. cbv zeta. simpl.
             eapply update_first_Forall_found; [exact Edb| |done].
             assert (Hdb : store_ok db).
             { rewrite Forall_forall in Hok. apply Hok.
               apply find_some in Edb as [Hin _]. by apply list_elem_of_In. }
             destruct (proj2 Hdb Hty) as [z Hz].
             pose proof (store_ok_get db "stone" Hdb) as Hnn.
             rewrite Hz in *. unfold of_int. rewrite fadd_int.
             apply (inject_Z_nonneg z) in Hnn.
             apply store_ok_insert;
               [done|apply (inject_Z_nonneg (z + to_int (cargo_amount t))); lia|].
             intros _. right. by eexists. }
           unfold deliver_to_refinery in *. cbv zeta in *. simpl in Hnew.
           destruct (0 <? _); by intros [= <- <-].
        -- destruct (deliverable t ["wood"; "bmats"]) as [k'|]; [apply Hpool|].
           by intros [= <- <-].
      * destruct (deliverable t ["wood"; "bmats"]) as [k'|]; [apply Hpool|].
        by intros [= <- <-].
  - destruct (_ && _ && _); [|by intros [= <- <-]].
    destruct (is_cell_in_base_area g (current_cell t)); [|by intros [= <- <-]].
    pose proof (load_from_base_buildings "stone" g t) as Hbs.
    destruct (load_from_base "stone" g t) as [[l g'] t']. simpl in Hbs.
    destruct (Qltb 0 l); intros [= <- <-]; [by rewrite Hbs|done].
Qed.

Lemma update_truck_stores g t dt g1 t1 :
  Forall store_ok (buildings g) →
  update_truck g t dt = Ok (g1, t1) → Forall store_ok (buildings g1).
Proof.
  intros Hok. unfold update_truck.
  destruct (path_cells t) as [|c rest]; [by intros [= <- <-]|].
  cbv zeta. destruct (Qltb _ _).
  - destruct rest; [|by intros [= <- <-]].
    unfold on_truck_arrival. simpl.
    destruct (state t); try by intros [= <- <-].
    + destruct (arrive_at_source g _) as [g' t'] eqn:E. intros [= <- <-].
      by eapply arrive_at_source_stores.
    + by apply arrive_at_dest_stores.
  - destruct (Qle_bool _ _); by intros [= <- <-].
Qed.

Lemma update_trucks_stores dt ts :
  ∀ g g1 ts1, Forall store_ok (buildings g) →
  update_trucks g dt ts = Ok (g1, ts1) → Forall store_ok (buildings g1).
Proof.
  induction ts as [|t ts IH]; intros g g1 ts1 Hok; [by intros [= <- <-]|].
  simpl. destruct (update_truck g t dt) as [[g' t']|e] eqn:E; [|done]. simpl.
  destruct (update_trucks g' dt ts) as [[g'' ts']|e] eqn:E'; [|done]. simpl.
  intros [= <- <-]. eapply IH; [|exact E']. by eapply update_truck_stores.
Qed.

Lemma produce_store_ok g dt b :
  (0 <= dt)%Q → store_ok b → store_ok (produce g dt b).
Proof.
  intros Hdt Hb. unfold produce.
  destruct (Qle_bool _ _) eqn:Er; [done|].
  apply Qle_bool_false in Er.
  destruct (negb _); [done|].
  assert (Hadd : ∀ k, (0 <= fadd (dict_get k 0 (storage b))
                               (fmul (production_rate_per_sec b) dt))%Q).
  { intros k. pose proof (store_ok_get b k Hb).
    rewrite fadd_eq, fmul_eq. nra. }
  destruct (type b) eqn:Et.
  - apply store_ok_insert; [done|apply Hadd|]. intros ?. congruence.
  - apply store_ok_insert; [done|apply Hadd|]. intros ?. congruence.
  - destruct (Qltb _ _) eqn:Epos; [|done]. apply Qltb_lt in Epos.
    destruct (Qle_bool _ _); [|by destruct Hb].
    destruct (proj2 Hb Et) as [z Hz]. rewrite Hz in *.
    apply (inject_Z_pos z) in Epos.
    change 1%Q with (inject_Z 1). rewrite fsub_int.
    assert (H1 : store_ok (set_storage (<["stone" := inject_Z (z - 1)]> (storage b)) b)).
    { apply store_ok_insert; [done|apply (inject_Z_nonneg (z - 1)); lia|].
      intros _. right. by eexists. }
    assert (Hbm : (0 <= fadd (dict_get "bmats" 0 (storage b)) (inject_Z 1))%Q).
    { pose proof (store_ok_get b "bmats" Hb). rewrite fadd_eq.
      change (inject_Z 1) with 1%Q. lra. }
    assert (Hkey : type (set_storage (<["stone" := inject_Z (z - 1)]> (storage b)) b)
                   = refinery →
                   "bmats" ≠ "stone" ∨
                   ∃ z0 : Z, fadd (dict_get "bmats" 0 (storage b)) (inject_Z 1)
                             = inject_Z z0) by (intros _; by left).
    destruct (store_ok_insert _ "bmats" _ H1 Hbm Hkey) as [H3 H4].
    split; [exact H3|exact H4].
Qed.

Lemma update_stores dt g g' :
  (0 <= dt)%Q → Forall store_ok (buildings g) →
  update dt g = Ok g' → Forall store_ok (buildings g').
Proof.
  intros Hdt Hok. unfold update. cbv zeta.
  destruct (update_trucks _ dt _) as [[g2 ts]|e] eqn:E; [|done].
  simpl. intros [= <-]. simpl.
  eapply update_trucks_stores; [|exact E]. simpl.
  apply Forall_fmap. eapply Forall_impl; [exact Hok|].
  intros b Hb. by apply produce_store_ok.
Qed.

Lemma new_building_store_ok ty c r rate :
  store_ok (mkBuilding ty c r rate {["wood" := 0%Q]} None) ∧
  store_ok (mkBuilding ty c r rate {["stone" := 0%Q]} None) ∧
  store_ok (mkBuilding ty c r rate (<["stone" := 0%Q]> {["bmats" := 0%Q]}) None).
Proof.
  split; [|split]; split; simpl.
  - intros k v [_ <-]%lookup_singleton_Some. done.
  - intros _. by exists 0.
  - intros k v [_ <-]%lookup_singleton_Some. done.
  - intros _. by exists 0.
  - intros k v [[_ <-]|[_ [_ <-]%lookup_singleton_Some]]%lookup_insert_Some; done.
  - intros _. by exists 0.
Qed.

Lemma place_building_stores ty c g :
  Forall store_ok (buildings g) → Forall store_ok (buildings (place_building ty c g)).
Proof.
  intros Hok.
  destruct ty; simpl; unfold place_lumber_camp, place_quarry, place_refinery;
    destruct (negb _); try done; simpl; apply Forall_app; (split; [done|]);
    constructor; [|done| |done| |done]; apply new_building_store_ok.
Qed.

Lemma execute_bulldoze_stores cells :
  ∀ g g', Forall store_ok (buildings g) →
  execute_bulldoze cells g = Ok g' → Forall store_ok (buildings g').
Proof.
  induction cells as [|c cells IH]; intros g g' Hok; [by intros [= <-]|].
  simpl. destruct (bulldoze_cell c g) as [g1|e] eqn:E; [|done]. simpl.
  apply IH. unfold bulldoze_cell in E. case_bool_decide.
  - cbv zeta in E. destruct (dict_add _ _ _); [|done]. simpl in E.
    by injection E as <-.
  - destruct (get_building_at_cell g c); injection E as <-; [|done].
    simpl. by apply remove_first_Forall.
Qed.

Lemma run_command_stores cmd g g' :
  forward cmd → Forall store_ok (buildings g) →
  run_command cmd g = Ok g' → Forall store_ok (buildings g').
Proof.
  intros Hf Hok.
  destruct cmd as [c|c|c|c|cells| |id s d r|id|id|dt]; simpl.
  - intros [= <-]. unfold paint_cell. by repeat case_match.
  - intros [= <-]. by apply (place_building_stores lumber).
  - intros [= <-]. by apply (place_building_stores quarry).
  - intros [= <-]. by apply (place_building_stores refinery).
  - by apply execute_bulldoze_stores.
  - unfold build_new_truck. cbv zeta. destruct (Qle_bool _ _); [|by intros [= <-]].
    destruct (dict_add _ _ _); [|done]. simpl. by intros [= <-].
  - by intros [= <-].
  - by intros [= <-].
  - by intros [= <-].
  - by apply update_stores.
Qed.

Lemma reachable_forward_reachable g : reachable_forward g → reachable g.
Proof.
  induction 1 as [base trees0 stones0 Hgen|g cmd g' _ IH _ Hrun].
  - by apply reachable_init.
  - by eapply reachable_step.
Qed.

Lemma world_after_forward cmds g :
  Forall forward cmds → reachable_forward g → reachable_forward (world_after cmds g).
Proof.
  intros Hf Hg. unfold world_after.
  destruct (run_commands cmds g) as [g'|e] eqn:E; [|done].
  revert g Hg E. induction Hf as [|cmd cmds Hc Hcs IH]; intros g Hg E.
  - by injection E as <-.
  - simpl in E. destruct (run_command cmd g) as [g1|e] eqn:E1; [|done].
    simpl in E. eapply IH; [|exact E]. by eapply reachable_forward_step.
Qed.

Lemma ex_start_forward : reachable_forward ex_start.
Proof.
  apply reachable_forward_init. unfold ex_trees, ex_stones. split; [|split].
  - intros c Hc. apply elem_of_list_to_set in Hc.
    repeat (apply elem_of_cons in Hc as [->|Hc]; [done|]).
    by apply elem_of_nil in Hc.
  - intros c Hc. apply elem_of_list_to_set in Hc.
    repeat (apply elem_of_cons in Hc as [->|Hc]; [done|]).
    by apply elem_of_nil in Hc.
  - intros c Hc. apply elem_of_list_to_set in Hc.
    repeat (apply elem_of_cons in Hc as [->|Hc]; [by vm_compute|]).
    by apply elem_of_nil in Hc.
Qed.

(** X28: as long as time runs forward (every tick has [dt >= 0], as
    every tick of [run] has), no storage of any building ever holds a
    negative amount, and the stone in a refinery is always a whole
    number, so the conversion never takes a stone that is not there. *)
Theorem storages_never_negative (g : Game) (b : Building) :
  reachable_forward g → b ∈ buildings g →
  (∀ k v, storage b !! k = Some v → (0 <= v)%Q) ∧
  (type b = refinery → ∃ z : Z, 0 ≤ z ∧ dict_get "stone" 0 (storage b) = inject_Z z).
Proof.
  intros Hg Hb.
  assert (Hok : Forall store_ok (buildings g)).
  { clear b Hb. induction Hg as [base trees0 stones0 Hgen|g cmd g' _ IH Hf Hrun].
    - constructor.
    - by eapply run_command_stores. }
  rewrite Forall_forall in Hok. pose proof (Hok b Hb) as Hbok.
  split; [apply Hbok|].
  intros Ht. destruct (proj2 Hbok Ht) as [z Hz]. exists z. split; [|done].
  apply (inject_Z_nonneg z). rewrite <- Hz. by apply store_ok_get.
Qed.

Lemma storages_never_negative_witness :
  reachable_forward c4_world ∧ c4_camp ∈ buildings c4_world ∧
  (0 <= 0)%Q.
Proof.
  assert (H1 : reachable_forward c4_world).
  { apply world_after_forward; [|apply ex_start_forward].
    repeat constructor. }
  assert (H2 : c4_camp ∈ buildings c4_world)
    by (apply list_elem_of_In; vm_compute; by left).
  split; [exact H1|]. split; [exact H2|].
  exact (proj1 (storages_never_negative c4_world c4_camp H1 H2) "wood" 0%Q eq_refl).
Defined.

(** * Production rates *)

Lemma rates_same_world g g' :
  trees g' = trees g → stones g' = stones g →
  map site_view (buildings g') = map site_view (buildings g) →
  Forall (rate_rule (trees g) (stones g)) (map site_view (buildings g)) →
  Forall (rate_rule (trees g') (stones g')) (map site_view (buildings g')).
Proof. intros -> -> ->. done. Qed.

Lemma place_building_rates ty c g :
  Forall (rate_rule (trees g) (stones g)) (map site_view (buildings g)) →
  Forall (rate_rule (trees (place_building ty c g)) (stones (place_building ty c g)))
    (map site_view (buildings (place_building ty c g))).
Proof.
  intros Hok.
  destruct ty; simpl; unfold place_lumber_camp, place_quarry, place_refinery;
    destruct (negb _); try done; simpl; rewrite map_app; apply Forall_app;
    (split; [done|]); by repeat constructor.
Qed.

Lemma bulldoze_cell_rates c g g' :
  Forall (rate_rule (trees g) (stones g)) (map site_view (buildings g)) →
  bulldoze_cell c g = Ok g' →
  Forall (rate_rule (trees g') (stones g')) (map site_view (buildings g')).
Proof.
  intros Hok. unfold bulldoze_cell. case_bool_decide.
  - cbv zeta. destruct (dict_add _ _ _); [|done]. simpl. by intros [= <-].
  - destruct (get_building_at_cell g c); intros [= <-]; [|done]. simpl.
    apply Forall_forall. intros v Hv. rewrite Forall_forall in Hok. apply Hok.
    eapply elem_of_sublist; [exact Hv|].
    apply fmap_sublist, remove_first_sublist.
Qed.

Lemma run_command_rates cmd g g' :
  Forall (rate_rule (trees g) (stones g)) (map site_view (buildings g)) →
  run_command cmd g = Ok g' →
  Forall (rate_rule (trees g') (stones g')) (map site_view (buildings g')).
Proof.
  intros Hok.
  destruct cmd as [c|c|c|c|cells| |id s d r|id|id|dt]; simpl.
  - intros [= <-]. unfold paint_cell. by repeat case_match.
  - intros [= <-]. by apply (place_building_rates lumber).
  - intros [= <-]. by apply (place_building_rates quarry).
  - intros [= <-]. by apply (place_building_rates refinery).
  - revert g Hok. induction cells as [|c cells IH]; intros g Hok; simpl.
    + by intros [= <-].
    + destruct (bulldoze_cell c g) as [g1|e] eqn:E; [|done]. simpl.
      apply IH. by eapply bulldoze_cell_rates.
  - unfold build_new_truck. cbv zeta. destruct (Qle_bool _ _); [|by intros [= <-]].
    destruct (dict_add _ _ _); [|done]. simpl. by intros [= <-].
  - by intros [= <-].
  - by intros [= <-].
  - by intros [= <-].
  - intros E. apply update_frame in E as ([(_ & _ & Ht & Hs & _) S _] & _ & _).
    by apply (rates_same_world g).
Qed.

Lemma count_in_radius_zero (nodes : gset Coord) (c : Coord) (r : Z) :
  count_in_radius nodes c r = 0 ↔
  ∀ n, n ∈ nodes →
       r * r < (fst n - fst c) * (fst n - fst c) + (snd n - snd c) * (snd n - snd c).
Proof.
  unfold count_in_radius. split.
  - intros H n Hn. apply Z.nle_gt. intros Hle.
    assert (Hs : size (filter
              (λ n : Coord, (fst n - fst c) * (fst n - fst c) +
                    (snd n - snd c) * (snd n - snd c) ≤ r * r) nodes) = 0%nat)
      by lia.
    apply size_empty_inv in Hs.
    assert (Hin : n ∈ filter
              (λ n : Coord, (fst n - fst c) * (fst n - fst c) +
                    (snd n - snd c) * (snd n - snd c) ≤ r * r) nodes)
      by (by apply elem_of_filter).
    rewrite (Hs n) in Hin. by apply elem_of_empty in Hin.
  - intros H.
    assert (Hs : filter
              (λ n : Coord, (fst n - fst c) * (fst n - fst c) +
                    (snd n - snd c) * (snd n - snd c) ≤ r * r) nodes ≡ ∅).
    { intros n. split; [|by intros ?%elem_of_empty].
      intros [Hle Hn]%elem_of_filter. specialize (H n Hn). lia. }
    rewrite Hs, size_empty. done.
Qed.

(** X29: the production rate of a building is fixed when it is placed
    and never changes: in every reachable world a lumber camp produces a
    fifth of a unit per second for every tree within distance 5 of its
    cell, a quarry the same for stones, a refinery has rate 0.2.  Trees
    and stones are never used up.  A camp or quarry with no tree or stone
    in its radius has rate zero, and the production step never changes
    it. *)
Theorem rates_fixed_at_placement (g : Game) (b : Building) :
  reachable g → b ∈ buildings g →
  production_rate_per_sec b
  = placement_rate (trees g) (stones g) (type b) (cell b) ∧
  (type b = lumber → count_trees_in_radius g (cell b) 5 = 0 →
   ∀ g0 dt, produce g0 dt b = b) ∧
  (type b = quarry → count_stones_in_radius g (cell b) 5 = 0 →
   ∀ g0 dt, produce g0 dt b = b) ∧
  (count_trees_in_radius g (cell b) 5 = 0 ↔
   ∀ n, n ∈ trees g →
        25 < (fst n - fst (cell b)) * (fst n - fst (cell b))
             + (snd n - snd (cell b)) * (snd n - snd (cell b))).
Proof.
  intros Hg Hb.
  assert (Hok : Forall (rate_rule (trees g) (stones g))
                  (map site_view (buildings g))).
  { clear b Hb. induction Hg as [base trees0 stones0 Hgen|g cmd g' _ IH Hrun].
    - constructor.
    - by eapply run_command_rates. }
  rewrite Forall_forall in Hok.
  assert (Hrate : production_rate_per_sec b
                  = placement_rate (trees g) (stones g) (type b) (cell b)).
  { apply (Hok (site_view b)). by apply list_elem_of_fmap_2. }
  split; [done|]. split; [|split].
  - intros Ht Hz g0 dt. unfold produce. rewrite Hrate, Ht. simpl.
    unfold count_trees_in_radius in Hz. by rewrite Hz.
  - intros Ht Hz g0 dt. unfold produce. rewrite Hrate, Ht. simpl.
    unfold count_stones_in_radius in Hz. by rewrite Hz.
  - apply (count_in_radius_zero (trees g) (cell b) 5).
Qed.

Lemma rates_fixed_at_placement_witness :
  reachable c4_world ∧ c4_camp ∈ buildings c4_world ∧
  production_rate_per_sec c4_camp
  = placement_rate (trees c4_world) (stones c4_world) (type c4_camp) (cell c4_camp).
Proof.
  assert (H1 : reachable c4_world)
    by apply world_after_reachable, ex_start_reachable.
  assert (H2 : c4_camp ∈ buildings c4_world)
    by (apply list_elem_of_In; vm_compute; by left).
  split; [exact H1|]. split; [exact H2|].
  exact (proj1 (rates_fixed_at_placement c4_world c4_camp H1 H2)).
Defined.

(** * Screen and cells *)

Lemma div_grid_iff (p c : Z) : p / GRID_SIZE = c ↔ c * GRID_SIZE ≤ p < c * GRID_SIZE + GRID_SIZE.
Proof.
  unfold GRID_SIZE.
  pose proof (Z.div_mod p 32). pose proof (Z.mod_pos_bound p 32). lia.
Qed.

Lemma wrap32_small (z : Z) : - 2 ^ 31 ≤ z < 2 ^ 31 → wrap32 z = z.
Proof. intros Hz. unfold wrap32. rewrite Z.mod_small; lia. Qed.

Lemma wrap32_range (z : Z) : - 2 ^ 31 ≤ wrap32 z < 2 ^ 31.
Proof.
  unfold wrap32. pose proof (Z.mod_pos_bound (z + 2 ^ 31) (2 ^ 32)). lia.
Qed.

(** X30: a click is attributed to the cell whose rectangle it falls
    into: for every camera offset and every cell whose rectangle has its
    left and top edge within the 32-bit range of [pygame.Rect],
    [world_to_cell] of a screen position is the cell [c] exactly when the
    position lies inside [cell_to_rect(c)], the left and top edge
    included, the right and bottom edge excluded.  This also holds left of
    and above the origin, where [world_pos_to_cell] rounds the other way.
    Outside that range the rectangle wraps around: its left and top edge
    always lie in the 32-bit range. *)
Theorem world_to_cell_inverts_rect (camera pos : Z * Z) (c : Coord) :
  - 2 ^ 31 ≤ fst c * GRID_SIZE - fst camera < 2 ^ 31 →
  - 2 ^ 31 ≤ snd c * GRID_SIZE - snd camera < 2 ^ 31 →
  (world_to_cell camera pos = c ↔
   (cell_to_rect camera c).1.1.1 ≤ fst pos
     < (cell_to_rect camera c).1.1.1 + (cell_to_rect camera c).1.2 ∧
   (cell_to_rect camera c).1.1.2 ≤ snd pos
     < (cell_to_rect camera c).1.1.2 + (cell_to_rect camera c).2) ∧
  (∀ camera' c', - 2 ^ 31 ≤ (cell_to_rect camera' c').1.1.1 < 2 ^ 31 ∧
                 - 2 ^ 31 ≤ (cell_to_rect camera' c').1.1.2 < 2 ^ 31).
Proof.
  intros Hx Hy. split; [|intros camera' c'; split; apply wrap32_range].
  destruct camera as [cx cy], pos as [px py], c as [x y].
  unfold world_to_cell, cell_to_rect. simpl in *.
  rewrite !wrap32_small by (unfold GRID_SIZE in *; lia).
  split.
  - intros [= Hx' Hy']. apply div_grid_iff in Hx', Hy'. lia.
  - intros [Hx' Hy']. f_equal; apply div_grid_iff; lia.
Qed.

Lemma world_to_cell_inverts_rect_witness :
  - 2 ^ 31 ≤ 8 * GRID_SIZE - 100 < 2 ^ 31 ∧
  - 2 ^ 31 ≤ 5 * GRID_SIZE - 40 < 2 ^ 31 ∧
  (world_to_cell (100, 40) (187, 120) = (8, 5) ↔
   (cell_to_rect (100, 40) (8, 5)).1.1.1 ≤ 187
     < (cell_to_rect (100, 40) (8, 5)).1.1.1 + (cell_to_rect (100, 40) (8, 5)).1.2 ∧
   (cell_to_rect (100, 40) (8, 5)).1.1.2 ≤ 120
     < (cell_to_rect (100, 40) (8, 5)).1.1.2 + (cell_to_rect (100, 40) (8, 5)).2).
Proof.
  assert (H1 : - 2 ^ 31 ≤ 8 * GRID_SIZE - 100 < 2 ^ 31) by (by vm_compute).
  assert (H2 : - 2 ^ 31 ≤ 5 * GRID_SIZE - 40 < 2 ^ 31) by (by vm_compute).
  split; [exact H1|]. split; [exact H2|].
  exact (proj1 (world_to_cell_inverts_rect (100, 40) (187, 120) (8, 5) H1 H2)).
Defined.
